(** * TraDex reconciliation core: symbol normaliser, history merger,
      history facade, unified price aggregator and mock generator.

    A shallow embedding of the TypeScript sources
      - types/market.ts          ([OHLC], [normalizeSymbol])
      - lib/token/merge.ts       ([mergeHistories])
      - lib/history.ts           ([getCandles])
      - hooks/useUnifiedPrices.ts (the aggregation of [useUnifiedPrices])
      - lib/token/mock.ts        ([genMock])
    and the properties of them that the specification states. *)

From Stdlib Require Import Ascii String.
From Stdlib Require Import ZArith NArith QArith Qminmax Bool List Lia.
From Stdlib Require Import Permutation Sorted Floats Uint63.
From Stdlib Require DecimalString Qpower.
Import ListNotations.

Set Warnings "-inexact-float".
Close Scope Q_scope.

(* ================================================================= *)
(** * JavaScript strings *)

(** A JavaScript string is a sequence of UTF-16 code units.  Literals of
    the sources are ASCII and are written with [lit]. *)

Module JsString.

Local Open Scope N_scope.

Definition code_unit := N.
Definition jsstring := list code_unit.

Definition lit (s : string) : jsstring :=
  List.map N_of_ascii (list_ascii_of_string s).

Definition unit_eqb (a b : code_unit) : bool := N.eqb a b.

Fixpoint eqb (a b : jsstring) : bool :=
  match a, b with
  | [], [] => true
  | x :: a', y :: b' => unit_eqb x y && eqb a' b'
  | _, _ => false
  end.

Definition between (lo hi c : N) : bool := (N.leb lo c && N.leb c hi)%bool.

(** [!s] on a string: only the empty string is falsy. *)
Definition is_empty (s : jsstring) : bool :=
  match s with [] => true | _ => false end.

(** WhiteSpace and LineTerminator code points of ECMAScript, the ones
    [String.prototype.trim] strips. *)
Definition is_white_space (c : code_unit) : bool :=
  (between 9 13 c || N.eqb c 32 || N.eqb c 160 || N.eqb c 5760
   || between 8192 8202 c || N.eqb c 8232 || N.eqb c 8233 || N.eqb c 8239
   || N.eqb c 8287 || N.eqb c 12288 || N.eqb c 65279)%bool.

Fixpoint trimStart (s : jsstring) : jsstring :=
  match s with
  | [] => []
  | c :: s' => if is_white_space c then trimStart s' else s
  end.

Definition trimEnd (s : jsstring) : jsstring := rev (trimStart (rev s)).

Definition trim (s : jsstring) : jsstring := trimEnd (trimStart s).

(** Case mappings.  The Unicode tables are modelled on Basic Latin
    (U+0000..U+007F) and on U+017F LATIN SMALL LETTER LONG S, whose upper
    case is the ASCII letter S; every other code unit is kept, which is
    what JavaScript does for uncased characters.  The model is exact on
    strings made of these characters; statements that rely on the case
    mapping of other letters carry the hypothesis [basic_latin]. *)
Definition long_s : code_unit := 383.

Definition toLowerCase_unit (c : code_unit) : code_unit :=
  if between 65 90 c then (c + 32) else c.

Definition toUpperCase_unit (c : code_unit) : code_unit :=
  if between 97 122 c then (c - 32)
  else if N.eqb c long_s then 83
  else c.

Definition toLowerCase (s : jsstring) : jsstring := List.map toLowerCase_unit s.
Definition toUpperCase (s : jsstring) : jsstring := List.map toUpperCase_unit s.

Definition basic_latin (s : jsstring) : Prop := Forall (fun c => c < 128) s.

(** [arr.includes(s)] on an array of strings. *)
Definition includes (l : list jsstring) (s : jsstring) : bool :=
  existsb (eqb s) l.

(** Character classes of the two regular expressions of
    [normalizeSymbol].  Both carry the [i] flag and no [u] flag: a
    character above U+007F is never folded onto an ASCII one, so the
    classes match exactly the ASCII characters below. *)
Definition is_letter (c : code_unit) : bool :=
  (between 97 122 c || between 65 90 c)%bool.

Definition is_hex_digit (c : code_unit) : bool :=
  (between 48 57 c || between 97 102 c || between 65 70 c)%bool.

(** The property names every plain object inherits from
    [Object.prototype]. *)
Definition Object_prototype_keys : list jsstring :=
  List.map lit
    ["constructor"; "__defineGetter__"; "__defineSetter__"; "hasOwnProperty";
     "__lookupGetter__"; "__lookupSetter__"; "isPrototypeOf";
     "propertyIsEnumerable"; "toString"; "valueOf"; "__proto__";
     "toLocaleString"]%string.

End JsString.

Import JsString.

(* ================================================================= *)
(** * types/market.ts *)

Module Market.

(** [OHLC], over the type of its numbers: the merger only compares
    prices and runs on rationals (every finite double is one and doubles
    are ordered as rationals are); the mock generator computes with
    binary64 floats. *)
Record OHLC (num : Type) : Type := mkOHLC {
  time   : Z;
  open   : num;
  high   : num;
  low    : num;
  close  : num;
  volume : option num
}.

Arguments mkOHLC {num}.
Arguments time {num}.
Arguments open {num}.
Arguments high {num}.
Arguments low {num}.
Arguments close {num}.
Arguments volume {num}.

Definition History (num : Type) := list (OHLC num).

(** The own properties of [MAP]. *)
Definition MAP : list (jsstring * jsstring) :=
  List.map (fun kv => (lit (fst kv), lit (snd kv)))
    [("ethereum", "ETH"); ("ether", "ETH"); ("bitcoin", "BTC");
     ("solana", "SOL"); ("polygon", "MATIC"); ("bnb", "BNB");
     ("ripple", "XRP"); ("cardano", "ADA"); ("dogecoin", "DOGE");
     ("litecoin", "LTC"); ("chainlink", "LINK"); ("uniswap", "UNI");
     ("aave", "AAVE"); ("pancakeswap", "CAKE"); ("sushi", "SUSHI")]%string.

(** What [MAP[s]] evaluates to: [MAP] is an object literal, so a key
    that is not its own is looked up on [Object.prototype], where it
    finds a function or an object. *)
Inductive property :=
| PString (v : jsstring)
| PInherited
| PUndefined.

Fixpoint own_property (m : list (jsstring * jsstring)) (s : jsstring)
  : option jsstring :=
  match m with
  | [] => None
  | (k, v) :: m' => if JsString.eqb s k then Some v else own_property m' s
  end.

Definition MAP_get (s : jsstring) : property :=
  match own_property MAP s with
  | Some v => PString v
  | None => if includes Object_prototype_keys s then PInherited else PUndefined
  end.

Definition truthy (p : property) : bool :=
  match p with
  | PString v => negb (is_empty v)
  | PInherited => true
  | PUndefined => false
  end.

(** [/^0x[a-f0-9]{40}$/i.test(s)] *)
Definition address_re (s : jsstring) : bool :=
  match s with
  | z :: x :: digits =>
      (N.eqb z 48 && (N.eqb x 120 || N.eqb x 88)
       && Nat.eqb (List.length digits) 40 && forallb is_hex_digit digits)%bool
  | _ => false
  end.

(** [/^[a-z]{2,8}$/i.test(s)] *)
Definition ticker_re (s : jsstring) : bool :=
  (Nat.leb 2 (List.length s) && Nat.leb (List.length s) 8
   && forallb is_letter s)%bool.

(** A call either returns a string or throws a [TypeError]. *)
Inductive completion :=
| Return (s : jsstring)
| TypeError.

(** The body of [normalizeSymbol] after [s] is computed. *)
Definition normalize_trimmed (s : jsstring) : completion :=
  if address_re s then Return s
  else if (ticker_re s && negb (truthy (MAP_get s)))%bool
       then Return (toUpperCase s)
  else match MAP_get s with
       | PString v => Return (toUpperCase v)
       | PUndefined => Return (toUpperCase s)
       | PInherited => TypeError   (* it has no [toUpperCase] method *)
       end.

Definition normalizeSymbol (input : jsstring) : completion :=
  if is_empty input then Return []
  else normalize_trimmed (toLowerCase (trim input)).

(** Feeding a completion to a further call: a throw propagates. *)
Definition and_then (c : completion) (f : jsstring -> completion) : completion :=
  match c with
  | Return s => f s
  | TypeError => TypeError
  end.

End Market.

Import Market.

(* ================================================================= *)
(** * Sorting as [Array.prototype.sort] does *)

(** [arr.sort(cmp)] is a stable sort; with a comparator that is a
    consistent order its result is the one stable insertion gives.  [le a b]
    stands for [cmp(a, b) <= 0]. *)

Module JsArray.

Section Sort.
Variable A : Type.
Variable le : A -> A -> bool.

Fixpoint insert (x : A) (l : list A) : list A :=
  match l with
  | [] => [x]
  | y :: l' => if le x y then x :: l else y :: insert x l'
  end.

Fixpoint sort (l : list A) : list A :=
  match l with
  | [] => []
  | x :: l' => insert x (sort l')
  end.
End Sort.

Arguments insert {A} le x l.
Arguments sort {A} le l.

(** The numeric comparator [(a, b) => a - b]. *)
Definition num_le (a b : Q) : bool := Qle_bool a b.

End JsArray.

(* ================================================================= *)
(** * lib/token/merge.ts *)

Module Merge.

Definition candle := OHLC Q.

(** [buckets]: a [Map] from timestamp to the candles seen with it; a
    [Map] iterates in the order its keys were first set. *)
Definition Buckets := list (Z * list candle).

Fixpoint has (b : Buckets) (ts : Z) : bool :=
  match b with
  | [] => false
  | (k, _) :: b' => (Z.eqb k ts || has b' ts)%bool
  end.

(** [buckets.get(ts)!.push(c)] *)
Fixpoint push_at (b : Buckets) (ts : Z) (c : candle) : Buckets :=
  match b with
  | [] => []
  | (k, arr) :: b' =>
      if Z.eqb k ts then (k, arr ++ [c]) :: b' else (k, arr) :: push_at b' ts c
  end.

(** One turn of the inner loop (lines 9-11). *)
Definition add_candle (b : Buckets) (c : candle) : Buckets :=
  let ts := time c in
  let b1 := if has b ts then b else b ++ [(ts, [])] in
  push_at b1 ts c.

Definition buckets (histories : list (list candle)) : Buckets :=
  fold_left (fun b h => fold_left add_candle h b) histories [].

(** [Math.max(...xs)] and [Math.min(...xs)]; [None] is the infinity the
    call returns on no argument. *)
Definition max2 (a b : Q) : Q := if Qle_bool a b then b else a.
Definition min2 (a b : Q) : Q := if Qle_bool b a then b else a.

Definition fold_opt (f : Q -> Q -> Q) (xs : list Q) : option Q :=
  fold_left (fun acc x => match acc with
                          | None => Some x
                          | Some a => Some (f a x)
                          end) xs None.

Definition Math_max (xs : list Q) : option Q := fold_opt max2 xs.
Definition Math_min (xs : list Q) : option Q := fold_opt min2 xs.

Definition by_time (a b : candle) : bool := Z.leb (time a) (time b).

(** The body of the second loop (lines 17-24).  [None] is the
    [TypeError] that reading [arr[0].open] raises on an empty bucket; on
    a bucket with a candle every lookup below succeeds. *)
Definition merge_bucket (ts : Z) (arr0 : list candle) : option candle :=
  let arr := JsArray.sort by_time arr0 in
  let closes := JsArray.sort JsArray.num_le (List.map close arr) in
  match nth_error arr 0, nth_error arr (List.length arr - 1),
        Math_max (List.map high arr), Math_min (List.map low arr),
        nth_error closes (Nat.div (List.length closes) 2) with
  | Some first, Some final, Some hi, Some lo, Some medianClose =>
      let open_ := open first in
      let close_ := close final in   (* computed, never emitted *)
      Some (mkOHLC ts open_ hi lo medianClose None)
  | _, _, _, _, _ => None
  end.

Fixpoint merge_all (b : Buckets) : option (list candle) :=
  match b with
  | [] => Some []
  | (ts, arr) :: b' =>
      match merge_bucket ts arr, merge_all b' with
      | Some c, Some rest => Some (c :: rest)
      | _, _ => None
      end
  end.

Definition mergeHistories (histories : list (list candle)) : option (list candle) :=
  match merge_all (buckets histories) with
  | Some merged => Some (JsArray.sort by_time merged)
  | None => None
  end.

End Merge.

(* ================================================================= *)
(** * lib/history.ts *)

Module HistoryFacade.

(** How a promise settles. *)
Inductive settled (A : Type) :=
| Fulfilled (a : A)
| Rejected.
Arguments Fulfilled {A}.
Arguments Rejected {A}.

Inductive adapter := Binance | CoinGecko.

(** The two adapters, [fetchCandlesBinance] and [fetchCandlesCoingecko],
    as the network makes them answer a call: an array of candles,
    [null] ([None]) or a rejection. *)
Definition upstream :=
  adapter -> jsstring -> jsstring -> Z -> settled (option (list (OHLC Q))).

(** An asynchronous computation: the adapters it called, in order, and
    how it settles. *)
Definition task (A : Type) : Type := list adapter * settled A.

Definition ret {A} (a : A) : task A := ([], Fulfilled a).

(** [await t] followed by [k]: a rejection of [t] ends the function. *)
Definition bind {A B} (t : task A) (k : A -> task B) : task B :=
  match snd t with
  | Fulfilled a => let r := k a in (fst t ++ fst r, snd r)
  | Rejected => (fst t, Rejected)
  end.

Notation "x <- t ;; k" := (bind t (fun x => k))
  (at level 61, t at next level, right associativity).

Definition call (net : upstream) (a : adapter) (symbol interval : jsstring)
  (days : Z) : task (option (list (OHLC Q))) :=
  ([a], net a symbol interval days).

(** [p.catch(() => null)] *)
Definition catch_null {A} (t : task (option A)) : task (option A) :=
  (fst t, match snd t with
          | Fulfilled v => Fulfilled v
          | Rejected => Fulfilled None
          end).

Definition getCandles (net : upstream) (symbol interval : jsstring) (days : Z)
  : task (list (OHLC Q)) :=
  bin <- catch_null (call net Binance symbol interval days) ;;
  match bin with
  | Some (c :: cs) => ret (c :: cs)            (* [bin && bin.length] *)
  | _ =>
      cg <- catch_null (call net CoinGecko symbol interval days) ;;
      ret (match cg with Some l => l | None => [] end)   (* [cg || []] *)
  end.

End HistoryFacade.

(* ================================================================= *)
(** * hooks/useUnifiedPrices.ts *)

Module UnifiedPrices.

Record TokenPrice := mkToken { symbol : jsstring; priceUSD : Q }.
Record PoolInfo := mkPool { pair : jsstring; tick : Z }.

Record Snapshot := mkSnapshot {
  tokens      : option (list TokenPrice);
  pools       : option (list PoolInfo);
  blockNumber : option Z;
  secondsAgo  : option Z;
  error       : option jsstring
}.

Inductive protocol := uni | sushi | quick | cake.

Record ByProtocol := mkBy {
  by_uni : option Q; by_sushi : option Q; by_quick : option Q; by_cake : option Q
}.

Definition set_protocol (b : ByProtocol) (p : protocol) (v : Q) : ByProtocol :=
  match p with
  | uni   => mkBy (Some v) (by_sushi b) (by_quick b) (by_cake b)
  | sushi => mkBy (by_uni b) (Some v) (by_quick b) (by_cake b)
  | quick => mkBy (by_uni b) (by_sushi b) (Some v) (by_cake b)
  | cake  => mkBy (by_uni b) (by_sushi b) (by_quick b) (Some v)
  end.

Definition get_protocol (b : ByProtocol) (p : protocol) : option Q :=
  match p with
  | uni => by_uni b | sushi => by_sushi b | quick => by_quick b | cake => by_cake b
  end.

Record Acc := mkAcc {
  acc_symbol : jsstring;
  vals       : list Q;
  byProtocol : ByProtocol
}.

Record MarketRow := mkRow {
  row_symbol     : jsstring;
  price          : option Q;
  row_byProtocol : ByProtocol
}.

(** [bySymbol]: the own properties of the object, in creation order.
    Its keys are upper-cased symbols, so a lookup never reaches
    [Object.prototype] (lemma [upper_key_not_inherited]). *)
Definition BySymbol := list (jsstring * Acc).

Fixpoint lookup (o : BySymbol) (k : jsstring) : option Acc :=
  match o with
  | [] => None
  | (k', a) :: o' => if JsString.eqb k k' then Some a else lookup o' k
  end.

Fixpoint update (o : BySymbol) (k : jsstring) (f : Acc -> Acc) : BySymbol :=
  match o with
  | [] => []
  | (k', a) :: o' =>
      if JsString.eqb k k' then (k', f a) :: o' else (k', a) :: update o' k f
  end.

(** [(t.symbol || '').toUpperCase().trim()] *)
Definition clean_symbol (t : TokenPrice) : jsstring :=
  trim (toUpperCase (symbol t)).

(** One turn of the loop of [add] (lines 83-87). *)
Definition add_token (proto : protocol) (o : BySymbol) (t : TokenPrice) : BySymbol :=
  let sym := clean_symbol t in
  if is_empty sym then o
  else
    let o1 := match lookup o sym with
              | Some _ => o
              | None => o ++ [(sym, mkAcc sym [] (mkBy None None None None))]
              end in
    update o1 sym (fun a =>
      mkAcc (acc_symbol a) (vals a ++ [priceUSD t])
            (set_protocol (byProtocol a) proto (priceUSD t))).

Definition add (proto : protocol) (snap : option Snapshot) (o : BySymbol) : BySymbol :=
  match snap with
  | Some sn =>
      match tokens sn with
      | Some ts => fold_left (add_token proto) ts o
      | None => o
      end
  | None => o
  end.

Definition allow_list : list jsstring :=
  List.map lit ["BTC"; "WBTC"; "TBTC"; "ETH"; "WETH"; "PAXG"; "RETH"; "STETH";
                "WSTETH"]%string.

Definition tooLarge (sym : jsstring) (px : Q) : bool :=
  (negb (Qle_bool px 1000000) && negb (includes allow_list sym))%bool.

(** [Object.values] lists the values of array-index keys first, by
    ascending index, then those of the other keys in creation order.  An
    array index is the canonical decimal form of an integer below
    2^32 - 1. *)
Definition is_digit (c : code_unit) : bool := between 48 57 c.

Definition decimal (s : jsstring) : N :=
  fold_left (fun n c => (10 * n + (c - 48))%N) s 0%N.

Definition array_index (k : jsstring) : option N :=
  match k with
  | [] => None
  | c :: rest =>
      if (forallb is_digit k && (negb (N.eqb c 48) || is_empty rest)
          && N.ltb (decimal k) 4294967295)%bool
      then Some (decimal k) else None
  end.

Definition index_le (a b : N * Acc) : bool := N.leb (fst a) (fst b).

Fixpoint index_entries (o : BySymbol) : list (N * Acc) :=
  match o with
  | [] => []
  | (k, a) :: o' =>
      match array_index k with
      | Some i => (i, a) :: index_entries o'
      | None => index_entries o'
      end
  end.

Fixpoint string_entries (o : BySymbol) : list Acc :=
  match o with
  | [] => []
  | (k, a) :: o' =>
      match array_index k with
      | Some _ => string_entries o'
      | None => a :: string_entries o'
      end
  end.

Definition Object_values (o : BySymbol) : list Acc :=
  List.map snd (JsArray.sort index_le (index_entries o)) ++ string_entries o.

(** The median the rows take: the element at index [floor(length / 2)]
    of the sorted values, [null] on no value. *)
Definition median (vs : list Q) : option Q :=
  let sorted := JsArray.sort JsArray.num_le vs in
  nth_error sorted (Nat.div (List.length sorted) 2).

Definition row_of (v : Acc) : MarketRow :=
  let finalPrice :=
    match median (vals v) with
    | Some m => if tooLarge (acc_symbol v) m then None else Some m
    | None => None
    end in
  mkRow (acc_symbol v) finalPrice (byProtocol v).

Definition or_empty {A} (l : option (list A)) : list A :=
  match l with Some x => x | None => [] end.

Definition pools_of (snap : option Snapshot) : list PoolInfo :=
  match snap with Some sn => or_empty (pools sn) | None => [] end.

Definition tokens_of (snap : option Snapshot) : list TokenPrice :=
  match snap with Some sn => or_empty (tokens sn) | None => [] end.

(** The four snapshots the hook holds; [None] is [undefined]: the
    protocol is disabled, still loading, or its fetch failed. *)
Record Snapshots := mkSnaps {
  s_uni : option Snapshot; s_sushi : option Snapshot;
  s_quick : option Snapshot; s_cake : option Snapshot
}.

Definition snapshot_of (s : Snapshots) (p : protocol) : option Snapshot :=
  match p with
  | uni => s_uni s | sushi => s_sushi s | quick => s_quick s | cake => s_cake s
  end.

Definition bySymbol (s : Snapshots) : BySymbol :=
  add cake (s_cake s) (add quick (s_quick s) (add sushi (s_sushi s)
    (add uni (s_uni s) []))).

Definition rows (s : Snapshots) : list MarketRow :=
  List.map row_of (Object_values (bySymbol s)).

Definition pairs (s : Snapshots) : list PoolInfo :=
  pools_of (s_uni s) ++ pools_of (s_sushi s) ++ pools_of (s_quick s)
  ++ pools_of (s_cake s).

(** The [rows] and [pairs] of the data [useUnifiedPrices] returns. *)
Definition aggregate (s : Snapshots) : list MarketRow * list PoolInfo :=
  (rows s, pairs s).

End UnifiedPrices.

(* ================================================================= *)
(** * lib/token/mock.ts *)

Module Mock.

Local Open Scope float_scope.

(** Integers as doubles, and back.  [of_Z] is exact below 2^53;
    [to_Z] is exact on every double that holds an integer. *)
Definition of_Z (z : Z) : float := PrimFloat.of_uint63 (Uint63.of_Z z).

Definition to_Z (x : float) : Z :=
  match Prim2SF x with
  | S754_finite s m e =>
      let a := match e with
               | Zneg p => Z.div (Zpos m) (Z.pow 2 (Zpos p))
               | _ => (Zpos m * Z.pow 2 e)%Z
               end in
      if s then Z.opp a else a
  | _ => 0%Z
  end.

(** [+x.toFixed(4)]: the integer [n] for which [n / 10^4] is nearest to
    the exact value of [x] (the larger one on a tie), read back as the
    double nearest to that decimal.  Exact for [|x| < 2^53 / 10^4], a
    range the walk of [genMock] stays well inside. *)
Definition toFixed4 (x : float) : float :=
  match Prim2SF x with
  | S754_finite s m e =>
      let n := match e with
               | Zneg p =>
                   let den := Z.pow 2 (Zpos p) in
                   Z.div (2 * (Zpos m * 10000) + den) (2 * den)
               | _ => (Zpos m * Z.pow 2 e * 10000)%Z
               end in
      let r := of_Z n / 10000 in
      if s then - r else r
  | S754_zero _ => 0
  | _ => x
  end.

Definition candle := OHLC float.

Definition step_of (interval : jsstring) : Z :=
  if JsString.eqb interval (lit "1m") then 60
  else if JsString.eqb interval (lit "5m") then 300
  else if JsString.eqb interval (lit "15m") then 900
  else if JsString.eqb interval (lit "4h") then 14400
  else if JsString.eqb interval (lit "1d") then 86400
  else 3600.

(** [Array.from(symbol)] iterates code points; [c.charCodeAt(0)] is the
    first code unit of each: a low surrogate that follows a high one is
    skipped. *)
Definition is_high_surrogate (c : code_unit) : bool := between 55296 56319 c.
Definition is_low_surrogate (c : code_unit) : bool := between 56320 57343 c.

Fixpoint char_codes (s : jsstring) : list Z :=
  match s with
  | [] => []
  | c :: s' =>
      Z.of_N c ::
      match s' with
      | d :: s'' =>
          if (is_high_surrogate c && is_low_surrogate d)%bool
          then char_codes s'' else char_codes s'
      | [] => []
      end
  end.

Definition initial_seed (symbol : jsstring) : Z :=
  fold_left Z.add (char_codes symbol) 100%Z.

(** [rand]: the new seed and the number returned.  The product and the
    sum are those of doubles; from the second call on the seed is below
    2^32 and they are exact. *)
Definition next_seed (seed : Z) : Z :=
  Z.modulo (to_Z (of_Z seed * 1664525 + 1013904223)) (Z.pow 2 32).

Definition rand (seed : Z) : Z * float :=
  let seed' := next_seed seed in
  (seed', of_Z seed' / 4294967296).

(** [Math.max(0.0001, c)]: NaN when [c] is NaN, the one double that is
    not equal to itself. *)
Definition floor_price (c : float) : float :=
  if PrimFloat.ltb 0.0001 c then c
  else if PrimFloat.eqb c c then 0.0001 else c.

(** The loop of lines 19-37, with [k] turns left: [i] is [k]. *)
Fixpoint walk (now step : Z) (k : nat) (seed : Z) (price : float) : list candle :=
  match k with
  | O => []
  | S k' =>
      let i := Z.of_nat k in
      let t := (now - i * step)%Z in
      let (seed1, r1) := rand seed in
      let drift := (r1 - 0.5) * 0.6 in
      let (seed2, r2) := rand seed1 in
      let vol := 0.8 + r2 * 0.6 in
      let o := price in
      let h := o + abs drift * vol in
      let l := o - abs drift * vol in
      let c := o + drift in
      mkOHLC t (toFixed4 o) (toFixed4 h) (toFixed4 l) (toFixed4 c) None
      :: walk now step k' seed2 (floor_price c)
  end.

(** A number that is an integer, an infinity or NaN: what [Math.floor]
    returns. *)
Inductive integral :=
| Int (z : Z)
| PosInfinity
| NegInfinity
| NaN.

(** [Math.floor(x)]: for a double [(-1)^s * m * 2^e], the mantissa
    shifted by the exponent, rounded down. *)
Definition Math_floor (x : float) : integral :=
  match Prim2SF x with
  | S754_zero _ => Int 0
  | S754_finite s m e =>
      let a := if s then Zneg m else Zpos m in
      Int (match e with
           | Zneg p => Z.div a (Z.pow 2 (Zpos p))
           | _ => (a * Z.pow 2 e)%Z
           end)
  | S754_infinity s => if s then NegInfinity else PosInfinity
  | S754_nan => NaN
  end.

(** [Math.min(1000, n)] *)
Definition Math_min_1000 (n : integral) : integral :=
  match n with
  | Int z => Int (Z.min 1000 z)
  | PosInfinity => Int 1000
  | NegInfinity => NegInfinity
  | NaN => NaN
  end.

(** The turns of [for (let i = n; i >= 1; i--)]: [n] of them when [n] is
    at least 1, none otherwise ([NaN >= 1] is false). *)
Definition turns (n : integral) : nat :=
  match n with
  | Int z => Z.to_nat z
  | _ => O
  end.

(** [genMock], given what [Math.floor(Date.now() / 1000)] reads.
    [days] is a double, and so are the product and the quotient of
    line 13. *)
Definition genMock (now : Z) (symbol : jsstring) (days : float)
  (interval : jsstring) : list candle :=
  let step := step_of interval in
  let n := Math_min_1000 (Math_floor (days * 86400 / of_Z step)) in
  let (seed, r) := rand (initial_seed symbol) in
  let price := 100 + (r - 0.5) * 5 in
  walk now step (turns n) seed price.

End Mock.

(* ================================================================= *)
(** * hooks/useCoinHistory.ts: the fetcher of [useCoinHistory] *)

Module CoinHistory.

Import HistoryFacade.

(** What the fetcher resolves to: the mock series, or the merge of the
    two live sources ([None] being the [TypeError] of [mergeHistories]). *)
Inductive fetched :=
| MockSeries (h : list Mock.candle)
| LiveSeries (h : option (list Merge.candle)).

(** [take]: the value of a settled promise, the empty history for a
    rejected one. *)
Definition take (r : settled (list Merge.candle)) : list Merge.candle :=
  match r with
  | Fulfilled v => v
  | Rejected => []
  end.

(** The fetcher, given the clock and how [fromCoinGecko] and [fromBinance]
    settle under [Promise.allSettled]. *)
Definition fetcher (now : Z) (symbol : jsstring) (days : float) (interval : jsstring)
  (useMock : bool) (cg bin : settled (list Merge.candle)) : fetched :=
  if useMock then MockSeries (Mock.genMock now symbol days interval)
  else LiveSeries (Merge.mergeHistories [take cg; take bin]).

End CoinHistory.

(* ================================================================= *)
(** * lib/history.ts: the adapters behind [getCandles] *)

Module HistoryAdapters.

Import HistoryFacade.

(** The own properties of [BINANCE_INTERVAL_MAP]. *)
Definition BINANCE_INTERVAL_MAP : list (jsstring * jsstring) :=
  List.map (fun kv => (lit (fst kv), lit (snd kv)))
    [("1m", "1m"); ("5m", "5m"); ("30m", "30m"); ("1h", "1h"); ("1d", "1d")]%string.

(** [BINANCE_INTERVAL_MAP[interval] ?? '1h']: an inherited property is
    neither [null] nor [undefined] and is kept. *)
Definition binanceInterval (interval : jsstring) : property :=
  match own_property BINANCE_INTERVAL_MAP interval with
  | Some v => PString v
  | None =>
      if includes Object_prototype_keys interval then PInherited
      else PString (lit "1h")
  end.

(** The class [[A-Z0-9]] of [guessBinanceSymbol]; its pattern has no
    [i] flag. *)
Definition is_upper_alnum (c : code_unit) : bool :=
  (between 65 90 c || between 48 57 c)%bool.

(** [`${sym}`.toUpperCase().replace(/[^A-Z0-9]/g, '') + 'USDT'];
    exact on ASCII symbols, as the case mappings of [JsString] are. *)
Definition guessBinanceSymbol (sym : jsstring) : jsstring :=
  filter is_upper_alnum (toUpperCase sym) ++ lit "USDT".

(** An entry of the [coins] of CoinGecko's search; either field may be
    missing. *)
Record coin := mkCoin { coin_id : option jsstring; coin_symbol : option jsstring }.

(** What a [fetch] gives once its body is read: [r.ok] and the part of
    the body the caller looks at ([None]: the key is missing). *)
Record response (A : Type) := mkResponse { ok : bool; payload : option A }.
Arguments mkResponse {A}.
Arguments ok {A}.
Arguments payload {A}.

(** [c?.symbol?.toLowerCase() === q] *)
Definition symbol_matches (q : jsstring) (c : coin) : bool :=
  match coin_symbol c with
  | Some s => JsString.eqb (toLowerCase s) q
  | None => false
  end.

(** [x || null] on an id: the empty string is falsy. *)
Definition id_or_null (id : option jsstring) : option jsstring :=
  match id with
  | Some (c :: s) => Some (c :: s)
  | _ => None
  end.

(** [resolveCoingeckoId], given how the search request settles. *)
Definition resolveCoingeckoId (symbol : jsstring)
  (search : settled (response (list coin))) : settled (option jsstring) :=
  let q := toLowerCase symbol in
  match search with
  | Rejected => Rejected
  | Fulfilled r =>
      if negb (ok r) then Fulfilled None
      else
        let coins := payload r in
        let found := match coins with
                     | Some l => find (symbol_matches q) l
                     | None => None
                     end in
        let chosen := match found with
                      | Some c => Some c
                      | None => match coins with
                                | Some l => nth_error l 0
                                | None => None
                                end
                      end in
        Fulfilled (match chosen with
                   | Some c => id_or_null (coin_id c)
                   | None => None
                   end)
  end.

(** The candle [fetchCandlesCoingecko] makes of a price point
    [[ms, p]]. *)
Definition area_candle (point : Z * Q) : OHLC Q :=
  let v := snd point in
  mkOHLC (Z.div (fst point) 1000) v v v v (Some 0%Q).

(** [fetchCandlesCoingecko], given how its two requests settle (the
    second is only made once an id is found). *)
Definition fetchCandlesCoingecko (symbol : jsstring)
  (search : settled (response (list coin)))
  (chart : settled (response (list (Z * Q))))
  : settled (option (list (OHLC Q))) :=
  match resolveCoingeckoId symbol search with
  | Rejected => Rejected
  | Fulfilled None => Fulfilled None
  | Fulfilled (Some id) =>
      match chart with
      | Rejected => Rejected
      | Fulfilled r =>
          if negb (ok r) then Fulfilled None
          else
            let prices := match payload r with Some l => l | None => [] end in
            match prices with
            | [] => Fulfilled None
            | _ => Fulfilled (Some (List.map area_candle prices))
            end
      end
  end.

End HistoryAdapters.

(* ================================================================= *)
(** * components/markets: what the dashboard does with the rows *)

Module Markets.

Import UnifiedPrices.

(** [UnifiedData], as far as the components read it. *)
Definition UnifiedData : Type := (list MarketRow * list PoolInfo)%type.

(** ** StatCards.tsx *)

(** The four numbers of the cards; [None] is the [undefined] an array
    read out of range gives. *)
Record Stats := mkStats {
  count      : nat;
  median_of  : option Q;
  max_of     : option Q;
  min_of     : option Q
}.

Definition no_stats : Stats := mkStats 0 (Some 0%Q) (Some 0%Q) (Some 0%Q).

(** [rows.map(r => r.price).filter(x => typeof x === "number")] *)
Fixpoint numbers (l : list (option Q)) : list Q :=
  match l with
  | [] => []
  | Some x :: l' => x :: numbers l'
  | None :: l' => numbers l'
  end.

Definition stats (data : option UnifiedData) : Stats :=
  match data with
  | None => no_stats
  | Some d =>
      let prices := numbers (List.map price (fst d)) in
      let count := List.length prices in
      if Nat.eqb count 0 then no_stats
      else
        let sorted := JsArray.sort JsArray.num_le prices in
        mkStats count
                (nth_error sorted (Nat.div (List.length sorted) 2))
                (nth_error sorted (List.length sorted - 1))
                (nth_error sorted 0)
  end.

(** ** MarketDashboard.tsx *)

Fixpoint starts_with (s prefix : jsstring) : bool :=
  match prefix, s with
  | [], _ => true
  | p :: prefix', c :: s' => (N.eqb c p && starts_with s' prefix')%bool
  | _ :: _, [] => false
  end.

(** [s.includes(q)]: [q] occurs in [s]. *)
Fixpoint str_includes (s q : jsstring) : bool :=
  (starts_with s q
   || match s with
      | [] => false
      | _ :: s' => str_includes s' q
      end)%bool.

(** [filtered]: the rows the table is given for the search box's
    [query]; exact on ASCII queries, as the case mappings are. *)
Definition filtered (data : option UnifiedData) (query : jsstring)
  : list MarketRow :=
  match data with
  | None => []
  | Some d =>
      let q := toUpperCase (trim query) in
      if is_empty q then fst d
      else filter (fun r => str_includes (row_symbol r) q) (fst d)
  end.

(** ** MarketTable.tsx *)

Inductive sort_key := BySymbolKey | ByPriceKey.

(** [dir]: 1 or -1. *)
Inductive direction := Ascending | Descending.

Section Sorted.

(** [a.localeCompare(b)], which depends on the locale of the browser. *)
Variable localeCompare : jsstring -> jsstring -> Z.

Definition dir_value (dir : direction) : Z :=
  match dir with Ascending => 1 | Descending => -1 end.

(** Whether the comparator of [copy.sort] returns a number that is at
    most 0, or NaN, which [sort] takes for 0: [a] may stay before [b].
    A missing price counts as [-Infinity], and the difference of two of
    them is NaN. *)
Definition stays_before (sortKey : sort_key) (dir : direction)
  (a b : MarketRow) : bool :=
  match sortKey with
  | BySymbolKey =>
      Z.leb (localeCompare (row_symbol a) (row_symbol b) * dir_value dir) 0
  | ByPriceKey =>
      match price a, price b, dir with
      | None, None, _ => true
      | None, Some _, Ascending => true
      | None, Some _, Descending => false
      | Some _, None, Ascending => false
      | Some _, None, Descending => true
      | Some x, Some y, Ascending => Qle_bool x y
      | Some x, Some y, Descending => Qle_bool y x
      end
  end.

Definition sorted (rows : list MarketRow) (sortKey : sort_key)
  (dir : direction) : list MarketRow :=
  JsArray.sort (stays_before sortKey dir) rows.

End Sorted.

End Markets.

(* ================================================================= *)
(** * app/api/graph/<protocol>/route.ts: the cached snapshot routes *)

Module GraphRoute.

Local Open Scope Z_scope.

(** How the snapshot adapter of the route ends: with its data, or with
    an error whose message the handler reports. *)
Inductive outcome (D : Type) :=
| Ok (data : D)
| Failed (message : jsstring).
Arguments Ok {D}.
Arguments Failed {D}.

(** The module-level [cache]: one slot. *)
Record entry (D : Type) := mkEntry {
  key  : jsstring;
  at_  : Z;
  data : D
}.
Arguments mkEntry {D}.
Arguments key {D}.
Arguments at_ {D}.
Arguments data {D}.

(** The body of a JSON response. *)
Inductive body (D : Type) :=
| Data (d : D)
| Error (message : jsstring).
Arguments Data {D}.
Arguments Error {D}.

(** [String(n)] on an integer (below 10^21 in size). *)
Definition number_to_string (n : Z) : jsstring :=
  lit (DecimalString.NilZero.string_of_int (Z.to_int n)).

(** [`uni:${secondsAgo}:${first}`], with the prefix of the route. *)
Definition route_key (prefix : jsstring) (secondsAgo first : Z) : jsstring :=
  prefix ++ lit ":" ++ number_to_string secondsAgo ++ lit ":"
  ++ number_to_string first.

(** [GET], for integer query parameters: given the cache, what
    [Date.now()] reads at the test of line 14 and at the store of line
    18, and how the adapter would answer, the response (status and
    body), the cache afterwards, and whether the adapter was called. *)
Definition GET {D} (prefix : jsstring) (cache : option (entry D))
  (secondsAgo first : Z) (now_test now_store : Z) (adapter : outcome D)
  : (Z * body D) * option (entry D) * bool :=
  let k := route_key prefix secondsAgo first in
  let hit := match cache with
             | Some e =>
                 if (JsString.eqb (key e) k
                     && Z.ltb (now_test - at_ e) 60000)%bool
                 then Some e else None
             | None => None
             end in
  match hit with
  | Some e => ((200, Data (data e)), cache, false)
  | None =>
      match adapter with
      | Ok d => ((200, Data d), Some (mkEntry k now_store d), true)
      | Failed m => ((500, Error m), cache, true)
      end
  end.

End GraphRoute.

(* ================================================================= *)
(** * lib/markets: the snapshot adapters *)

Module SnapshotAdapters.

Import HistoryFacade.

Section Adapters.

(** The numbers of the adapters are doubles read off decimal strings;
    the reading, the product and the test [x > 0] are taken as given. *)
Variable num : Type.
Variable Number : jsstring -> num.
Variable times : num -> num -> num.
Variable positive : num -> bool.
Variable zero : num.

(** A token as the subgraph lists it; [derived] is [derivedETH],
    [derivedMatic] or [derivedUSD], which may be [null]. *)
Record token := mkRawToken { token_symbol : jsstring; derived : option jsstring }.
Record pool := mkRawPool { token0 : jsstring; token1 : jsstring; tick_ : jsstring }.

Record snapshot := mkSnap {
  blockNumber_ : Z;
  secondsAgo_  : Z;
  tokens_      : list (jsstring * num);
  pools_       : list (jsstring * num)
}.

Definition AVG_BLOCK_TIME : Z := 12.

(** [secondsAgo === 0 ? current : current - Math.floor(secondsAgo /
    AVG_BLOCK_TIME)] *)
Definition anchor (current secondsAgo : Z) : Z :=
  if Z.eqb secondsAgo 0 then current
  else current - Z.div secondsAgo AVG_BLOCK_TIME.

(** [.filter(t => t.symbol && t.priceUSD > 0)] *)
Definition keep (t : jsstring * num) : bool :=
  (negb (is_empty (fst t)) && positive (snd t))%bool.

(** [derived ? Number(derived) : 0]: [null] and the empty string count
    as 0. *)
Definition number_or_zero (d : option jsstring) : num :=
  match d with
  | Some (c :: s) => Number (c :: s)
  | _ => zero
  end.

(** [Number(t.derivedETH)]; a missing value reads as [Number(null)]
    does. *)
Definition number_of (d : option jsstring) : num :=
  match d with
  | Some s => Number s
  | None => zero
  end.

Definition poolsData (ps : list pool) : list (jsstring * num) :=
  List.map (fun p => (token0 p ++ lit "/" ++ token1 p, Number (tick_ p))) ps.

(** [Promise.all] of two and of three requests. *)
Definition all2 {A B} (a : settled A) (b : settled B) : settled (A * B) :=
  match a, b with
  | Fulfilled x, Fulfilled y => Fulfilled (x, y)
  | _, _ => Rejected
  end.

Definition all3 {A B C} (a : settled A) (b : settled B) (c : settled C)
  : settled (A * B * C) :=
  match a, b, c with
  | Fulfilled x, Fulfilled y, Fulfilled z => Fulfilled (x, y, z)
  | _, _, _ => Rejected
  end.

(** [fetchUniswapV3Snapshot], and likewise [fetchPancakeV3Snapshot],
    which differs in the subgraph and the queries only: given how
    [getCurrentBlock] settles and how [basePrice], [topTokens] and
    [topPools] settle at a block.  [secondsAgo] is an integer. *)
Definition fetchUniswapV3Snapshot (secondsAgo first : Z)
  (getCurrentBlock : settled Z)
  (basePrice : Z -> settled num)
  (topTokens : Z -> Z -> settled (list token))
  (topPools : Z -> Z -> settled (list pool)) : settled snapshot :=
  match getCurrentBlock with
  | Rejected => Rejected
  | Fulfilled current =>
      let bn := anchor current secondsAgo in
      match all3 (basePrice bn) (topTokens bn first) (topPools bn first) with
      | Rejected => Rejected
      | Fulfilled (ethUSD, tokens, pools) =>
          let tokenPrices :=
            filter keep
              (List.map (fun t => (token_symbol t,
                                   times (number_of (derived t)) ethUSD))
                        tokens) in
          Fulfilled (mkSnap bn secondsAgo tokenPrices (poolsData pools))
      end
  end.

(** [fetchQuickSwapV3Snapshot]: the tokens are asked with
    [derivedMatic] first and, when that request fails, with
    [derivedUSD]. *)
Definition fetchQuickSwapV3Snapshot (secondsAgo first : Z)
  (getCurrentBlock : settled Z)
  (basePriceUSD : Z -> settled num)
  (topPools : Z -> Z -> settled (list pool))
  (topTokensDerivedMatic topTokensDerivedUSD : Z -> Z -> settled (list token))
  : settled snapshot :=
  match getCurrentBlock with
  | Rejected => Rejected
  | Fulfilled current =>
      let bn := anchor current secondsAgo in
      match all2 (basePriceUSD bn) (topPools bn first) with
      | Rejected => Rejected
      | Fulfilled (maticUSD, pools) =>
          let tokensUSD :=
            match topTokensDerivedMatic bn first with
            | Fulfilled tokens =>
                Fulfilled
                  (filter keep
                     (List.map (fun t =>
                        (token_symbol t,
                         times (number_or_zero (derived t)) maticUSD)) tokens))
            | Rejected =>
                match topTokensDerivedUSD bn first with
                | Fulfilled tokens =>
                    Fulfilled
                      (filter keep
                         (List.map (fun t =>
                            (token_symbol t, number_or_zero (derived t)))
                            tokens))
                | Rejected => Rejected
                end
            end in
          match tokensUSD with
          | Fulfilled ts =>
              Fulfilled (mkSnap bn secondsAgo ts (poolsData pools))
          | Rejected => Rejected
          end
      end
  end.

End Adapters.

Arguments mkSnap {num}.
Arguments blockNumber_ {num}.
Arguments secondsAgo_ {num}.
Arguments tokens_ {num}.
Arguments pools_ {num}.
Arguments keep {num}.
Arguments number_or_zero {num}.
Arguments number_of {num}.
Arguments poolsData {num}.
Arguments fetchUniswapV3Snapshot {num}.
Arguments fetchQuickSwapV3Snapshot {num}.

End SnapshotAdapters.

(* ================================================================= *)
(** * Notions the statements use *)

Module Notions.

Import Merge UnifiedPrices.

Definition completion_eqb (a b : completion) : bool :=
  match a, b with
  | Return x, Return y => JsString.eqb x y
  | TypeError, TypeError => true
  | _, _ => false
  end.

(** What the specification calls a median of [xs], made precise as the
    code takes it: the element at index [floor(length / 2)] of the
    ascending arrangement of [xs]; on an even length that is the upper
    one of the two middle elements. *)
Definition ascending (l : list Q) : Prop := StronglySorted Qle l.

Definition upper_median (m : Q) (xs : list Q) : Prop :=
  exists sorted,
    Permutation sorted xs /\ ascending sorted /\
    nth_error sorted (Nat.div (List.length xs) 2) = Some m.

Definition lower_median (m : Q) (xs : list Q) : Prop :=
  exists sorted,
    Permutation sorted xs /\ ascending sorted /\
    nth_error sorted (Nat.div (List.length xs - 1) 2) = Some m.

(** [m] is the greatest (the least) of [xs]. *)
Definition greatest (m : Q) (xs : list Q) : Prop :=
  In m xs /\ forall x, In x xs -> Qle x m.

Definition least (m : Q) (xs : list Q) : Prop :=
  In m xs /\ forall x, In x xs -> Qle m x.

(** The bucket of a timestamp: the candles of the input that carry it,
    in the order of the input. *)
Definition bucket_of (cs : list Merge.candle) (ts : Z) : list Merge.candle :=
  filter (fun c => Z.eqb (time c) ts) cs.

(** A candle with its [volume] left out. *)
Definition ohlc_only (c : Merge.candle) : Merge.candle :=
  mkOHLC (time c) (open c) (high c) (low c) (close c) None.

Definition times (cs : list Merge.candle) : list Z := List.map time cs.

(** Strictly ascending timestamps. *)
Definition strictly_ascending (ts : list Z) : Prop := StronglySorted Z.lt ts.

(** The tokens of the snapshots that are present, in the order [add]
    meets them, each with its protocol. *)
Definition tagged (s : Snapshots)
  : list (protocol * TokenPrice) :=
  List.flat_map
    (fun p => List.map (Datatypes.pair p)
                (tokens_of (snapshot_of s p)))
    [uni; sushi; quick;
     cake].

(** The prices quoted for a symbol, over all present snapshots. *)
Definition observed (sym : jsstring) (ts : list TokenPrice)
  : list Q :=
  List.map priceUSD
    (filter (fun t => JsString.eqb (clean_symbol t) sym) ts).

Definition quotes (s : Snapshots) (sym : jsstring) : list Q :=
  observed sym (List.map snd (tagged s)).

(** A snapshot that came back with no token and no pool. *)
Definition empty_snapshot : Snapshot :=
  mkSnapshot (Some []) (Some []) None None None.

Definition set_snapshot (s : Snapshots)
  (p : protocol) (v : option Snapshot)
  : Snapshots :=
  match p with
  | uni =>
      mkSnaps v (s_sushi s)
        (s_quick s) (s_cake s)
  | sushi =>
      mkSnaps (s_uni s) v
        (s_quick s) (s_cake s)
  | quick =>
      mkSnaps (s_uni s) (s_sushi s)
        v (s_cake s)
  | cake =>
      mkSnaps (s_uni s) (s_sushi s)
        (s_quick s) v
  end.

(** A candle of the generator with its timestamp moved by [d]. *)
Definition shift (d : Z) (c : Mock.candle) : Mock.candle :=
  mkOHLC (time c + d)%Z (open c) (high c) (low c) (close c) (volume c).

Definition keys (b : Buckets) : list Z := List.map fst b.

(** What [buckets] holds once the candles [cs] went through the first
    loop. *)
Definition holds (b : Buckets) (cs : list Merge.candle) : Prop :=
  NoDup (keys b)
  /\ (forall ts, In ts (keys b) <-> In ts (times cs))
  /\ (forall ts arr, In (ts, arr) b -> arr = bucket_of cs ts).

Definition okeys (o : BySymbol) : list jsstring := List.map fst o.

Definition step (o : BySymbol) (pt : protocol * TokenPrice) : BySymbol :=
  add_token (fst pt) o (snd pt).

(** What [bySymbol] holds once the tokens [pts] went through [add]. *)
Definition sound (o : BySymbol) (pts : list (protocol * TokenPrice)) : Prop :=
  NoDup (okeys o)
  /\ (forall k a, In (k, a) o ->
        k <> [] /\ acc_symbol a = k
        /\ vals a = observed k (List.map snd pts) /\ vals a <> []
        /\ forall p v, get_protocol (byProtocol a) p = Some v ->
             exists t, In (p, t) pts /\ clean_symbol t = k /\ priceUSD t = v)
  /\ (forall t, In t (List.map snd pts) -> clean_symbol t <> [] ->
        In (clean_symbol t) (okeys o)).

(** The two candles of the specification's example, at one timestamp. *)
Definition example_first : Merge.candle :=
  mkOHLC 1700000000 10%Q 12%Q 9%Q 11%Q None.
Definition example_second : Merge.candle :=
  mkOHLC 1700000000 (21 # 2)%Q (23 # 2)%Q (19 # 2)%Q (21 # 2)%Q None.

Definition with_volume : Merge.candle :=
  mkOHLC 1700000000 10%Q 12%Q 9%Q 11%Q (Some 250%Q).
Definition later_candle : Merge.candle :=
  mkOHLC 1700003600 11%Q 13%Q 10%Q 12%Q None.


(** Snapshots of the examples of the specification. *)
Definition tokens_only (ts : list TokenPrice) : Snapshot :=
  mkSnapshot (Some ts) (Some []) None None None.

(** The exact value of a double: a rational, an infinity or NaN. *)
Inductive extended :=
| Finite (v : Q)
| PlusInfinity
| MinusInfinity
| NotANumber.

Definition exact (x : float) : extended :=
  match Prim2SF x with
  | S754_zero _ => Finite 0%Q
  | S754_finite s m e =>
      Finite ((if s then - inject_Z (Zpos m) else inject_Z (Zpos m))
              * Qpower 2 e)%Q
  | S754_infinity s => if s then MinusInfinity else PlusInfinity
  | S754_nan => NotANumber
  end.

(** [n] is [min(1000, floor(x))], or 0 when that is below 1 or is no
    number: the floor is the integer with [n <= x < n + 1]. *)
Definition length_rule (x : extended) (n : Z) : Prop :=
  match x with
  | Finite v =>
      ((v < 1)%Q -> n = 0%Z)
      /\ ((1 <= v)%Q -> (v < 1000)%Q ->
          (inject_Z n <= v)%Q /\ (v < inject_Z n + 1)%Q)
      /\ ((1000 <= v)%Q -> n = 1000%Z)
  | PlusInfinity => n = 1000%Z
  | MinusInfinity | NotANumber => n = 0%Z
  end.

(** Whole numbers of days from [lo] up, [count] of them. *)
Fixpoint whole_days (lo : Z) (count : nat) : list Z :=
  match count with
  | O => []
  | S k => lo :: whole_days (lo + 1) k
  end.

Definition btc_snapshots : Snapshots :=
  mkSnaps (Some (tokens_only [mkToken (lit "BTC") 2000000%Q]))
          (Some (tokens_only [mkToken (lit "BTC") 2100000%Q]))
          None None.

Definition xyz_snapshots : Snapshots :=
  mkSnaps (Some (tokens_only [mkToken (lit "XYZ") 2000000%Q]))
          None
          (Some (tokens_only [mkToken (lit "XYZ") 2000000%Q]))
          (Some (tokens_only [mkToken (lit "XYZ") 2000000%Q])).

Definition two_quotes : Snapshots :=
  mkSnaps (Some (tokens_only [mkToken (lit "UNI") 5%Q]))
          (Some (tokens_only [mkToken (lit "UNI") 7%Q]))
          None None.

End Notions.

Import Notions.

(* ================================================================= *)
(** * Further notions *)

Module Notions2.

Import Merge UnifiedPrices.

(** The candle invariant: the body lies within the wicks. *)
Definition well_formed (c : Merge.candle) : Prop :=
  Qle (low c) (open c) /\ Qle (open c) (high c)
  /\ Qle (low c) (close c) /\ Qle (close c) (high c).

(** Two merged candles that agree on everything but [open], numbers
    being compared by value. *)
Definition same_range (c d : Merge.candle) : Prop :=
  time c = time d /\ Qeq (high c) (high d) /\ Qeq (low c) (low d)
  /\ Qeq (close c) (close d).

(** The five intervals [BINANCE_INTERVAL_MAP] knows. *)
Definition binance_intervals : list jsstring :=
  List.map lit ["1m"; "5m"; "30m"; "1h"; "1d"]%string.

(** A candle whose four prices coincide, with no volume traded. *)
Definition flat (c : OHLC Q) : Prop :=
  open c = close c /\ high c = close c /\ low c = close c
  /\ volume c = Some 0%Q.

(** The network as [getCandles] sees it when the CoinGecko adapter is
    [fetchCandlesCoingecko] run on the given answers. *)
Definition network (bin : HistoryFacade.settled (option (list (OHLC Q))))
  (search : HistoryFacade.settled (HistoryAdapters.response (list HistoryAdapters.coin)))
  (chart : HistoryFacade.settled (HistoryAdapters.response (list (Z * Q))))
  : HistoryFacade.upstream :=
  fun a symbol _ _ =>
    match a with
    | HistoryFacade.Binance => bin
    | HistoryFacade.CoinGecko =>
        HistoryAdapters.fetchCandlesCoingecko symbol search chart
    end.

(** A list without its repetitions, each element where it first
    occurs. *)
Definition first_seen (l : list jsstring) : list jsstring :=
  rev (nodup (list_eq_dec N.eq_dec) (rev l)).

(** The cleaned symbols of the tokens of the present snapshots, empty
    ones left out, in the order [add] meets them. *)
Definition symbols (s : Snapshots) : list jsstring :=
  filter (fun k => negb (is_empty k))
         (List.map (fun pt => clean_symbol (snd pt)) (tagged s)).

Definition is_index (k : jsstring) : bool :=
  match array_index k with Some _ => true | None => false end.

(** The last element of a list, if any. *)
Definition last_of (l : list Q) : option Q :=
  nth_error l (List.length l - 1).

(** Prices that agree as numbers, or are both absent. *)
Definition same_price (a b : option Q) : Prop :=
  match a, b with
  | Some x, Some y => Qeq x y
  | None, None => True
  | _, _ => False
  end.

Definition protocol_eqb (p q : protocol) : bool :=
  match p, q with
  | uni, uni | sushi, sushi | quick, quick | cake, cake => true
  | _, _ => false
  end.

(** What [bySymbol] holds of the columns once the tokens [pts] went
    through [add]: each column has the last quote of its protocol. *)
Definition columns_hold (o : BySymbol) (pts : list (protocol * TokenPrice))
  : Prop :=
  forall k a, In (k, a) o ->
  forall p, get_protocol (byProtocol a) p
            = last_of (observed k (List.map snd
                (filter (fun pt => protocol_eqb (fst pt) p) pts))).

(** The prices the rows carry, suppressed ones left out. *)
Definition priced (rows : list MarketRow) : list Q :=
  Markets.numbers (List.map price rows).

(** Order of two optional prices when sorting upwards: a missing price
    is below every number. *)
Definition price_below (a b : option Q) : Prop :=
  match a, b with
  | None, _ => True
  | Some _, None => False
  | Some x, Some y => Qle x y
  end.

(** The four prices of a candle of the generator. *)
Definition prices (c : Mock.candle) : float * float * float * float :=
  (open c, high c, low c, close c).

(** A symbol without a surrogate pair: every code unit is a character. *)
Definition no_surrogate (s : jsstring) : Prop :=
  Forall (fun c => Mock.is_high_surrogate c = false) s.

(** The non-empty cleaned symbols of a list of tagged quotes, in the
    order of the quotes. *)
Definition syms (pts : list (protocol * TokenPrice)) : list jsstring :=
  filter (fun k => negb (is_empty k))
         (List.map (fun pt => clean_symbol (snd pt)) pts).

(** The quotes of [two_quotes], given by other protocols. *)
Definition swapped_quotes : Snapshots :=
  mkSnaps None (Some (tokens_only [mkToken (lit "uni") 7%Q]))
          (Some (tokens_only [mkToken (lit "UNI") 5%Q])) None.

(** One protocol quoting a symbol twice, in two spellings. *)
Definition repeated_quotes : Snapshots :=
  mkSnaps (Some (tokens_only [mkToken (lit "uni") 5%Q; mkToken (lit "UNI ") 9%Q]))
          None None None.

(** A double that is not below zero: its sign bit is clear, or it is
    NaN. *)
Definition nonneg_sf (x : spec_float) : bool :=
  match x with
  | S754_zero s | S754_infinity s | S754_finite s _ _ => negb s
  | S754_nan => true
  end.

End Notions2.

Import Notions2.

(* ================================================================= *)
(** * Properties of the string functions *)

Section StringFacts.

Local Open Scope N_scope.

Lemma string_eqb_eq : forall a b, JsString.eqb a b = true <-> a = b.
Proof.
  induction a as [|x a IH]; destruct b as [|y b]; simpl; split; intro H;
    try reflexivity; try discriminate.
  - apply andb_true_iff in H. destruct H as [Hx Hab].
    apply N.eqb_eq in Hx. apply IH in Hab. now subst.
  - injection H as -> ->. apply andb_true_iff. split.
    + apply N.eqb_refl.
    + now apply IH.
Qed.

Lemma string_eqb_refl : forall a, JsString.eqb a a = true.
Proof. intro a. now apply string_eqb_eq. Qed.

Lemma string_eqb_neq : forall a b, JsString.eqb a b = false <-> a <> b.
Proof.
  intros a b. split.
  - intros H E. apply string_eqb_eq in E. congruence.
  - intro H. destruct (JsString.eqb a b) eqn:E; [|reflexivity].
    apply string_eqb_eq in E. contradiction.
Qed.

Lemma between_true : forall lo hi c, between lo hi c = true <-> lo <= c <= hi.
Proof.
  intros. unfold between. rewrite andb_true_iff, !N.leb_le. tauto.
Qed.

Lemma between_false : forall lo hi c,
  between lo hi c = false <-> c < lo \/ hi < c.
Proof.
  intros. unfold between. rewrite andb_false_iff, !N.leb_gt. tauto.
Qed.

(** The characters from [!] to [~], and the long s, are not white space. *)
Lemma graphic_not_space : forall c,
  33 <= c <= 126 \/ c = long_s -> is_white_space c = false.
Proof.
  intros c H. unfold is_white_space, long_s in *.
  repeat rewrite orb_false_iff.
  repeat split;
    try (apply N.eqb_neq; lia); apply between_false; lia.
Qed.

Lemma space_toLowerCase : forall c,
  is_white_space (toLowerCase_unit c) = is_white_space c.
Proof.
  intro c. unfold toLowerCase_unit.
  destruct (between 65 90 c) eqn:E; [|reflexivity].
  apply between_true in E.
  rewrite !graphic_not_space; [reflexivity| |]; left; lia.
Qed.

Lemma space_toUpperCase : forall c,
  is_white_space (toUpperCase_unit c) = is_white_space c.
Proof.
  intro c. unfold toUpperCase_unit.
  destruct (between 97 122 c) eqn:E.
  - apply between_true in E.
    rewrite !graphic_not_space; [reflexivity| |]; left; lia.
  - destruct (N.eqb_spec c long_s) as [->|]; [|reflexivity].
    rewrite !graphic_not_space; [reflexivity| |]; [now right|left; lia].
Qed.

Lemma trimStart_map : forall f s,
  (forall c, is_white_space (f c) = is_white_space c) ->
  trimStart (List.map f s) = List.map f (trimStart s).
Proof.
  intros f s Hf. induction s as [|c s IH]; [reflexivity|].
  simpl. rewrite Hf. destruct (is_white_space c); [exact IH|reflexivity].
Qed.

Lemma trim_map : forall f s,
  (forall c, is_white_space (f c) = is_white_space c) ->
  trim (List.map f s) = List.map f (trim s).
Proof.
  intros f s Hf. unfold trim, trimEnd.
  rewrite trimStart_map by exact Hf.
  rewrite <- map_rev, trimStart_map by exact Hf.
  now rewrite map_rev.
Qed.

Lemma trimStart_head : forall s,
  trimStart s = [] \/
  exists c l, trimStart s = c :: l /\ is_white_space c = false.
Proof.
  induction s as [|c s IH]; [now left|].
  simpl. destruct (is_white_space c) eqn:E; [exact IH|].
  right. now exists c, s.
Qed.

Lemma trimStart_keeps_last : forall c m,
  is_white_space c = false -> exists p, trimStart (m ++ [c]) = p ++ [c].
Proof.
  intros c m Hc. induction m as [|d m IH]; simpl.
  - rewrite Hc. now exists [].
  - destruct (is_white_space d); [exact IH|].
    now exists (d :: m).
Qed.

Lemma trimStart_idem : forall s, trimStart (trimStart s) = trimStart s.
Proof.
  intro s. destruct (trimStart_head s) as [->|(c & l & -> & Hc)];
    [reflexivity|]. simpl. now rewrite Hc.
Qed.

Lemma trim_idem : forall s, trim (trim s) = trim s.
Proof.
  intro s. unfold trim, trimEnd.
  destruct (trimStart_head s) as [->|(c & l & -> & Hc)]; [reflexivity|].
  assert (U : exists p, trimStart (rev (c :: l)) = p ++ [c])
    by (simpl; now apply trimStart_keeps_last).
  destruct U as [p Hp].
  assert (I : trimStart (p ++ [c]) = p ++ [c])
    by (rewrite <- Hp; apply trimStart_idem).
  rewrite Hp, rev_app_distr. simpl. rewrite Hc.
  change (c :: rev p) with (rev [c] ++ rev p).
  now rewrite <- rev_app_distr, rev_involutive, I.
Qed.

Lemma trim_no_space : forall s,
  Forall (fun c => is_white_space c = false) s -> trim s = s.
Proof.
  intros s H.
  assert (T : forall l, Forall (fun c => is_white_space c = false) l ->
                        trimStart l = l).
  { intros l Hl. destruct Hl as [|c l Hc _]; [reflexivity|].
    simpl. now rewrite Hc. }
  unfold trim, trimEnd. rewrite (T s H).
  rewrite T by now apply Forall_rev. apply rev_involutive.
Qed.

Lemma toLowerCase_idem : forall s, toLowerCase (toLowerCase s) = toLowerCase s.
Proof.
  intro s. unfold toLowerCase. rewrite map_map. apply map_ext.
  intro c. unfold toLowerCase_unit.
  destruct (between 65 90 c) eqn:E; [|now rewrite E].
  apply between_true in E.
  replace (between 65 90 (c + 32)) with false; [reflexivity|].
  symmetry. apply between_false. lia.
Qed.

Lemma lower_upper_unit : forall c,
  c < 128 -> toLowerCase_unit (toUpperCase_unit c) = toLowerCase_unit c.
Proof.
  intros c Hc. unfold toUpperCase_unit.
  destruct (between 97 122 c) eqn:E.
  - apply between_true in E. unfold toLowerCase_unit.
    replace (between 65 90 (c - 32)) with true
      by (symmetry; apply between_true; lia).
    replace (between 65 90 c) with false
      by (symmetry; apply between_false; lia).
    lia.
  - destruct (N.eqb_spec c long_s) as [->|]; [|reflexivity].
    unfold long_s in Hc. lia.
Qed.

Lemma lower_upper : forall s,
  basic_latin s -> toLowerCase (toUpperCase s) = toLowerCase s.
Proof.
  intros s H. unfold toLowerCase, toUpperCase. rewrite map_map.
  induction H as [|c s Hc _ IH]; [reflexivity|].
  simpl. now rewrite lower_upper_unit, IH.
Qed.

Lemma Forall_trimStart : forall (P : code_unit -> Prop) s,
  Forall P s -> Forall P (trimStart s).
Proof.
  intros P s H. induction H as [|c s Hc Hs IH]; [constructor|].
  simpl. destruct (is_white_space c); [exact IH|now constructor].
Qed.

Lemma Forall_trim : forall (P : code_unit -> Prop) s,
  Forall P s -> Forall P (trim s).
Proof.
  intros P s H. unfold trim, trimEnd.
  apply Forall_rev, Forall_trimStart, Forall_rev.
  now apply Forall_trimStart.
Qed.

Lemma basic_latin_trim : forall s, basic_latin s -> basic_latin (trim s).
Proof. intros s H. now apply Forall_trim. Qed.

Lemma basic_latin_toLowerCase : forall s,
  basic_latin s -> basic_latin (toLowerCase s).
Proof.
  intros s H. induction H as [|c s Hc _ IH]; [constructor|].
  simpl. constructor; [|exact IH]. unfold toLowerCase_unit.
  destruct (between 65 90 c) eqn:E; [|exact Hc].
  apply between_true in E. lia.
Qed.

End StringFacts.

(* ================================================================= *)
(** * normalizeSymbol *)

Example normalize_ethereum :
  normalizeSymbol (lit "ethereum") = Return (lit "ETH").
Proof. reflexivity. Qed.

Example normalize_dogecoin :
  normalizeSymbol (lit "dogecoin") = Return (lit "DOGE")
  /\ normalizeSymbol (lit "  Doge ") = Return (lit "DOGE").
Proof. split; reflexivity. Qed.

Example normalize_constructor :
  normalizeSymbol (lit "constructor") = TypeError.
Proof. reflexivity. Qed.

Section NormalizeFacts.

Local Open Scope N_scope.

Lemma hex_digit_not_space : forall c,
  is_hex_digit c = true -> is_white_space c = false.
Proof.
  intros c H. unfold is_hex_digit in H.
  rewrite !orb_true_iff, !between_true in H.
  apply graphic_not_space. left. lia.
Qed.

Lemma hex_digit_toLowerCase : forall c,
  is_hex_digit c = true -> is_hex_digit (toLowerCase_unit c) = true.
Proof.
  intros c H. unfold toLowerCase_unit.
  destruct (between 65 90 c) eqn:E; [|exact H].
  unfold is_hex_digit in *. apply between_true in E.
  rewrite !orb_true_iff, !between_true in *. lia.
Qed.

Lemma address_no_space : forall s,
  address_re s = true -> Forall (fun c => is_white_space c = false) s.
Proof.
  intros [|z [|x digits]] H; try discriminate.
  simpl in H. rewrite !andb_true_iff in H.
  destruct H as [[[Hz Hx] _] Hd].
  apply N.eqb_eq in Hz. subst z.
  constructor; [reflexivity|]. constructor.
  - apply orb_true_iff in Hx.
    destruct Hx as [Hx|Hx]; apply N.eqb_eq in Hx; now subst x.
  - rewrite forallb_forall in Hd. apply Forall_forall.
    intros c Hc. apply hex_digit_not_space. now apply Hd.
Qed.

Lemma address_toLowerCase : forall s,
  address_re s = true -> address_re (toLowerCase s) = true.
Proof.
  intros [|z [|x digits]] H; try discriminate.
  simpl in H. rewrite !andb_true_iff in H.
  destruct H as [[[Hz Hx] Hl] Hd].
  apply N.eqb_eq in Hz. subst z.
  simpl. rewrite !andb_true_iff. repeat split.
  - apply orb_true_iff in Hx. destruct Hx as [Hx|Hx];
      apply N.eqb_eq in Hx; now subst x.
  - unfold toLowerCase. now rewrite length_map.
  - rewrite forallb_forall in *. intros c Hc. unfold toLowerCase in Hc.
    apply in_map_iff in Hc. destruct Hc as (d & <- & Hd').
    apply hex_digit_toLowerCase. now apply Hd.
Qed.

Lemma address_not_empty : forall s, address_re s = true -> is_empty s = false.
Proof. intros [|c s] H; [discriminate|reflexivity]. Qed.

(** The trimmed, lower-cased input is a fixed point of trimming and
    lower-casing. *)
Lemma lower_trim_fixed : forall input,
  toLowerCase (trim (toLowerCase (trim input))) = toLowerCase (trim input).
Proof.
  intro input. unfold toLowerCase at 2.
  rewrite trim_map by apply space_toLowerCase.
  fold (toLowerCase (trim (trim input))).
  now rewrite trim_idem, toLowerCase_idem.
Qed.

Lemma lower_trim_upper : forall input,
  basic_latin input ->
  toLowerCase (trim (toUpperCase (toLowerCase (trim input))))
  = toLowerCase (trim input).
Proof.
  intros input H. unfold toUpperCase.
  rewrite trim_map by apply space_toUpperCase.
  fold (toUpperCase (trim (toLowerCase (trim input)))).
  rewrite lower_upper.
  - apply lower_trim_fixed.
  - apply basic_latin_trim, basic_latin_toLowerCase, basic_latin_trim, H.
Qed.

Lemma is_empty_map : forall f s, is_empty (List.map f s) = is_empty s.
Proof. intros f [|c s]; reflexivity. Qed.

Lemma completion_eqb_eq : forall a b, completion_eqb a b = true -> a = b.
Proof.
  intros [x|] [y|] H; try discriminate; [|reflexivity].
  apply string_eqb_eq in H. now subst.
Qed.

(** Every ticker of the table is returned as it is. *)
Lemma MAP_values_fixed : forall s v,
  own_property MAP s = Some v ->
  normalizeSymbol (toUpperCase v) = Return (toUpperCase v).
Proof.
  assert (F : forallb (fun kv =>
                completion_eqb (normalizeSymbol (toUpperCase (snd kv)))
                               (Return (toUpperCase (snd kv)))) MAP = true)
    by (vm_compute; reflexivity).
  rewrite forallb_forall in F.
  assert (I : forall m s v, own_property m s = Some v -> exists k, In (k, v) m).
  { induction m as [|[k w] m IH]; intros s v H; [discriminate|].
    simpl in H. destruct (JsString.eqb s k).
    - injection H as ->. exists k. now left.
    - destruct (IH _ _ H) as [k' Hk']. exists k'. now right. }
  intros s v H. destruct (I _ _ _ H) as [k Hk].
  apply completion_eqb_eq. exact (F _ Hk).
Qed.

(** A result [toUpperCase s] of the body is returned again when fed
    back. *)
Lemma upper_result_fixed : forall input,
  basic_latin input ->
  let s := toLowerCase (trim input) in
  normalize_trimmed s = Return (toUpperCase s) ->
  normalizeSymbol (toUpperCase s) = Return (toUpperCase s).
Proof.
  intros input H s Hs. unfold normalizeSymbol.
  unfold toUpperCase at 1. rewrite is_empty_map.
  destruct (is_empty s) eqn:E.
  - destruct s; [reflexivity|discriminate].
  - subst s. rewrite lower_trim_upper by exact H. exact Hs.
Qed.

End NormalizeFacts.

(** C9 (as amended): an input that matches the address pattern
    [/^0x[a-f0-9]{40}$/i] is returned lower-cased, neither upper-cased
    nor looked up in the table; so an address that is already in lower
    case is returned unchanged. *)
Theorem normalizeSymbol_address_lowercased : forall input,
  address_re input = true ->
  normalizeSymbol input = Return (toLowerCase input)
  /\ (toLowerCase input = input -> normalizeSymbol input = Return input).
Proof.
  intros input H.
  assert (R : normalizeSymbol input = Return (toLowerCase input)).
  { unfold normalizeSymbol. rewrite (address_not_empty _ H).
    rewrite (trim_no_space _ (address_no_space _ H)).
    unfold normalize_trimmed. now rewrite (address_toLowerCase _ H). }
  split; [exact R|]. intro E. now rewrite R, E.
Qed.

Lemma normalizeSymbol_address_lowercased_witness :
  normalizeSymbol (lit "0xabcdef0123456789abcdef0123456789abcdef01")
  = Return (lit "0xabcdef0123456789abcdef0123456789abcdef01").
Proof.
  apply (normalizeSymbol_address_lowercased
           (lit "0xabcdef0123456789abcdef0123456789abcdef01"));
    reflexivity.
Defined.

(** C9 (as stated) fails: an address with upper-case hex digits matches
    the pattern and is not returned verbatim. *)
Lemma normalizeSymbol_address_not_verbatim :
  let input := lit "0xAbCdEf0123456789aBcDeF0123456789abcdef01" in
  address_re input = true
  /\ normalizeSymbol input
     = Return (lit "0xabcdef0123456789abcdef0123456789abcdef01")
  /\ normalizeSymbol input <> Return input.
Proof.
  repeat split; try reflexivity. vm_compute. discriminate.
Qed.

(** C10 (as amended): on an input of Basic Latin (ASCII) characters,
    normalising the result again changes nothing: the second call
    returns the string the first returned, and an input on which the
    first call throws makes the composition throw alike. *)
Theorem normalizeSymbol_idempotent_ascii : forall s,
  basic_latin s ->
  and_then (normalizeSymbol s) normalizeSymbol = normalizeSymbol s.
Proof.
  intros input H.
  destruct (is_empty input) eqn:E.
  { destruct input; [reflexivity|discriminate]. }
  assert (N : normalizeSymbol input
              = normalize_trimmed (toLowerCase (trim input)))
    by (unfold normalizeSymbol; now rewrite E).
  rewrite N. clear N.
  pose proof (upper_result_fixed input H) as U. simpl in U.
  remember (toLowerCase (trim input)) as s eqn:Es.
  unfold normalize_trimmed in *.
  destruct (address_re s) eqn:A.
  - simpl. unfold normalizeSymbol. rewrite (address_not_empty _ A).
    assert (F : toLowerCase (trim s) = s)
      by (subst s; apply lower_trim_fixed).
    rewrite F. unfold normalize_trimmed. now rewrite A.
  - destruct (ticker_re s && negb (truthy (MAP_get s)))%bool eqn:T.
    + simpl. rewrite U; reflexivity.
    + unfold MAP_get in *.
      destruct (own_property MAP s) as [v|] eqn:O.
      * simpl. now rewrite (MAP_values_fixed _ _ O).
      * destruct (includes Object_prototype_keys s); [reflexivity|].
        simpl. rewrite U; reflexivity.
Qed.

Lemma normalizeSymbol_idempotent_ascii_witness :
  and_then (normalizeSymbol (lit " Ethereum ")) normalizeSymbol
  = normalizeSymbol (lit " Ethereum ").
Proof.
  apply (normalizeSymbol_idempotent_ascii (lit " Ethereum ")).
  unfold basic_latin. repeat constructor.
Defined.

(** C10 (as stated) fails beyond ASCII: the long s (U+017F) is its own
    lower-case form and has the upper-case form [S]; on the long s
    followed by [olana] the first call returns [SOLANA], which the
    second maps to [SOL]. *)
Lemma normalizeSymbol_not_idempotent :
  let s := long_s :: lit "olana" in
  normalizeSymbol s = Return (lit "SOLANA")
  /\ normalizeSymbol (lit "SOLANA") = Return (lit "SOL")
  /\ and_then (normalizeSymbol s) normalizeSymbol <> normalizeSymbol s.
Proof.
  repeat split; try reflexivity. vm_compute. discriminate.
Qed.

(* ================================================================= *)
(** * Sorting *)

Section SortFacts.
Context {A : Type}.
Variable le : A -> A -> bool.
Hypothesis le_total : forall x y, le x y = false -> le y x = true.
Hypothesis le_trans : forall x y z, le x y = true -> le y z = true -> le x z = true.

Let leP (x y : A) : Prop := le x y = true.

Lemma insert_perm : forall x l, Permutation (JsArray.insert le x l) (x :: l).
Proof.
  intros x l. induction l as [|y l IH]; simpl; [reflexivity|].
  destruct (le x y); [reflexivity|].
  rewrite IH. apply perm_swap.
Qed.

Lemma sort_perm : forall l, Permutation (JsArray.sort le l) l.
Proof.
  induction l as [|x l IH]; simpl; [reflexivity|].
  rewrite insert_perm. now constructor.
Qed.

Lemma sort_length : forall l, List.length (JsArray.sort le l) = List.length l.
Proof. intro l. apply Permutation_length, sort_perm. Qed.

Lemma sort_in : forall x l, In x (JsArray.sort le l) <-> In x l.
Proof.
  intros x l. split; apply Permutation_in;
    [apply sort_perm | apply Permutation_sym, sort_perm].
Qed.

Lemma insert_sorted : forall x l,
  StronglySorted leP l -> StronglySorted leP (JsArray.insert le x l).
Proof.
  intros x l H. induction H as [|y l Hl IH Hy]; simpl.
  - constructor; constructor.
  - destruct (le x y) eqn:E.
    + constructor; [now constructor|].
      constructor; [exact E|].
      rewrite Forall_forall in *. intros z Hz.
      exact (le_trans _ _ _ E (Hy z Hz)).
    + constructor; [exact IH|].
      rewrite Forall_forall in *. intros z Hz.
      apply (Permutation_in _ (insert_perm x l)) in Hz.
      destruct Hz as [<-|Hz]; [now apply le_total|now apply Hy].
Qed.

Lemma sort_sorted : forall l, StronglySorted leP (JsArray.sort le l).
Proof.
  induction l as [|x l IH]; simpl; [constructor|].
  now apply insert_sorted.
Qed.

(** A list already in order is left as it is. *)
Lemma sort_of_sorted : forall l, StronglySorted leP l -> JsArray.sort le l = l.
Proof.
  intros l H. induction H as [|x l Hl IH Hx]; [reflexivity|].
  simpl. rewrite IH. destruct l as [|y l]; [reflexivity|].
  simpl. inversion Hx as [|? ? Hxy _]; subst.
  unfold leP in Hxy. now rewrite Hxy.
Qed.
End SortFacts.

Lemma num_le_total : forall x y,
  JsArray.num_le x y = false -> JsArray.num_le y x = true.
Proof.
  unfold JsArray.num_le. intros x y H.
  apply Qle_bool_iff. apply Qlt_le_weak. apply Qnot_le_lt.
  intro C. apply Qle_bool_iff in C. congruence.
Qed.

Lemma num_le_trans : forall x y z,
  JsArray.num_le x y = true -> JsArray.num_le y z = true ->
  JsArray.num_le x z = true.
Proof.
  unfold JsArray.num_le. intros x y z H1 H2.
  rewrite Qle_bool_iff in *. now apply Qle_trans with y.
Qed.

Lemma num_sort_ascending : forall l, ascending (JsArray.sort JsArray.num_le l).
Proof.
  intro l.
  pose proof (sort_sorted JsArray.num_le num_le_total num_le_trans l) as H.
  unfold ascending.
  induction H as [|x s Hs IH Hx]; constructor; [exact IH|].
  rewrite Forall_forall in *. intros y Hy.
  apply Qle_bool_iff. now apply Hx.
Qed.

Lemma nth_error_sort_upper_median : forall xs m,
  nth_error (JsArray.sort JsArray.num_le xs)
            (Nat.div (List.length (JsArray.sort JsArray.num_le xs)) 2) = Some m ->
  upper_median m xs.
Proof.
  intros xs m H. exists (JsArray.sort JsArray.num_le xs).
  rewrite sort_length in H.
  split; [apply sort_perm|]. split; [apply num_sort_ascending|exact H].
Qed.

Lemma median_index_some : forall (l : list Q),
  l <> [] -> exists m, nth_error l (Nat.div (List.length l) 2) = Some m.
Proof.
  intros l H.
  destruct (nth_error l (Nat.div (List.length l) 2)) as [m|] eqn:E;
    [now exists m|].
  apply nth_error_None in E.
  destruct l as [|x l]; [contradiction|]. simpl List.length in E.
  pose proof (Nat.div_lt (S (List.length l)) 2). lia.
Qed.

(* ================================================================= *)
(** * mergeHistories *)

Import Merge.

Section MergeFacts.

Lemma by_time_total : forall x y : Merge.candle,
  by_time x y = false -> by_time y x = true.
Proof. unfold by_time. intros x y H. apply Z.leb_le. apply Z.leb_gt in H. lia. Qed.

Lemma by_time_trans : forall x y z : Merge.candle,
  by_time x y = true -> by_time y z = true -> by_time x z = true.
Proof. unfold by_time. intros x y z. rewrite !Z.leb_le. lia. Qed.

Lemma buckets_concat : forall hs b,
  fold_left (fun b h => fold_left add_candle h b) hs b
  = fold_left add_candle (concat hs) b.
Proof.
  induction hs as [|h hs IH]; intro b; [reflexivity|].
  simpl. now rewrite fold_left_app, IH.
Qed.

Lemma has_keys : forall b ts, has b ts = true <-> In ts (keys b).
Proof.
  induction b as [|[k arr] b IH]; intro ts; simpl; [easy|].
  rewrite orb_true_iff, Z.eqb_eq, IH. tauto.
Qed.

Lemma push_at_keys : forall b ts c, keys (push_at b ts c) = keys b.
Proof.
  induction b as [|[k arr] b IH]; intros ts c; [reflexivity|].
  simpl. destruct (Z.eqb k ts); simpl; [reflexivity|]. now rewrite IH.
Qed.

Lemma push_at_in : forall b ts c k arr,
  NoDup (keys b) ->
  In (k, arr) (push_at b ts c) ->
  (k <> ts /\ In (k, arr) b) \/
  (k = ts /\ exists arr0, In (k, arr0) b /\ arr = arr0 ++ [c]).
Proof.
  induction b as [|[k0 arr0] b IH]; intros ts c k arr ND H; [contradiction|].
  simpl in ND. inversion ND as [|? ? Hk0 ND']; subst.
  simpl in H. destruct (Z.eqb_spec k0 ts) as [->|Hne].
  - destruct H as [E|H].
    + injection E as <- <-. right. split; [reflexivity|].
      exists arr0. split; [now left|reflexivity].
    + left. split; [|now right].
      intros ->. apply Hk0. change ts with (fst (ts, arr)). now apply in_map.
  - destruct H as [E|H].
    + injection E as <- <-. left. split; [exact Hne|now left].
    + destruct (IH _ _ _ _ ND' H) as [[N I]|[E (a0 & I & Ea)]].
      * left. split; [exact N|now right].
      * right. split; [exact E|]. exists a0. split; [now right|exact Ea].
Qed.

Lemma bucket_of_snoc : forall cs c ts,
  bucket_of (cs ++ [c]) ts
  = bucket_of cs ts ++ (if Z.eqb (time c) ts then [c] else []).
Proof.
  intros. unfold bucket_of. rewrite filter_app. simpl.
  now destruct (Z.eqb (time c) ts).
Qed.

Lemma bucket_of_absent : forall cs ts, ~ In ts (times cs) -> bucket_of cs ts = [].
Proof.
  induction cs as [|c cs IH]; intros ts H; [reflexivity|].
  simpl in *. destruct (Z.eqb_spec (time c) ts) as [E|_].
  - exfalso. apply H. now left.
  - apply IH. intro I. apply H. now right.
Qed.

Lemma add_candle_holds : forall b cs c,
  holds b cs -> holds (add_candle b c) (cs ++ [c]).
Proof.
  intros b cs c (ND & K & B). unfold add_candle.
  set (ts := time c).
  set (b1 := if has b ts then b else b ++ [(ts, [])]).
  assert (ND1 : NoDup (keys b1)).
  { subst b1. destruct (has b ts) eqn:E; [exact ND|].
    unfold keys. rewrite map_app. simpl.
    apply NoDup_app_remove_l with (l := []). simpl.
    apply Permutation_NoDup with (l := ts :: List.map fst b).
    - apply Permutation_cons_append.
    - constructor; [|exact ND]. intro I. apply has_keys in I. congruence. }
  assert (K1 : forall k, In k (keys b1) <-> In k (times (cs ++ [c]))).
  { intro k. unfold times. rewrite map_app, in_app_iff. simpl.
    subst b1. destruct (has b ts) eqn:E.
    - rewrite K. apply has_keys in E. apply K in E.
      unfold times. subst ts. intuition (subst; auto).
    - unfold keys. rewrite map_app, in_app_iff. simpl.
      fold (keys b). rewrite K. unfold times. subst ts. tauto. }
  assert (B1 : forall k arr, In (k, arr) b1 -> arr = bucket_of cs k).
  { intros k arr I. subst b1. destruct (has b ts) eqn:E; [now apply B|].
    apply in_app_iff in I. destruct I as [I|[I|[]]]; [now apply B|].
    injection I as <- <-. symmetry. apply bucket_of_absent.
    intro I. apply K in I. apply has_keys in I. congruence. }
  split; [now rewrite push_at_keys|].
  split; [intro k; now rewrite push_at_keys|].
  intros k arr I. rewrite bucket_of_snoc. fold ts.
  destruct (push_at_in _ _ _ _ _ ND1 I) as [[N I']|[E (a0 & I' & Ea)]].
  - destruct (Z.eqb_spec ts k) as [->|_]; [contradiction|].
    rewrite app_nil_r. now apply B1.
  - subst k. rewrite Z.eqb_refl, Ea. f_equal. now apply B1.
Qed.

Lemma fold_add_candle_holds : forall cs2 b cs1,
  holds b cs1 -> holds (fold_left add_candle cs2 b) (cs1 ++ cs2).
Proof.
  induction cs2 as [|c cs2 IH]; intros b cs1 H; simpl.
  - now rewrite app_nil_r.
  - replace (cs1 ++ c :: cs2) with ((cs1 ++ [c]) ++ cs2)
      by (now rewrite <- app_assoc).
    apply IH. now apply add_candle_holds.
Qed.

Lemma buckets_hold : forall hs, holds (buckets hs) (concat hs).
Proof.
  intro hs. unfold buckets. rewrite buckets_concat.
  apply (fold_add_candle_holds (concat hs) [] []).
  repeat split; simpl; try constructor; try tauto; contradiction.
Qed.

End MergeFacts.

Section MergeBucket.

Lemma fold_opt_greatest : forall xs a,
  exists m, fold_left (fun acc x => match acc with
                                    | None => Some x
                                    | Some a => Some (max2 a x)
                                    end) xs (Some a) = Some m
            /\ greatest m (a :: xs).
Proof.
  induction xs as [|x xs IH]; intro a; simpl.
  - exists a. split; [reflexivity|]. split; [now left|].
    intros y [<-|[]]. apply Qle_refl.
  - destruct (IH (max2 a x)) as (m & Hm & Hin & Hub).
    exists m. split; [exact Hm|].
    assert (Ha : Qle a (max2 a x) /\ Qle x (max2 a x)
                 /\ (max2 a x = a \/ max2 a x = x)).
    { unfold max2. destruct (Qle_bool a x) eqn:E.
      - apply Qle_bool_iff in E. repeat split; auto using Qle_refl.
      - repeat split; auto using Qle_refl.
        apply Qlt_le_weak, Qnot_le_lt. intro C.
        apply Qle_bool_iff in C. congruence. }
    destruct Ha as (Ha & Hx & Hc). split.
    + destruct Hin as [E|Hin]; [|now right; right].
      rewrite <- E. destruct Hc as [->| ->]; [now left|now right; left].
    + intros y [<-|[<-|Hy]].
      * apply Qle_trans with (max2 a x); [exact Ha|]. apply Hub. now left.
      * apply Qle_trans with (max2 a x); [exact Hx|]. apply Hub. now left.
      * apply Hub. now right.
Qed.

Lemma fold_opt_least : forall xs a,
  exists m, fold_left (fun acc x => match acc with
                                    | None => Some x
                                    | Some a => Some (min2 a x)
                                    end) xs (Some a) = Some m
            /\ least m (a :: xs).
Proof.
  induction xs as [|x xs IH]; intro a; simpl.
  - exists a. split; [reflexivity|]. split; [now left|].
    intros y [<-|[]]. apply Qle_refl.
  - destruct (IH (min2 a x)) as (m & Hm & Hin & Hlb).
    exists m. split; [exact Hm|].
    assert (Ha : Qle (min2 a x) a /\ Qle (min2 a x) x
                 /\ (min2 a x = a \/ min2 a x = x)).
    { unfold min2. destruct (Qle_bool x a) eqn:E.
      - apply Qle_bool_iff in E. repeat split; auto using Qle_refl.
      - repeat split; auto using Qle_refl.
        apply Qlt_le_weak, Qnot_le_lt. intro C.
        apply Qle_bool_iff in C. congruence. }
    destruct Ha as (Ha & Hx & Hc). split.
    + destruct Hin as [E|Hin]; [|now right; right].
      rewrite <- E. destruct Hc as [->| ->]; [now left|now right; left].
    + intros y [<-|[<-|Hy]].
      * apply Qle_trans with (min2 a x); [|exact Ha]. apply Hlb. now left.
      * apply Qle_trans with (min2 a x); [|exact Hx]. apply Hlb. now left.
      * apply Hlb. now right.
Qed.

Lemma Math_max_greatest : forall x xs,
  exists m, Math_max (x :: xs) = Some m /\ greatest m (x :: xs).
Proof. intros. apply fold_opt_greatest. Qed.

Lemma Math_min_least : forall x xs,
  exists m, Math_min (x :: xs) = Some m /\ least m (x :: xs).
Proof. intros. apply fold_opt_least. Qed.

(** Candles of one timestamp are in order already: the sort of line 17
    leaves the bucket as it is. *)
Lemma sort_same_time : forall ts (arr : list Merge.candle),
  (forall c, In c arr -> time c = ts) -> JsArray.sort by_time arr = arr.
Proof.
  intros ts arr H. apply sort_of_sorted.
  induction arr as [|c arr IH]; constructor.
  - apply IH. intros d Hd. apply H. now right.
  - apply Forall_forall. intros d Hd. unfold by_time.
    rewrite (H c), (H d); [apply Z.leb_refl|now right|now left].
Qed.

Lemma merge_bucket_spec : forall ts (arr : list Merge.candle),
  arr <> [] -> (forall c, In c arr -> time c = ts) ->
  exists c, merge_bucket ts arr = Some c
    /\ time c = ts
    /\ greatest (high c) (List.map high arr)
    /\ least (low c) (List.map low arr)
    /\ upper_median (close c) (List.map close arr).
Proof.
  intros ts arr Hne Hts. unfold merge_bucket.
  rewrite (sort_same_time ts arr Hts).
  destruct arr as [|c0 rest]; [contradiction|].
  destruct (nth_error (c0 :: rest) (List.length (c0 :: rest) - 1))
    as [final|] eqn:Ef.
  2:{ apply nth_error_None in Ef. simpl in Ef. lia. }
  simpl List.map.
  destruct (Math_max_greatest (high c0) (List.map high rest)) as (hi & -> & Hhi).
  destruct (Math_min_least (low c0) (List.map low rest)) as (lo & -> & Hlo).
  destruct (median_index_some
              (JsArray.sort JsArray.num_le (close c0 :: List.map close rest)))
    as [med Hmed].
  { intro E. apply (f_equal (@List.length Q)) in E.
    rewrite sort_length in E. discriminate. }
  simpl nth_error at 1. rewrite Hmed.
  eexists. split; [reflexivity|]. simpl.
  repeat split; try apply Hhi; try apply Hlo.
  now apply nth_error_sort_upper_median.
Qed.

Lemma merge_all_spec : forall b,
  (forall ts arr, In (ts, arr) b ->
     arr <> [] /\ forall c, In c arr -> time c = ts) ->
  exists out, merge_all b = Some out
    /\ times out = keys b
    /\ forall c, In c out ->
         exists arr, In (time c, arr) b
           /\ greatest (high c) (List.map high arr)
           /\ least (low c) (List.map low arr)
           /\ upper_median (close c) (List.map close arr).
Proof.
  induction b as [|[ts arr] b IH]; intro H.
  - exists []. repeat split. intros c [].
  - destruct (H ts arr (or_introl eq_refl)) as [Hne Hts].
    destruct (merge_bucket_spec ts arr Hne Hts) as (c & Hc & Ht & Hh & Hl & Hm).
    destruct IH as (out & Ho & Hk & Hall).
    { intros ts' arr' I. apply H. now right. }
    exists (c :: out). simpl. rewrite Hc, Ho.
    split; [reflexivity|]. split; [now rewrite Ht, Hk|].
    intros d [<-|Hd].
    + exists arr. rewrite Ht. split; [now left|]. split; [exact Hh|]. split; [exact Hl|exact Hm].
    + destruct (Hall d Hd) as (arr' & I & R). exists arr'. split; [now right|exact R].
Qed.

Lemma bucket_of_time : forall cs ts c, In c (bucket_of cs ts) -> time c = ts.
Proof.
  intros cs ts c H. unfold bucket_of in H. apply filter_In in H.
  destruct H as [_ H]. now apply Z.eqb_eq.
Qed.

Lemma bucket_of_present : forall cs ts, In ts (times cs) -> bucket_of cs ts <> [].
Proof.
  intros cs ts H E. unfold times in H. apply in_map_iff in H.
  destruct H as (c & Hc & I).
  assert (In c (bucket_of cs ts)).
  { unfold bucket_of. apply filter_In. split; [exact I|now apply Z.eqb_eq]. }
  rewrite E in *. contradiction.
Qed.

Lemma sorted_nodup_strict : forall l,
  StronglySorted Z.le l -> NoDup l -> strictly_ascending l.
Proof.
  intros l S. induction S as [|x l S IH Hx]; intro ND; constructor.
  - apply IH. now inversion ND.
  - inversion ND as [|? ? Hnot _]; subst.
    rewrite Forall_forall in *. intros y Hy.
    specialize (Hx y Hy). assert (x <> y) by (intros ->; contradiction). lia.
Qed.

Lemma sort_by_time_times : forall out : list Merge.candle,
  StronglySorted Z.le (times (JsArray.sort by_time out)).
Proof.
  intro out.
  pose proof (sort_sorted by_time by_time_total by_time_trans out) as S.
  induction S as [|x l S IH Hx]; simpl; constructor; [exact IH|].
  apply Forall_forall. intros t Ht. unfold times in Ht.
  apply in_map_iff in Ht. destruct Ht as (y & <- & Hy).
  rewrite Forall_forall in Hx. apply Z.leb_le. exact (Hx y Hy).
Qed.

Lemma sort_by_time_strict : forall out : list Merge.candle,
  NoDup (times out) -> strictly_ascending (times (JsArray.sort by_time out)).
Proof.
  intros out ND. apply sorted_nodup_strict; [apply sort_by_time_times|].
  apply Permutation_NoDup with (l := times out); [|exact ND].
  unfold times. apply Permutation_map, Permutation_sym, sort_perm.
Qed.

End MergeBucket.

Example merge_example :
  mergeHistories [[example_first]; [example_second]]
  = Some [mkOHLC 1700000000 10%Q 12%Q 9%Q 11%Q None].
Proof. reflexivity. Qed.

(** C1 (as amended): [mergeHistories] emits one candle per timestamp of
    the input, in strictly ascending order; the candle of a bucket has
    the greatest [high] and the least [low] of the bucket, and its
    [close] is the element at index [floor(n / 2)] of the bucket's
    closes in ascending order: the upper of the two middle elements
    when the bucket has an even number [n] of candles.  A bucket with
    closes 11 and 10.5 yields the close 11. *)
Theorem mergeHistories_bucket_statistics : forall hs,
  exists out,
    mergeHistories hs = Some out
    /\ strictly_ascending (times out)
    /\ (forall ts, In ts (times out) <-> In ts (times (List.concat hs)))
    /\ (forall c, In c out ->
          let bucket := bucket_of (List.concat hs) (time c) in
          greatest (high c) (List.map high bucket)
          /\ least (low c) (List.map low bucket)
          /\ upper_median (close c) (List.map close bucket))
    /\ mergeHistories [[example_first]; [example_second]]
       = Some [mkOHLC 1700000000 10%Q 12%Q 9%Q 11%Q None].
Proof.
  intro hs. destruct (buckets_hold hs) as (ND & K & B).
  destruct (merge_all_spec (buckets hs)) as (out & Ho & Hk & Hall).
  { intros ts arr I. rewrite (B ts arr I). split.
    - apply bucket_of_present. apply K.
      change ts with (fst (ts, arr)). now apply in_map.
    - apply bucket_of_time. }
  exists (JsArray.sort by_time out). unfold mergeHistories. rewrite Ho.
  split; [reflexivity|].
  split; [apply sort_by_time_strict; now rewrite Hk|].
  split; [|split].
  - intro ts. rewrite <- K, <- Hk. unfold times. rewrite !in_map_iff.
    split; intros (c & E & I); exists c; (split; [exact E|]);
      now apply (sort_in by_time).
  - intros c I. apply (proj1 (sort_in by_time c out)) in I.
    destruct (Hall c I) as (arr & Ia & R).
    simpl. now rewrite <- (B _ _ Ia).
  - reflexivity.
Qed.

(** C1 (as stated) fails: on the bucket with closes 11 and 10.5 the
    emitted close is 11, not the lower-middle element 10.5. *)
Lemma mergeHistories_close_not_lower_middle :
  exists c,
    mergeHistories [[example_first]; [example_second]] = Some [c]
    /\ greatest (high c) [12%Q; (23 # 2)%Q]
    /\ least (low c) [9%Q; (19 # 2)%Q]
    /\ close c = 11%Q
    /\ lower_median (21 # 2)%Q [11%Q; (21 # 2)%Q]
    /\ ~ Qeq (close c) (21 # 2)%Q.
Proof.
  eexists. split; [reflexivity|]. simpl.
  split; [|split; [|split; [reflexivity|split; [|discriminate]]]].
  - split; [now left|]. intros x [<-|[<-|[]]]; discriminate.
  - split; [now left|]. intros x [<-|[<-|[]]]; discriminate.
  - exists [(21 # 2)%Q; 11%Q]. split; [apply perm_swap|].
    split; [|reflexivity]. repeat constructor. discriminate.
Qed.

Section MergeDisjoint.

Lemma push_at_fresh : forall b ts c,
  ~ In ts (keys b) -> push_at (b ++ [(ts, [])]) ts c = b ++ [(ts, [c])].
Proof.
  induction b as [|[k arr] b IH]; intros ts c H; simpl.
  - now rewrite Z.eqb_refl.
  - simpl in H. destruct (Z.eqb_spec k ts) as [E|_]; [tauto|].
    rewrite IH; [reflexivity|tauto].
Qed.

Lemma fold_add_distinct : forall cs b,
  NoDup (keys b ++ times cs) ->
  fold_left add_candle cs b = b ++ List.map (fun c => (time c, [c])) cs.
Proof.
  induction cs as [|c cs IH]; intros b ND; simpl.
  - now rewrite app_nil_r.
  - assert (F : ~ In (time c) (keys b)).
    { intro I. apply NoDup_remove_2 in ND. apply ND.
      apply in_or_app. now left. }
    assert (A : add_candle b c = b ++ [(time c, [c])]).
    { unfold add_candle. destruct (has b (time c)) eqn:E.
      - apply has_keys in E. contradiction.
      - now apply push_at_fresh. }
    rewrite A, IH; [now rewrite <- app_assoc|].
    unfold keys. rewrite map_app. simpl. rewrite <- app_assoc. exact ND.
Qed.

Lemma merge_all_singletons : forall cs : list Merge.candle,
  merge_all (List.map (fun c => (time c, [c])) cs) = Some (List.map ohlc_only cs).
Proof.
  induction cs as [|c cs IH]; [reflexivity|].
  simpl. now rewrite IH.
Qed.

Lemma mergeHistories_distinct : forall hs,
  NoDup (times (List.concat hs)) ->
  mergeHistories hs
  = Some (JsArray.sort by_time (List.map ohlc_only (List.concat hs))).
Proof.
  intros hs ND. unfold mergeHistories, buckets.
  rewrite buckets_concat, fold_add_distinct by exact ND.
  simpl. now rewrite merge_all_singletons.
Qed.

Lemma times_ohlc_only : forall cs, times (List.map ohlc_only cs) = times cs.
Proof.
  intro cs. unfold times. rewrite map_map. now apply map_ext.
Qed.

Lemma strict_by_time : forall cs : list Merge.candle,
  strictly_ascending (times cs) ->
  StronglySorted (fun a b => by_time a b = true) cs.
Proof.
  induction cs as [|c cs IH]; intro S; constructor.
  - apply IH. now inversion S.
  - inversion S as [|? ? _ Hc]; subst. rewrite Forall_forall in *.
    intros d Hd. unfold by_time. apply Z.leb_le.
    assert (time c < time d)%Z; [|lia].
    apply Hc. unfold times. now apply in_map.
Qed.

Lemma strict_nodup : forall l, strictly_ascending l -> NoDup l.
Proof.
  intros l S. induction S as [|x l S IH Hx]; constructor; [|exact IH].
  intro I. rewrite Forall_forall in Hx. specialize (Hx x I). lia.
Qed.

End MergeDisjoint.

(** C4 (as amended): for histories [H1] and [H2] that share no
    timestamp (each timestamp occurs once in all), [mergeHistories] of
    the two is the concatenation arranged by strictly ascending
    timestamp, each candle with its time, open, high, low and close
    unchanged and its [volume] left out.  A single history in ascending
    order comes back in the same way. *)
Theorem mergeHistories_disjoint : forall H1 H2,
  NoDup (times (H1 ++ H2)) ->
  exists out,
    mergeHistories [H1; H2] = Some out
    /\ Permutation out (List.map ohlc_only (H1 ++ H2))
    /\ strictly_ascending (times out)
    /\ (strictly_ascending (times H1) ->
        mergeHistories [H1] = Some (List.map ohlc_only H1)).
Proof.
  intros H1 H2 ND.
  exists (JsArray.sort by_time (List.map ohlc_only (H1 ++ H2))).
  split; [|split; [|split]].
  - rewrite mergeHistories_distinct; simpl; now rewrite app_nil_r.
  - apply sort_perm.
  - apply sort_by_time_strict. now rewrite times_ohlc_only.
  - intro S. rewrite mergeHistories_distinct.
    + simpl. rewrite app_nil_r. f_equal. apply sort_of_sorted.
      apply strict_by_time. now rewrite times_ohlc_only.
    + simpl. rewrite app_nil_r. now apply strict_nodup.
Qed.

Lemma mergeHistories_disjoint_witness :
  exists out,
    mergeHistories [[later_candle]; [with_volume]] = Some out
    /\ Permutation out (List.map ohlc_only ([later_candle] ++ [with_volume]))
    /\ strictly_ascending (times out)
    /\ (strictly_ascending (times [later_candle]) ->
        mergeHistories [[later_candle]] = Some (List.map ohlc_only [later_candle])).
Proof.
  apply (mergeHistories_disjoint [later_candle] [with_volume]).
  repeat constructor; simpl; intuition discriminate.
Defined.

(** C4 (as stated) fails: a candle that carries a [volume], as those of
    the Binance adapter do, does not come back unchanged. *)
Lemma mergeHistories_drops_volume :
  NoDup (times ([with_volume] ++ [later_candle]))
  /\ mergeHistories [[with_volume]; [later_candle]]
     = Some [mkOHLC 1700000000 10%Q 12%Q 9%Q 11%Q None; later_candle]
  /\ mergeHistories [[with_volume]; [later_candle]]
     <> Some [with_volume; later_candle]
  /\ mergeHistories [[with_volume]] <> Some [with_volume].
Proof.
  split; [|split; [reflexivity|split; vm_compute; discriminate]].
  repeat constructor; simpl; intuition discriminate.
Qed.

(* ================================================================= *)
(** * getCandles *)

Import HistoryFacade.

(** C3: [getCandles] calls the Binance adapter first; when that adapter
    throws or returns an empty sequence it calls the CoinGecko adapter
    and returns what that one returns; when both fail it returns the
    empty sequence; it never rejects.  With a Binance adapter that
    throws and a CoinGecko adapter that returns three candles, it
    returns exactly those three. *)
Theorem getCandles_fallback : forall net symbol interval days,
  let bin := net Binance symbol interval days in
  let cg := net CoinGecko symbol interval days in
  let r := getCandles net symbol interval days in
  hd_error (fst r) = Some Binance
  /\ (exists l, snd r = Fulfilled l)
  /\ (bin = Rejected \/ bin = Fulfilled (Some []) ->
        fst r = [Binance; CoinGecko]
        /\ forall l, cg = Fulfilled (Some l) -> snd r = Fulfilled l)
  /\ ((bin = Rejected \/ bin = Fulfilled None \/ bin = Fulfilled (Some [])) ->
      (cg = Rejected \/ cg = Fulfilled None) ->
        snd r = Fulfilled [])
  /\ (forall c cs, bin = Fulfilled (Some (c :: cs)) ->
        r = ([Binance], Fulfilled (c :: cs)))
  /\ (forall c1 c2 c3, bin = Rejected -> cg = Fulfilled (Some [c1; c2; c3]) ->
        snd r = Fulfilled [c1; c2; c3]).
Proof.
  intros net symbol interval days bin cg r.
  unfold r, getCandles, bind, catch_null, call, ret. simpl.
  fold bin. fold cg.
  destruct bin as [[[|c cs]|]|]; destruct cg as [[l|]|]; simpl;
    (split; [reflexivity|]); (split; [eauto|]);
    intuition (try discriminate; try congruence).
Qed.

(* ================================================================= *)
(** * The aggregation of useUnifiedPrices *)

Import UnifiedPrices.

Section AggregateFacts.

Lemma lookup_none : forall o k, lookup o k = None <-> ~ In k (okeys o).
Proof.
  induction o as [|[k' a] o IH]; intro k; simpl; [tauto|].
  destruct (JsString.eqb k k') eqn:E.
  - apply string_eqb_eq in E. subst. split; [discriminate|]. intro H.
    exfalso. apply H. now left.
  - apply string_eqb_neq in E. rewrite IH. split.
    + intros H [C|C]; [now subst|contradiction].
    + intros H C. apply H. now right.
Qed.

Lemma update_keys : forall o k f, okeys (update o k f) = okeys o.
Proof.
  induction o as [|[k' a] o IH]; intros k f; [reflexivity|].
  simpl. destruct (JsString.eqb k k'); simpl; [reflexivity|]. now rewrite IH.
Qed.

Lemma update_in : forall o sym f k a,
  NoDup (okeys o) ->
  In (k, a) (update o sym f) ->
  (k <> sym /\ In (k, a) o) \/
  (k = sym /\ exists a0, In (k, a0) o /\ a = f a0).
Proof.
  induction o as [|[k0 a0] o IH]; intros sym f k a ND H; [contradiction|].
  simpl in ND. inversion ND as [|? ? Hk0 ND']; subst.
  simpl in H. destruct (JsString.eqb sym k0) eqn:E.
  - apply string_eqb_eq in E. subst k0. destruct H as [H|H].
    + injection H as <- <-. right. split; [reflexivity|].
      exists a0. split; [now left|reflexivity].
    + left. split; [|now right]. intros ->. apply Hk0.
      change sym with (fst (sym, a)). now apply in_map.
  - apply string_eqb_neq in E. destruct H as [H|H].
    + injection H as <- <-. left. split; [congruence|now left].
    + destruct (IH _ _ _ _ ND' H) as [[N I]|[Ek (a1 & I & Ea)]].
      * left. split; [exact N|now right].
      * right. split; [exact Ek|]. exists a1. split; [now right|exact Ea].
Qed.

Lemma fold_add_token : forall p ts o,
  fold_left (add_token p) ts o = fold_left step (List.map (Datatypes.pair p) ts) o.
Proof.
  intros p ts. induction ts as [|t ts IH]; intro o; [reflexivity|].
  simpl. apply IH.
Qed.

Lemma add_tokens_of : forall p snap o,
  add p snap o = fold_left step (List.map (Datatypes.pair p) (tokens_of snap)) o.
Proof.
  intros p [[[ts|] ? ? ? ?]|] o; simpl; try reflexivity.
  apply fold_add_token.
Qed.

Lemma bySymbol_fold : forall s, bySymbol s = fold_left step (tagged s) [].
Proof.
  intro s. unfold bySymbol, tagged. simpl.
  rewrite !add_tokens_of, app_nil_r, !fold_left_app. reflexivity.
Qed.

Lemma observed_snoc : forall k ts t,
  observed k (ts ++ [t])
  = observed k ts
    ++ (if JsString.eqb (clean_symbol t) k then [priceUSD t] else []).
Proof.
  intros. unfold observed. rewrite filter_app, map_app. simpl.
  now destruct (JsString.eqb (clean_symbol t) k).
Qed.

Lemma observed_none : forall k ts,
  (forall t, In t ts -> clean_symbol t <> k) -> observed k ts = [].
Proof.
  intros k ts. induction ts as [|t ts IH]; intro H; [reflexivity|].
  unfold observed. simpl.
  destruct (JsString.eqb (clean_symbol t) k) eqn:E.
  - apply string_eqb_eq in E. exfalso. apply (H t); [now left|exact E].
  - apply IH. intros u Hu. apply H. now right.
Qed.

Lemma get_set_protocol : forall b p q v w,
  get_protocol (set_protocol b p v) q = Some w ->
  (q = p /\ w = v) \/ get_protocol b q = Some w.
Proof.
  intros b p q v w H.
  destruct p, q; simpl in *; try (now right);
    injection H as <-; now left.
Qed.

Lemma step_sound : forall o pts pt,
  sound o pts -> sound (step o pt) (pts ++ [pt]).
Proof.
  intros o pts [p t] (ND & E & C). unfold sound, step, add_token. simpl fst. simpl snd.
  rewrite map_app. simpl List.map.
  destruct (is_empty (clean_symbol t)) eqn:Em.
  - assert (Z0 : clean_symbol t = [])
      by (destruct (clean_symbol t); [reflexivity|discriminate]).
    split; [exact ND|]. split.
    + intros k a I. destruct (E k a I) as (Hk & Hs & Hv & Hn & Hp).
      repeat split; try assumption.
      * rewrite observed_snoc, Z0.
        replace (JsString.eqb [] k) with false; [now rewrite app_nil_r|].
        symmetry. apply string_eqb_neq. congruence.
      * intros q v Hq. destruct (Hp q v Hq) as (u & Iu & Hu).
        exists u. split; [apply in_or_app; now left|exact Hu].
    + intros u Iu Hu. apply in_app_iff in Iu.
      destruct Iu as [Iu|[<-|[]]]; [now apply C|contradiction].
  - set (sym := clean_symbol t) in *.
    assert (Hsym : sym <> []) by (intros Z0; rewrite Z0 in Em; discriminate).
    set (fresh := mkAcc sym [] (mkBy None None None None)).
    set (o1 := match lookup o sym with Some _ => o | None => o ++ [(sym, fresh)] end).
    set (f := fun a => mkAcc (acc_symbol a) (vals a ++ [priceUSD t])
                         (set_protocol (byProtocol a) p (priceUSD t))).
    assert (K1 : forall k, In k (okeys o1) <-> In k (okeys o) \/ k = sym).
    { intro k. subst o1. destruct (lookup o sym) eqn:L.
      - split; [now left|]. intros [H | ->]; [exact H|].
        destruct (in_dec (list_eq_dec N.eq_dec) sym (okeys o)) as [I|I];
          [exact I|]. apply lookup_none in I. congruence.
      - unfold okeys. rewrite map_app, in_app_iff. simpl. intuition. }
    assert (ND1 : NoDup (okeys o1)).
    { subst o1. destruct (lookup o sym) eqn:L; [exact ND|].
      apply lookup_none in L. unfold okeys. rewrite map_app. simpl.
      apply Permutation_NoDup with (l := sym :: List.map fst o).
      - apply Permutation_cons_append.
      - now constructor. }
    assert (E1 : forall k a, In (k, a) o1 ->
                   In (k, a) o \/ (k = sym /\ a = fresh /\ ~ In sym (okeys o))).
    { intros k a I. subst o1. destruct (lookup o sym) eqn:L; [now left|].
      apply in_app_iff in I. destruct I as [I|[I|[]]]; [now left|].
      injection I as <- <-. right. repeat split. now apply lookup_none. }
    split; [now rewrite update_keys|]. split.
    + intros k a I. rewrite observed_snoc. fold sym.
      destruct (update_in _ _ _ _ _ ND1 I) as [[N I']|[-> (a0 & I' & ->)]].
      * destruct (E1 _ _ I') as [Io|[-> _]]; [|contradiction].
        destruct (E k a Io) as (Hk & Hs & Hv & Hn & Hp).
        replace (JsString.eqb sym k) with false
          by (symmetry; apply string_eqb_neq; congruence).
        rewrite app_nil_r. repeat split; try assumption.
        intros q v Hq. destruct (Hp q v Hq) as (u & Iu & Hu).
        exists u. split; [apply in_or_app; now left|exact Hu].
      * rewrite string_eqb_refl. split; [exact Hsym|].
        destruct (E1 _ _ I') as [Io|(_ & -> & Hfresh)].
        -- destruct (E sym a0 Io) as (Hk & Hs & Hv & Hn & Hp).
           simpl. repeat split; try assumption.
           ++ now rewrite Hv.
           ++ intro Z0. apply app_eq_nil in Z0. destruct Z0; discriminate.
           ++ intros q v Hq. apply get_set_protocol in Hq.
              destruct Hq as [[-> ->]|Hq].
              ** exists t. split; [apply in_or_app; right; now left|].
                 now split.
              ** destruct (Hp q v Hq) as (u & Iu & Hu).
                 exists u. split; [apply in_or_app; now left|exact Hu].
        -- simpl. repeat split; try discriminate.
           ++ rewrite observed_none; [reflexivity|].
              intros u Iu Eu. apply Hfresh. rewrite <- Eu.
              apply C; [exact Iu|]. now rewrite Eu.
           ++ intros q v Hq. apply get_set_protocol in Hq.
              destruct Hq as [[-> ->]|Hq]; [|destruct q; discriminate].
              exists t. split; [apply in_or_app; right; now left|].
              now split.
    + intros u Iu Hu. rewrite update_keys. apply K1.
      apply in_app_iff in Iu. destruct Iu as [Iu|[<-|[]]].
      * left. now apply C.
      * now right.
Qed.

Lemma fold_step_sound : forall pts2 o pts1,
  sound o pts1 -> sound (fold_left step pts2 o) (pts1 ++ pts2).
Proof.
  induction pts2 as [|pt pts2 IH]; intros o pts1 H; simpl.
  - now rewrite app_nil_r.
  - replace (pts1 ++ pt :: pts2) with ((pts1 ++ [pt]) ++ pts2)
      by (now rewrite <- app_assoc).
    apply IH. now apply step_sound.
Qed.

Lemma bySymbol_sound : forall s, sound (bySymbol s) (tagged s).
Proof.
  intro s. rewrite bySymbol_fold.
  apply (fold_step_sound (tagged s) [] []).
  repeat split; simpl; try constructor; contradiction.
Qed.

End AggregateFacts.

Section RowsFacts.

Lemma entries_perm : forall o,
  Permutation (List.map snd (index_entries o) ++ string_entries o)
              (List.map snd o).
Proof.
  induction o as [|[k a] o IH]; [constructor|].
  simpl. destruct (array_index k); simpl.
  - now constructor.
  - apply Permutation_sym, Permutation_cons_app, Permutation_sym, IH.
Qed.

Lemma Object_values_perm : forall o,
  Permutation (Object_values o) (List.map snd o).
Proof.
  intro o. unfold Object_values.
  rewrite <- entries_perm. apply Permutation_app_tail.
  apply Permutation_map, sort_perm.
Qed.

Lemma rows_in : forall s r,
  In r (rows s) <-> exists k a, In (k, a) (bySymbol s) /\ r = row_of a.
Proof.
  intros s r. unfold rows. rewrite in_map_iff. split.
  - intros (a & <- & I).
    apply (Permutation_in _ (Object_values_perm (bySymbol s))) in I.
    apply in_map_iff in I. destruct I as ([k a'] & <- & I).
    now exists k, a'.
  - intros (k & a & I & ->). exists a. split; [reflexivity|].
    apply (Permutation_in _ (Permutation_sym (Object_values_perm (bySymbol s)))).
    apply in_map_iff. now exists (k, a).
Qed.

Lemma tagged_in : forall s p t,
  In (p, t) (tagged s) <-> In t (tokens_of (snapshot_of s p)).
Proof.
  intros s p t. unfold tagged. simpl. rewrite app_nil_r, !in_app_iff.
  rewrite !in_map_iff. split.
  - intros [H|[H|[H|H]]]; destruct H as (u & E & I);
      injection E as <- <-; exact I.
  - intro I. destruct p;
      [left|right; left|right; right; left|right; right; right];
      now exists t.
Qed.

Lemma observed_in : forall k ts v,
  In v (observed k ts) ->
  exists t, In t ts /\ clean_symbol t = k /\ priceUSD t = v.
Proof.
  intros k ts v H. unfold observed in H. apply in_map_iff in H.
  destruct H as (t & E & I). apply filter_In in I. destruct I as [I C].
  apply string_eqb_eq in C. now exists t.
Qed.

Lemma includes_in : forall l s, includes l s = true <-> In s l.
Proof.
  intros l s. unfold includes. rewrite existsb_exists. split.
  - intros (x & I & E). apply string_eqb_eq in E. now subst.
  - intro I. exists s. split; [exact I|apply string_eqb_refl].
Qed.

(** A symbol as [add] cleans it has no lower-case ASCII letter, while
    every property name of [Object.prototype] has one: [bySymbol[sym]]
    only sees own properties. *)
Lemma upper_key_not_inherited : forall t,
  ~ In (clean_symbol t) Object_prototype_keys.
Proof.
  intros t I.
  assert (U : Forall (fun c => between 97 122 c = false) (clean_symbol t)).
  { unfold clean_symbol. apply Forall_trim. unfold toUpperCase.
    apply Forall_forall. intros c Hc. apply in_map_iff in Hc.
    destruct Hc as (d & <- & _). unfold toUpperCase_unit.
    destruct (between 97 122 d) eqn:E.
    - apply between_true in E. apply between_false. lia.
    - destruct (N.eqb_spec d long_s); [reflexivity|exact E]. }
  assert (L : forallb (existsb (between 97 122)) Object_prototype_keys = true)
    by reflexivity.
  rewrite forallb_forall in L. specialize (L _ I).
  apply existsb_exists in L. destruct L as (c & Ic & Hc).
  rewrite Forall_forall in U. rewrite (U c Ic) in Hc. discriminate.
Qed.

Lemma row_price : forall a,
  vals a <> [] ->
  exists m, median (vals a) = Some m /\ upper_median m (vals a)
    /\ price (row_of a) = if tooLarge (acc_symbol a) m then None else Some m.
Proof.
  intros a H. unfold median at 1. cbv zeta.
  destruct (median_index_some (JsArray.sort JsArray.num_le (vals a))) as [m Hm].
  { intro E. apply (f_equal (@List.length Q)) in E.
    rewrite sort_length in E. destruct (vals a); [contradiction|discriminate]. }
  exists m. split; [exact Hm|]. split.
  - now apply nth_error_sort_upper_median.
  - unfold row_of, median. cbv zeta. cbn [price]. now rewrite Hm.
Qed.

Lemma row_quotes : forall s r,
  In r (rows s) ->
  exists a, r = row_of a /\ acc_symbol a = row_symbol r
    /\ row_symbol r <> []
    /\ vals a = quotes s (row_symbol r) /\ vals a <> []
    /\ forall p v, get_protocol (row_byProtocol r) p = Some v ->
         exists t, In t (tokens_of (snapshot_of s p))
           /\ clean_symbol t = row_symbol r /\ priceUSD t = v.
Proof.
  intros s r I. apply rows_in in I. destruct I as (k & a & I & ->).
  destruct (bySymbol_sound s) as (_ & E & _).
  destruct (E k a I) as (Hk & Hs & Hv & Hn & Hp).
  exists a. simpl. rewrite Hs. repeat split; try assumption.
  intros p v Hq. destruct (Hp p v Hq) as (t & It & Ht).
  exists t. split; [now apply tagged_in|exact Ht].
Qed.

End RowsFacts.

(** C2: whichever snapshots are absent or failed, the aggregation
    returns (it is a total function of the four snapshots): there is
    exactly one row for every non-empty cleaned symbol of a token of a
    snapshot that is present, and no other row; a protocol with no
    snapshot, or a snapshot without tokens, leaves every row's column
    for it empty, adds no pool, and the result is the one obtained with
    an empty snapshot in its place. *)
Theorem aggregate_partial_failure : forall s,
  (forall p t, In t (tokens_of (snapshot_of s p)) -> clean_symbol t <> [] ->
     exists r, In r (rows s) /\ row_symbol r = clean_symbol t)
  /\ (forall r, In r (rows s) ->
        exists p t, In t (tokens_of (snapshot_of s p))
                    /\ clean_symbol t = row_symbol r)
  /\ NoDup (List.map row_symbol (rows s))
  /\ (forall p r, tokens_of (snapshot_of s p) = [] -> In r (rows s) ->
        get_protocol (row_byProtocol r) p = None)
  /\ pairs s
     = List.flat_map (fun p => pools_of (snapshot_of s p)) [uni; sushi; quick; cake]
  /\ (forall p, aggregate (set_snapshot s p None)
                = aggregate (set_snapshot s p (Some empty_snapshot)))
  /\ (forall p e, aggregate (set_snapshot s p None)
                  = aggregate (set_snapshot s p
                       (Some (mkSnapshot None None None None (Some e))))).
Proof.
  intro s. destruct (bySymbol_sound s) as (ND & E & C).
  split; [|split; [|split; [|split; [|split; [|split]]]]].
  - intros p t I Hne.
    assert (K : In (clean_symbol t) (okeys (bySymbol s))).
    { apply C; [|exact Hne]. apply in_map_iff. exists (p, t).
      split; [reflexivity|now apply tagged_in]. }
    unfold okeys in K. apply in_map_iff in K. destruct K as ([k a] & Ek & I').
    simpl in Ek. subst k. exists (row_of a). split.
    + apply rows_in. now exists (clean_symbol t), a.
    + simpl. now destruct (E _ _ I') as (_ & -> & _).
  - intros r I. destruct (row_quotes s r I) as (a & -> & _ & _ & Hv & Hn & _).
    destruct (vals a) as [|v vs] eqn:V; [contradiction|].
    assert (Iv : In v (quotes s (row_symbol (row_of a))))
      by (rewrite <- Hv; now left).
    destruct (observed_in _ _ _ Iv) as (t & It & Ht & _).
    apply in_map_iff in It. destruct It as ([p t'] & Et & It). simpl in Et.
    subst t'. exists p, t. split; [now apply tagged_in|exact Ht].
  - unfold rows. rewrite map_map.
    apply Permutation_NoDup
      with (l := List.map (fun a => row_symbol (row_of a))
                          (List.map snd (bySymbol s))).
    + apply Permutation_map, Permutation_sym, Object_values_perm.
    + rewrite map_map.
      replace (List.map (fun x => row_symbol (row_of (snd x))) (bySymbol s))
        with (okeys (bySymbol s)); [exact ND|].
      unfold okeys. apply map_ext_in. intros [k a] I. simpl.
      now destruct (E _ _ I) as (_ & -> & _).
  - intros p r Hp I.
    destruct (get_protocol (row_byProtocol r) p) as [v|] eqn:G; [|reflexivity].
    destruct (row_quotes s r I) as (a & _ & _ & _ & _ & _ & Hq).
    destruct (Hq p v G) as (t & It & _). rewrite Hp in It. contradiction.
  - unfold pairs. simpl. now rewrite app_nil_r.
  - intro p. destruct s, p; reflexivity.
  - intros p e. destruct s, p; reflexivity.
Qed.

(** C5: the price of a row is the median of the quotes of its symbol,
    set to [null] when that median exceeds 1,000,000 and the symbol is
    none of BTC, WBTC, TBTC, ETH, WETH, PAXG, RETH, STETH, WSTETH; an
    allow-listed symbol keeps its median.  BTC quoted 2,000,000 and
    2,100,000 gets a price; XYZ quoted 2,000,000 by every protocol that
    contributes gets [null]. *)
Theorem aggregate_suppression : forall s,
  (forall r, In r (rows s) ->
     exists m, upper_median m (quotes s (row_symbol r))
       /\ (Qlt 1000000 m -> ~ In (row_symbol r) allow_list -> price r = None)
       /\ (In (row_symbol r) allow_list -> price r = Some m)
       /\ (Qle m 1000000 -> price r = Some m))
  /\ allow_list = List.map lit ["BTC"; "WBTC"; "TBTC"; "ETH"; "WETH"; "PAXG";
                                "RETH"; "STETH"; "WSTETH"]%string
  /\ List.map (fun r => (row_symbol r, price r)) (rows btc_snapshots)
     = [(lit "BTC", Some 2100000%Q)]
  /\ List.map (fun r => (row_symbol r, price r)) (rows xyz_snapshots)
     = [(lit "XYZ", None)].
Proof.
  intro s. split; [|repeat split].
  intros r I. destruct (row_quotes s r I) as (a & -> & Hs & _ & Hv & Hn & _).
  destruct (row_price a Hn) as (m & _ & Hm & Hp).
  exists m. rewrite <- Hv. split; [exact Hm|].
  rewrite Hp, Hs. unfold tooLarge.
  destruct (Qle_bool m 1000000) eqn:B;
    destruct (includes allow_list (row_symbol (row_of a))) eqn:A; simpl.
  - apply Qle_bool_iff in B. repeat split; try reflexivity.
    intros L. exfalso. exact (Qlt_not_le _ _ L B).
  - apply Qle_bool_iff in B. repeat split; try reflexivity.
    intros L. exfalso. exact (Qlt_not_le _ _ L B).
  - apply includes_in in A. repeat split; try reflexivity.
    intros _ N. contradiction.
  - assert (N : ~ In (row_symbol (row_of a)) allow_list).
    { intro C. apply includes_in in C. congruence. }
    repeat split; try reflexivity.
    + intro C. contradiction.
    + intro L. apply Qle_bool_iff in L. congruence.
Qed.

(** C6 (as amended): a price that is not suppressed is the median of
    all quotes of the row's symbol over the snapshots present, taken as
    the element at index [floor(n / 2)] of their ascending arrangement:
    for an even number [n] of quotes, the upper of the two middle
    ones. *)
Theorem aggregate_price_upper_median : forall s r p,
  In r (rows s) -> price r = Some p ->
  upper_median p (quotes s (row_symbol r)).
Proof.
  intros s r p I P.
  destruct (row_quotes s r I) as (a & -> & Hs & _ & Hv & Hn & _).
  destruct (row_price a Hn) as (m & _ & Hm & Hp).
  rewrite Hp in P. destruct (tooLarge (acc_symbol a) m); [discriminate|].
  injection P as <-. now rewrite <- Hv.
Qed.

Lemma aggregate_price_upper_median_witness :
  upper_median 7%Q (quotes two_quotes (lit "UNI")).
Proof.
  apply (aggregate_price_upper_median two_quotes
           (mkRow (lit "UNI") (Some 7%Q) (mkBy (Some 5%Q) (Some 7%Q) None None))
           7%Q).
  - left. reflexivity.
  - reflexivity.
Defined.

(** C6 (as stated) fails: with the two quotes 5 and 7 the row's price
    is 7, while the lower-middle element of the ascending quotes is 5. *)
Lemma aggregate_price_not_lower_middle :
  rows two_quotes
  = [mkRow (lit "UNI") (Some 7%Q) (mkBy (Some 5%Q) (Some 7%Q) None None)]
  /\ quotes two_quotes (lit "UNI") = [5%Q; 7%Q]
  /\ lower_median 5%Q (quotes two_quotes (lit "UNI"))
  /\ ~ Qeq 7 5.
Proof.
  split; [reflexivity|]. split; [reflexivity|]. split; [|discriminate].
  exists [5%Q; 7%Q]. split; [reflexivity|]. split; [|reflexivity].
  repeat constructor. discriminate.
Qed.

(* ================================================================= *)
(** * genMock *)

Import Mock.

Example step_of_table :
  List.map step_of (List.map lit ["1m"; "5m"; "15m"; "4h"; "1d"; "1h"; "30m"]%string)
  = [60; 300; 900; 14400; 86400; 3600; 3600]%Z.
Proof. reflexivity. Qed.

Section MockFacts.

Local Open Scope Z_scope.

Lemma step_of_pos : forall interval, 0 < step_of interval.
Proof.
  intro interval. unfold step_of.
  repeat match goal with
         | |- context [if ?b then _ else _] => destruct b
         end; lia.
Qed.

Lemma walk_length : forall now step k seed price,
  List.length (walk now step k seed price) = k.
Proof.
  intros now step k. induction k as [|k IH]; intros seed price; [reflexivity|].
  cbn [walk]. unfold rand. cbn [List.length]. now rewrite IH.
Qed.

Lemma walk_time : forall now step k j seed price c,
  nth_error (walk now step k seed price) j = Some c ->
  time c = now - (Z.of_nat k - Z.of_nat j) * step.
Proof.
  intros now step k. induction k as [|k IH]; intros j seed price c H.
  - destruct j; discriminate.
  - cbn [walk] in H. unfold rand in H. destruct j as [|j].
    + cbn [nth_error] in H. injection H as <-. cbn [time].
      change (Z.of_nat 0) with 0. now rewrite Z.sub_0_r.
    + cbn [nth_error] in H. rewrite (IH _ _ _ _ H).
      replace (Z.of_nat (S k) - Z.of_nat (S j)) with (Z.of_nat k - Z.of_nat j) by lia.
      reflexivity.
Qed.

Lemma walk_shift : forall d now step k seed price,
  walk (now + d) step k seed price
  = List.map (shift d) (walk now step k seed price).
Proof.
  intros d now step k. induction k as [|k IH]; intros seed price; [reflexivity|].
  cbn [walk]. unfold rand. cbn [List.map]. rewrite IH. f_equal.
  unfold shift. cbn [time open high low close volume]. f_equal. lia.
Qed.

Lemma genMock_shift : forall d now symbol days interval,
  genMock (now + d) symbol days interval
  = List.map (shift d) (genMock now symbol days interval).
Proof.
  intros. unfold genMock, rand. apply walk_shift.
Qed.

Lemma spaced_ascending : forall step (l : list Z),
  0 < step ->
  (forall j a b, nth_error l j = Some a -> nth_error l (S j) = Some b ->
                 b - a = step) ->
  strictly_ascending l.
Proof.
  intros step l Hs. induction l as [|x l IH]; intro H; constructor.
  - apply IH. intros j a b Ha Hb. exact (H (S j) a b Ha Hb).
  - assert (IHl : strictly_ascending l).
    { apply IH. intros j a b Ha Hb. exact (H (S j) a b Ha Hb). }
    destruct l as [|y l]; [constructor|].
    assert (Hxy : y - x = step) by (apply (H 0%nat); reflexivity).
    constructor; [lia|].
    inversion IHl as [|? ? _ Hy]; subst.
    rewrite Forall_forall in *. intros z Hz. specialize (Hy z Hz). lia.
Qed.

Lemma genMock_length : forall now symbol days interval,
  List.length (genMock now symbol days interval)
  = turns (Math_min_1000 (Math_floor (days * 86400 / of_Z (step_of interval))%float)).
Proof.
  intros. unfold genMock, rand. apply walk_length.
Qed.

Lemma two_power_pos : forall p,
  (inject_Z (Z.pow 2 (Zpos p)) == Qpower 2 (Zpos p))%Q.
Proof.
  intro p. rewrite Qpower.Zpower_Qpower by lia. reflexivity.
Qed.

Lemma Math_floor_finite : forall x s m e,
  Prim2SF x = S754_finite s m e ->
  exists z v, Math_floor x = Int z /\ exact x = Finite v
              /\ (inject_Z z <= v)%Q /\ (v < inject_Z z + 1)%Q.
Proof.
  intros x s m e H. unfold Math_floor, exact. rewrite H.
  set (a := if s then Zneg m else Zpos m).
  assert (A : ((if s then - inject_Z (Zpos m) else inject_Z (Zpos m))
               == inject_Z a)%Q).
  { unfold a. destruct s; reflexivity. }
  eexists. eexists. split; [reflexivity|]. split; [reflexivity|].
  rewrite A. destruct e as [|p|p].
  - simpl Qpower. rewrite Z.mul_1_r, Qmult_1_r. split; [apply Qle_refl|].
    rewrite <- (Qplus_0_r (inject_Z a)) at 1. apply Qplus_lt_r. reflexivity.
  - rewrite <- two_power_pos, <- inject_Z_mult. split; [apply Qle_refl|].
    rewrite <- (Qplus_0_r (inject_Z _)) at 1. apply Qplus_lt_r. reflexivity.
  - change (Qpower 2 (Zneg p)) with (/ Qpower 2 (Zpos p))%Q.
    rewrite <- two_power_pos.
    assert (P : 0 < Z.pow 2 (Zpos p)) by (apply Z.pow_pos_nonneg; lia).
    set (d := Z.pow 2 (Zpos p)) in *.
    assert (Pq : (0 < inject_Z d)%Q)
      by (change 0%Q with (inject_Z 0); rewrite <- Zlt_Qlt; exact P).
    split.
    + apply Qle_shift_div_l; [exact Pq|]. rewrite <- inject_Z_mult, <- Zle_Qle.
      rewrite Z.mul_comm. apply Z.mul_div_le. exact P.
    + apply Qlt_shift_div_r; [exact Pq|].
      change 1%Q with (inject_Z 1).
      rewrite <- inject_Z_plus, <- inject_Z_mult, <- Zlt_Qlt.
      rewrite Z.mul_comm. replace (a / d + 1) with (Z.succ (a / d)) by lia.
      apply Z.mul_succ_div_gt. exact P.
Qed.

Lemma length_rule_turns : forall x,
  length_rule (exact x) (Z.of_nat (turns (Math_min_1000 (Math_floor x)))).
Proof.
  intro x. destruct (Prim2SF x) as [s|s| |s m e] eqn:E.
  - unfold exact, Math_floor. rewrite E. simpl.
    split; [reflexivity|]. split; intro H; exfalso; revert H; apply Qlt_not_le;
      reflexivity.
  - unfold exact, Math_floor. rewrite E. destruct s; reflexivity.
  - unfold exact, Math_floor. rewrite E. reflexivity.
  - destruct (Math_floor_finite _ _ _ _ E) as (z & v & -> & -> & L & U).
    cbn [Math_min_1000 turns length_rule].
    split; [|split].
    + intro H. assert (Z : z < 1).
      { rewrite Zlt_Qlt. eapply Qle_lt_trans; [exact L|exact H]. }
      lia.
    + intros H1 H2.
      assert (Z1 : 0 < z + 1).
      { rewrite Zlt_Qlt, inject_Z_plus.
        eapply Qlt_le_trans; [|eapply Qle_trans; [exact H1|apply Qlt_le_weak, U]].
        reflexivity. }
      assert (Z2 : z < 1000).
      { rewrite Zlt_Qlt. eapply Qle_lt_trans; [exact L|exact H2]. }
      replace (Z.of_nat (Z.to_nat (Z.min 1000 z))) with z by lia.
      now split.
    + intro H.
      assert (Z1 : 1000 < z + 1).
      { rewrite Zlt_Qlt, inject_Z_plus. eapply Qle_lt_trans; [exact H|exact U]. }
      lia.
Qed.

Lemma whole_days_in : forall count lo d,
  lo <= d < lo + Z.of_nat count -> In d (whole_days lo count).
Proof.
  induction count as [|k IH]; intros lo d H; [lia|].
  cbn [whole_days]. destruct (Z.eq_dec lo d) as [->|N]; [now left|].
  right. apply IH. lia.
Qed.

Lemma step_of_in : forall interval,
  In (step_of interval) [60; 300; 900; 14400; 86400; 3600].
Proof.
  intro interval. unfold step_of.
  repeat match goal with
         | |- context [if ?b then _ else _] => destruct b
         end; simpl; tauto.
Qed.

Lemma whole_days_table :
  forallb (fun d =>
    forallb (fun st =>
      Nat.eqb (turns (Math_min_1000 (Math_floor (of_Z d * 86400 / of_Z st)%float)))
              (Z.to_nat (Z.min 1000 (d * 86400 / st))))
      [60; 300; 900; 14400; 86400; 3600])
    (whole_days 0 1001) = true.
Proof. vm_compute. reflexivity. Qed.

End MockFacts.

(** C8 (as amended): [genMock] emits [min(1000, floor(days * 86400 /
    step))] candles, product and quotient being those of doubles, and
    none when that number is below 1 or is NaN; for a whole number of
    days up to 1000 the quotient is exact.  The [j]-th of the [n]
    candles is at [now - (n - j) * step], so that timestamps ascend
    strictly, exactly [step] apart; for BTC, one day and 1h that is 24
    candles 3600 seconds apart, for half a day 12, for 0.35 days 8 (and
    503 of one minute, the quotient of doubles being just below 504).
    The output is a function of its arguments and of the clock: at one
    clock reading two calls agree, and at another reading the same
    prices come with every timestamp moved by the difference of the
    readings. *)
Theorem genMock_length_and_times : forall now symbol days interval,
  let out := genMock now symbol days interval in
  let step := step_of interval in
  let n := Z.of_nat (List.length out) in
  length_rule (exact (days * 86400 / of_Z step)%float) n
  /\ (forall d, (0 <= d <= 1000)%Z ->
        List.length (genMock now symbol (of_Z d) interval)
        = Z.to_nat (Z.min 1000 (d * 86400 / step)))
  /\ (forall j c, nth_error out j = Some c ->
        time c = (now - (n - Z.of_nat j) * step)%Z)
  /\ (forall j a b, nth_error out j = Some a -> nth_error out (S j) = Some b ->
        (time b - time a)%Z = step)
  /\ strictly_ascending (List.map time out)
  /\ (List.length (genMock now (lit "BTC") 1 (lit "1h")) = 24%nat
      /\ step_of (lit "1h") = 3600%Z)
  /\ (List.length (genMock now (lit "BTC") 0.5 (lit "1h")) = 12%nat
      /\ List.length (genMock now (lit "BTC") 0.35 (lit "1h")) = 8%nat
      /\ List.length (genMock now (lit "BTC") 0.35 (lit "1m")) = 503%nat
      /\ List.length (genMock now (lit "BTC") 1.5 (lit "1d")) = 1%nat
      /\ List.length (genMock now (lit "BTC") 0.999 (lit "1d")) = 0%nat
      /\ List.length (genMock now (lit "BTC") 30 (lit "1m")) = 1000%nat
      /\ List.length (genMock now (lit "BTC") infinity (lit "1d")) = 1000%nat
      /\ List.length (genMock now (lit "BTC") nan (lit "1h")) = 0%nat)
  /\ (forall now', genMock now' symbol days interval
                   = List.map (shift (now' - now)) out).
Proof.
  intros now symbol days interval out step n.
  assert (L : List.length out
              = turns (Math_min_1000 (Math_floor (days * 86400 / of_Z step)%float)))
    by apply genMock_length.
  assert (T : forall j c, nth_error out j = Some c ->
                time c = (now - (n - Z.of_nat j) * step)%Z).
  { intros j c H. unfold n. rewrite L. unfold out, genMock, rand in H.
    exact (walk_time _ _ _ _ _ _ _ H). }
  assert (D : forall j a b, nth_error out j = Some a ->
                nth_error out (S j) = Some b -> (time b - time a)%Z = step).
  { intros j a b Ha Hb. rewrite (T _ _ Ha), (T _ _ Hb). lia. }
  split; [unfold n; rewrite L; apply length_rule_turns|].
  split.
  { intros d Hd. rewrite genMock_length.
    pose proof whole_days_table as W. rewrite forallb_forall in W.
    specialize (W d (whole_days_in 1001 0 d ltac:(lia))).
    rewrite forallb_forall in W. specialize (W _ (step_of_in interval)).
    now apply Nat.eqb_eq in W. }
  split; [exact T|]. split; [exact D|].
  split; [|split; [|split]].
  - apply spaced_ascending with (step := step); [apply step_of_pos|].
    intros j a b Ha Hb. rewrite nth_error_map in Ha, Hb.
    match type of Ha with option_map _ ?x = _ =>
      destruct x as [ca|] eqn:Ea; [|discriminate Ha] end.
    match type of Hb with option_map _ ?x = _ =>
      destruct x as [cb|] eqn:Eb; [|discriminate Hb] end.
    simpl in Ha, Hb. injection Ha as <-. injection Hb as <-. now apply (D j).
  - split; [|reflexivity]. rewrite genMock_length. vm_compute. reflexivity.
  - rewrite !genMock_length. repeat split; vm_compute; reflexivity.
  - intro now'. replace now' with (now + (now' - now))%Z at 1 by lia.
    apply genMock_shift.
Qed.

(** C8 (as stated) fails: the timestamps end at the clock, so two calls
    with the same arguments made a second apart differ; and a negative
    number of days gives no candle, not a negative length. *)
Lemma genMock_depends_on_clock :
  List.map time (firstn 2 (genMock 1700000000 (lit "BTC") 1 (lit "1h")))
  = [1699913600; 1699917200]%Z
  /\ List.map time (firstn 2 (genMock 1700000001 (lit "BTC") 1 (lit "1h")))
     = [1699913601; 1699917201]%Z
  /\ genMock 1700000000 (lit "BTC") 1 (lit "1h")
     <> genMock 1700000001 (lit "BTC") 1 (lit "1h")
  /\ List.length (genMock 1700000000 (lit "BTC") (-1) (lit "1h")) = 0%nat
  /\ Z.min 1000 (-1 * 86400 / step_of (lit "1h")) = (-24)%Z.
Proof.
  split; [vm_compute; reflexivity|]. split; [vm_compute; reflexivity|].
  split; [|split; reflexivity].
  intro E. apply (f_equal (fun l => List.map time (firstn 1 l))) in E.
  vm_compute in E. discriminate.
Qed.

(** C7 (the code breaks it): in [genMock("BTC", 1, "1h")], at any clock
    reading, the sixth candle closes above its [high]:
    open 98.9546, high 99.1421, low 98.7672, close 99.1484. *)
Theorem genMock_close_above_high : forall now,
  exists c,
    nth_error (genMock now (lit "BTC") 1 (lit "1h")) 5 = Some c
    /\ open c = 98.9546%float /\ high c = 99.1421%float
    /\ low c = 98.7672%float /\ close c = 99.1484%float
    /\ PrimFloat.ltb (high c) (close c) = true
    /\ PrimFloat.leb (low c) (open c) = true
    /\ PrimFloat.leb (open c) (high c) = true.
Proof.
  intro now.
  replace now with (0 + now)%Z by lia. rewrite genMock_shift.
  rewrite nth_error_map.
  assert (E : nth_error (genMock 0 (lit "BTC") 1 (lit "1h")) 5
              = Some (mkOHLC (-68400)%Z 98.9546%float 99.1421%float
                             98.7672%float 99.1484%float None))
    by (vm_compute; reflexivity).
  rewrite E. eexists. split; [reflexivity|].
  cbn [shift open high low close]. repeat split; vm_compute; reflexivity.
Qed.

(* ================================================================= *)
(** * Further properties of mergeHistories *)

Section MergeMore.

Lemma merge_bucket_shape : forall ts arr c,
  merge_bucket ts arr = Some c -> time c = ts /\ volume c = None.
Proof.
  intros ts arr c H. unfold merge_bucket in H.
  repeat match type of H with
         | match ?x with _ => _ end = _ => destruct x; try discriminate
         end.
  injection H as <-. split; reflexivity.
Qed.

Lemma merge_bucket_open : forall ts c0 rest,
  (forall c, In c (c0 :: rest) -> time c = ts) ->
  exists c, merge_bucket ts (c0 :: rest) = Some c /\ open c = open c0.
Proof.
  intros ts c0 rest Hts.
  destruct (merge_bucket_spec ts (c0 :: rest)) as (c & Hc & _);
    [discriminate|exact Hts|].
  exists c. split; [exact Hc|].
  unfold merge_bucket in Hc. rewrite (sort_same_time ts _ Hts) in Hc.
  cbn [nth_error] in Hc.
  repeat match type of Hc with
         | match ?x with _ => _ end = _ => destruct x; try discriminate
         end.
  injection Hc as <-. reflexivity.
Qed.

Lemma merge_all_in : forall b out c,
  merge_all b = Some out -> In c out ->
  exists ts arr, In (ts, arr) b /\ merge_bucket ts arr = Some c.
Proof.
  induction b as [|[ts arr] b IH]; intros out c H I; simpl in H.
  - injection H as <-. contradiction.
  - destruct (merge_bucket ts arr) as [d|] eqn:E; [|discriminate].
    destruct (merge_all b) as [rest|]; [|discriminate].
    injection H as <-. destruct I as [<-|I].
    + exists ts, arr. split; [now left|exact E].
    + destruct (IH rest c eq_refl I) as (ts' & arr' & I' & E').
      exists ts', arr'. split; [now right|exact E'].
Qed.

(** The structure of a merge: one candle per timestamp, each the merge
    of its bucket. *)
Lemma mergeHistories_structure : forall hs,
  exists out,
    mergeHistories hs = Some out
    /\ strictly_ascending (times out)
    /\ (forall ts, In ts (times out) <-> In ts (times (List.concat hs)))
    /\ (forall c, In c out ->
          merge_bucket (time c) (bucket_of (List.concat hs) (time c)) = Some c).
Proof.
  intro hs. destruct (buckets_hold hs) as (ND & K & B).
  destruct (merge_all_spec (buckets hs)) as (out & Ho & Hk & _).
  { intros ts arr I. rewrite (B ts arr I). split.
    - apply bucket_of_present. apply K.
      change ts with (fst (ts, arr)). now apply in_map.
    - apply bucket_of_time. }
  exists (JsArray.sort by_time out). unfold mergeHistories. rewrite Ho.
  split; [reflexivity|].
  split; [apply sort_by_time_strict; now rewrite Hk|]. split.
  - intro ts. rewrite <- K, <- Hk. unfold times. rewrite !in_map_iff.
    split; intros (c & E & I); exists c; (split; [exact E|]);
      now apply (sort_in by_time).
  - intros c I. apply (proj1 (sort_in by_time c out)) in I.
    destruct (merge_all_in _ _ _ Ho I) as (ts & arr & Ia & E).
    destruct (merge_bucket_shape _ _ _ E) as [Et _].
    rewrite Et, <- (B _ _ Ia). exact E.
Qed.

Lemma in_bucket_of : forall cs ts c, In c (bucket_of cs ts) -> In c cs.
Proof. intros cs ts c H. unfold bucket_of in H. now apply filter_In in H. Qed.

Lemma bucket_of_find : forall cs ts,
  hd_error (bucket_of cs ts) = find (fun c => Z.eqb (time c) ts) cs.
Proof.
  induction cs as [|c cs IH]; intro ts; [reflexivity|].
  simpl. destruct (Z.eqb (time c) ts); [reflexivity|apply IH].
Qed.

Lemma upper_median_in : forall m xs, upper_median m xs -> In m xs.
Proof.
  intros m xs (sorted & P & _ & N).
  apply (Permutation_in _ P). exact (nth_error_In _ _ N).
Qed.

Lemma mergeHistories_same_concat : forall a b,
  List.concat a = List.concat b -> mergeHistories a = mergeHistories b.
Proof.
  intros a b E. unfold mergeHistories, buckets.
  now rewrite !buckets_concat, E.
Qed.

End MergeMore.

(** X1: [mergeHistories] looks only at the candles in the order the
    histories list them, not at how they are divided among histories: an
    empty history, such as the one a failed source is replaced by,
    changes nothing wherever it stands. *)
Theorem mergeHistories_concat : forall hs,
  mergeHistories hs = mergeHistories [List.concat hs]
  /\ (forall h, mergeHistories ([] :: hs) = mergeHistories hs
                /\ mergeHistories (hs ++ [[]]) = mergeHistories hs
                /\ mergeHistories [h; []] = mergeHistories [h]
                /\ mergeHistories [[]; h] = mergeHistories [h]).
Proof.
  pose proof mergeHistories_same_concat as C.
  intro hs. split.
  - apply C. simpl. now rewrite app_nil_r.
  - intro h. repeat split; apply C; simpl;
      rewrite ?concat_app; simpl; now rewrite ?app_nil_r.
Qed.

(** X2: merging is idempotent: every input has a merge, and merging
    that result alone gives it back. *)
Theorem mergeHistories_idempotent : forall hs,
  exists out, mergeHistories hs = Some out /\ mergeHistories [out] = Some out.
Proof.
  intro hs. destruct (mergeHistories_structure hs) as (out & Ho & S & _ & M).
  exists out. split; [exact Ho|].
  rewrite mergeHistories_distinct.
  - simpl. rewrite app_nil_r.
    assert (E : List.map ohlc_only out = out).
    { rewrite <- (map_id out) at 2. apply map_ext_in. intros c I.
      destruct (merge_bucket_shape _ _ _ (M c I)) as [_ V].
      unfold ohlc_only. destruct c; simpl in *. now rewrite V. }
    rewrite E. f_equal. apply sort_of_sorted. now apply strict_by_time.
  - simpl. rewrite app_nil_r. now apply strict_nodup.
Qed.

(** X3: merging keeps the candle invariant: when every input candle has
    its open and close between its low and high, so has every merged
    candle. *)
Theorem mergeHistories_well_formed : forall hs,
  (forall h c, In h hs -> In c h -> well_formed c) ->
  exists out, mergeHistories hs = Some out /\ Forall well_formed out.
Proof.
  intros hs W. destruct (mergeHistories_structure hs) as (out & Ho & _ & T & M).
  exists out. split; [exact Ho|]. apply Forall_forall. intros c I.
  assert (Wc : forall x, In x (bucket_of (List.concat hs) (time c)) -> well_formed x).
  { intros x Ix. apply in_bucket_of in Ix. apply in_concat in Ix.
    destruct Ix as (h & Ih & Ixh). exact (W h x Ih Ixh). }
  pose proof (M c I) as E.
  destruct (bucket_of (List.concat hs) (time c)) as [|c0 rest] eqn:B.
  { exfalso. apply (bucket_of_present (List.concat hs) (time c)); [|exact B].
    apply T. unfold times. now apply in_map. }
  assert (Hts : forall x, In x (c0 :: rest) -> time x = time c)
    by (intro x; rewrite <- B; apply bucket_of_time).
  destruct (merge_bucket_spec (time c) (c0 :: rest)) as (c' & E' & _ & Hh & Hl & Hm);
    [discriminate|exact Hts|].
  destruct (merge_bucket_open (time c) c0 rest Hts) as (c'' & E'' & Ho').
  pose proof (eq_trans (eq_sym E) E') as X1. injection X1 as <-.
  pose proof (eq_trans (eq_sym E) E'') as X2. injection X2 as <-.
  destruct Hh as [_ Hh]. destruct Hl as [_ Hl].
  apply upper_median_in in Hm. apply in_map_iff in Hm.
  destruct Hm as (cx & Ex & Ix).
  destruct (Wc c0 (or_introl eq_refl)) as (A1 & A2 & _ & _).
  destruct (Wc cx Ix) as (_ & _ & A3 & A4).
  assert (L : forall x, In x (c0 :: rest) -> Qle (low c) (low x))
    by (intros x Ixx; apply Hl; now apply in_map).
  assert (U : forall x, In x (c0 :: rest) -> Qle (high x) (high c))
    by (intros x Ixx; apply Hh; now apply in_map).
  unfold well_formed. rewrite Ho', <- Ex. repeat split.
  - apply Qle_trans with (low c0); [apply L; now left|exact A1].
  - apply Qle_trans with (high c0); [exact A2|apply U; now left].
  - apply Qle_trans with (low cx); [now apply L|exact A3].
  - apply Qle_trans with (high cx); [exact A4|now apply U].
Qed.

Lemma mergeHistories_well_formed_witness :
  exists out, mergeHistories [[example_first]; [example_second]] = Some out
              /\ Forall well_formed out.
Proof.
  apply (mergeHistories_well_formed [[example_first]; [example_second]]).
  intros h c [<-|[<-|[]]] [<-|[]]; unfold well_formed; simpl;
    repeat split; discriminate.
Defined.

(** X4: the merged candle of a timestamp opens where the first candle
    with that timestamp, in the order of the input, opens. *)
Theorem mergeHistories_open_first : forall hs,
  exists out,
    mergeHistories hs = Some out
    /\ forall c, In c out ->
         exists first,
           find (fun x => Z.eqb (time x) (time c)) (List.concat hs) = Some first
           /\ open c = open first.
Proof.
  intro hs. destruct (mergeHistories_structure hs) as (out & Ho & _ & T & M).
  exists out. split; [exact Ho|]. intros c I.
  pose proof (M c I) as E. rewrite <- bucket_of_find.
  destruct (bucket_of (List.concat hs) (time c)) as [|c0 rest] eqn:B.
  { exfalso. apply (bucket_of_present (List.concat hs) (time c)); [|exact B].
    apply T. unfold times. now apply in_map. }
  exists c0. split; [reflexivity|].
  destruct (merge_bucket_open (time c) c0 rest) as (c' & E' & Ho').
  { intros x Ix. apply (bucket_of_time (List.concat hs)). rewrite B. exact Ix. }
  pose proof (eq_trans (eq_sym E) E') as X1. now injection X1 as <-.
Qed.

Section MedianUnique.

Lemma Permutation_filter_length : forall (A : Type) (f : A -> bool) l l',
  Permutation l l' ->
  List.length (filter f l) = List.length (filter f l').
Proof.
  intros A f l l' P. induction P as [|x l l' P IH|x y l|l l' l'' P1 IH1 P2 IH2];
    simpl.
  - reflexivity.
  - destruct (f x); simpl; now rewrite IH.
  - destruct (f x), (f y); reflexivity.
  - now rewrite IH1.
Qed.

Lemma Permutation_filter_perm : forall (A : Type) (f : A -> bool) l l',
  Permutation l l' -> Permutation (filter f l) (filter f l').
Proof.
  intros A f l l' P. induction P as [|x l l' P IH|x y l|l l' l'' P1 IH1 P2 IH2];
    simpl.
  - constructor.
  - destruct (f x); [now constructor|exact IH].
  - destruct (f x), (f y); try reflexivity. apply perm_swap.
  - now transitivity (filter f l').
Qed.

Lemma filter_length_le : forall (A : Type) (f : A -> bool) l,
  (List.length (filter f l) <= List.length l)%nat.
Proof.
  intros A f l. induction l as [|x l IH]; simpl; [lia|].
  destruct (f x); simpl; lia.
Qed.

Lemma filter_length_mono : forall (A : Type) (f g : A -> bool) l,
  (forall x, f x = true -> g x = true) ->
  (List.length (filter f l) <= List.length (filter g l))%nat.
Proof.
  intros A f g l H. induction l as [|x l IH]; simpl; [lia|].
  destruct (f x) eqn:F.
  - rewrite (H x F). simpl. lia.
  - destruct (g x); simpl; lia.
Qed.

Lemma filter_all : forall (A : Type) (f : A -> bool) l,
  Forall (fun x => f x = true) l -> filter f l = l.
Proof.
  intros A f l H. induction H as [|x l Hx _ IH]; [reflexivity|].
  simpl. now rewrite Hx, IH.
Qed.

Lemma filter_none : forall (A : Type) (f : A -> bool) l,
  Forall (fun x => f x = false) l -> filter f l = [].
Proof.
  intros A f l H. induction H as [|x l Hx _ IH]; [reflexivity|].
  simpl. now rewrite Hx, IH.
Qed.

Lemma sorted_around : forall l1 (m : Q) l2,
  ascending (l1 ++ m :: l2) ->
  Forall (fun x => Qle x m) l1 /\ Forall (fun x => Qle m x) l2.
Proof.
  unfold ascending. induction l1 as [|y l1 IH]; intros m l2 S; simpl in S.
  - split; [constructor|]. now inversion S.
  - inversion S as [|? ? S' F]; subst. destruct (IH _ _ S') as [A B].
    split; [|exact B]. constructor; [|exact A].
    rewrite Forall_forall in F. apply F. apply in_or_app. right. now left.
Qed.

(** In an ascending list, fewer than [k + 1] elements are below the
    element at index [k], and more than [k] are at most it. *)
Lemma sorted_nth_counts : forall l k m,
  ascending l -> nth_error l k = Some m ->
  (List.length (filter (fun x => negb (Qle_bool m x)) l) <= k
   /\ k < List.length (filter (fun x => Qle_bool x m) l))%nat.
Proof.
  intros l k m S N. destruct (nth_error_split l k N) as (l1 & l2 & -> & <-).
  destruct (sorted_around _ _ _ S) as [A B].
  rewrite !filter_app, !length_app. simpl.
  replace (Qle_bool m m) with true
    by (symmetry; apply Qle_bool_iff, Qle_refl).
  simpl. split.
  - rewrite (filter_none _ (fun x => negb (Qle_bool m x)) l2).
    + pose proof (filter_length_le _ (fun x => negb (Qle_bool m x)) l1).
      simpl. lia.
    + apply Forall_forall. intros x Ix. rewrite Forall_forall in B.
      apply negb_false_iff, Qle_bool_iff. now apply B.
  - rewrite (filter_all _ (fun x => Qle_bool x m) l1).
    + lia.
    + apply Forall_forall. intros x Ix. rewrite Forall_forall in A.
      apply Qle_bool_iff. now apply A.
Qed.

Lemma upper_median_le : forall m m' xs xs',
  upper_median m xs -> upper_median m' xs' -> Permutation xs xs' -> Qle m m'.
Proof.
  intros m m' xs xs' (s & P & S & N) (s' & P' & S' & N') PX.
  apply Qnot_lt_le. intro L.
  rewrite <- (Permutation_length PX) in N'.
  destruct (sorted_nth_counts _ _ _ S N) as [A _].
  destruct (sorted_nth_counts _ _ _ S' N') as [_ B].
  assert (PS : Permutation s' s).
  { transitivity xs'; [exact P'|]. transitivity xs; [now symmetry|now symmetry]. }
  rewrite (Permutation_filter_length _ _ _ _ PS) in B.
  pose proof (filter_length_mono _ (fun x => Qle_bool x m')
                (fun x => negb (Qle_bool m x)) s) as M.
  assert (Hm : forall x, Qle_bool x m' = true -> negb (Qle_bool m x) = true).
  { intros x Hx. apply Qle_bool_iff in Hx. apply negb_true_iff.
    destruct (Qle_bool m x) eqn:C; [|reflexivity].
    apply Qle_bool_iff in C. exfalso.
    apply (Qlt_irrefl m'). apply Qlt_le_trans with m; [exact L|].
    now apply Qle_trans with x. }
  specialize (M Hm). lia.
Qed.

(** The median the code takes does not depend on the order of the
    values: two of them are equal numbers. *)
Lemma upper_median_unique : forall m m' xs xs',
  upper_median m xs -> upper_median m' xs' -> Permutation xs xs' -> Qeq m m'.
Proof.
  intros m m' xs xs' H H' P. apply Qle_antisym.
  - exact (upper_median_le _ _ _ _ H H' P).
  - exact (upper_median_le _ _ _ _ H' H (Permutation_sym P)).
Qed.

Lemma greatest_unique : forall m m' xs xs',
  greatest m xs -> greatest m' xs' -> Permutation xs xs' -> Qeq m m'.
Proof.
  intros m m' xs xs' [I U] [I' U'] P. apply Qle_antisym.
  - apply U'. now apply (Permutation_in _ P).
  - apply U. now apply (Permutation_in _ (Permutation_sym P)).
Qed.

Lemma least_unique : forall m m' xs xs',
  least m xs -> least m' xs' -> Permutation xs xs' -> Qeq m m'.
Proof.
  intros m m' xs xs' [I U] [I' U'] P. apply Qle_antisym.
  - apply U. now apply (Permutation_in _ (Permutation_sym P)).
  - apply U'. now apply (Permutation_in _ P).
Qed.

Lemma strictly_ascending_unique : forall l l',
  strictly_ascending l -> strictly_ascending l' ->
  (forall x, In x l <-> In x l') -> l = l'.
Proof.
  intros l l' S. revert l'. induction S as [|x l S IH Hx]; intros l' S' H.
  - destruct l' as [|y l']; [reflexivity|].
    exfalso. apply (proj2 (H y)). now left.
  - destruct S' as [|y l' S' Hy].
    { exfalso. apply (proj1 (H x)). now left. }
    rewrite Forall_forall in Hx, Hy.
    assert (E : x = y).
    { destruct (proj1 (H x) (or_introl eq_refl)) as [E|I]; [now symmetry|].
      destruct (proj2 (H y) (or_introl eq_refl)) as [E|I']; [exact E|].
      specialize (Hx y I'). specialize (Hy x I). lia. }
    subst y. f_equal. apply IH; [exact S'|]. intro z. split; intro I.
    + destruct (proj1 (H z) (or_intror I)) as [E|I']; [|exact I'].
      subst z. specialize (Hx x I). lia.
    + destruct (proj2 (H z) (or_intror I)) as [E|I']; [|exact I'].
      subst z. specialize (Hy x I). lia.
Qed.

End MedianUnique.

(** X5: the merge has one candle per distinct timestamp of the input: as
    many as the input has distinct timestamps, never more than it has
    candles, and none exactly when the input has no candle. *)
Theorem mergeHistories_count : forall hs,
  exists out,
    mergeHistories hs = Some out
    /\ List.length out = List.length (nodup Z.eq_dec (times (List.concat hs)))
    /\ (List.length out <= List.length (List.concat hs))%nat
    /\ (out = [] <-> List.concat hs = []).
Proof.
  intro hs. destruct (mergeHistories_structure hs) as (out & Ho & S & T & _).
  exists out. split; [exact Ho|].
  assert (P : Permutation (times out) (nodup Z.eq_dec (times (List.concat hs)))).
  { apply NoDup_Permutation; [now apply strict_nodup|apply NoDup_nodup|].
    intro x. rewrite nodup_In. apply T. }
  assert (L : List.length out
              = List.length (nodup Z.eq_dec (times (List.concat hs)))).
  { rewrite <- (Permutation_length P). unfold times. now rewrite length_map. }
  split; [exact L|]. split.
  - rewrite L. replace (List.length (List.concat hs))
      with (List.length (times (List.concat hs)))
      by (unfold times; now rewrite length_map).
    apply NoDup_incl_length; [apply NoDup_nodup|].
    intros x Hx. now apply nodup_In in Hx.
  - split; intro E.
    + destruct (List.concat hs) as [|c cs]; [reflexivity|]. exfalso.
      assert (I : In (time c) (times out)) by (apply T; now left).
      rewrite E in I. contradiction.
    + destruct out as [|c out]; [reflexivity|]. exfalso.
      assert (I : In (time c) (times (List.concat hs))) by (apply T; now left).
      rewrite E in I. contradiction.
Qed.

(** X6: the order in which the sources list their candles only decides
    the [open] of a merged candle: inputs with the same candles in any
    order merge to the same timestamps with equal high, low and close. *)
Theorem mergeHistories_source_order : forall hs hs',
  Permutation (List.concat hs) (List.concat hs') ->
  exists out out',
    mergeHistories hs = Some out /\ mergeHistories hs' = Some out'
    /\ Forall2 same_range out out'.
Proof.
  intros hs hs' P.
  destruct (mergeHistories_structure hs) as (out & Ho & S & T & M).
  destruct (mergeHistories_structure hs') as (out' & Ho' & S' & T' & M').
  exists out, out'. split; [exact Ho|]. split; [exact Ho'|].
  assert (ET : times out = times out').
  { apply strictly_ascending_unique; [exact S|exact S'|].
    intro x. rewrite T, T'. unfold times. split; apply Permutation_in;
      [|apply Permutation_sym]; now apply Permutation_map. }
  assert (R : forall c c', In c out -> In c' out' -> time c = time c' ->
                same_range c c').
  { intros c c' I I' Et. split; [exact Et|].
    pose proof (M c I) as E. pose proof (M' c' I') as E'. rewrite <- Et in E'.
    assert (PB : Permutation (bucket_of (List.concat hs) (time c))
                             (bucket_of (List.concat hs') (time c)))
      by (now apply Permutation_filter_perm).
    assert (Ne : bucket_of (List.concat hs) (time c) <> []).
    { apply bucket_of_present, T. unfold times. now apply in_map. }
    assert (Ne' : bucket_of (List.concat hs') (time c) <> []).
    { intro Z0. rewrite Z0 in PB. apply Permutation_sym, Permutation_nil in PB.
      contradiction. }
    destruct (merge_bucket_spec (time c) _ Ne (bucket_of_time _ _))
      as (d & Ed & _ & Hh & Hl & Hm).
    destruct (merge_bucket_spec (time c) _ Ne' (bucket_of_time _ _))
      as (d' & Ed' & _ & Hh' & Hl' & Hm').
    pose proof (eq_trans (eq_sym E) Ed) as X1. injection X1 as <-.
    pose proof (eq_trans (eq_sym E') Ed') as X2. injection X2 as <-.
    split; [|split].
    - exact (greatest_unique _ _ _ _ Hh Hh' (Permutation_map high PB)).
    - exact (least_unique _ _ _ _ Hl Hl' (Permutation_map low PB)).
    - exact (upper_median_unique _ _ _ _ Hm Hm' (Permutation_map close PB)). }
  clear - ET R. revert out' ET R.
  induction out as [|c out IH]; intros [|c' out'] ET R; try discriminate.
  - constructor.
  - simpl in ET. injection ET as Et ET. constructor.
    + apply R; [now left|now left|exact Et].
    + apply IH; [exact ET|]. intros x x' I I'. apply R; now right.
Qed.

Lemma mergeHistories_source_order_witness :
  exists out out',
    mergeHistories [[example_first]; [example_second]] = Some out
    /\ mergeHistories [[example_second]; [example_first]] = Some out'
    /\ Forall2 same_range out out'.
Proof.
  apply (mergeHistories_source_order [[example_first]; [example_second]]
           [[example_second]; [example_first]]).
  apply perm_swap.
Defined.

(* ================================================================= *)
(** * The fetcher of useCoinHistory *)

(** X7: the live branch of the fetcher of [useCoinHistory] always
    resolves to a history with strictly ascending timestamps, those of
    the sources that answered; a source that is rejected counts as
    empty, so that one source alone is merged by itself and no source
    gives the empty history. *)
Theorem coin_history_partial_failure : forall now symbol days interval cg bin,
  (exists out,
     CoinHistory.fetcher now symbol days interval false cg bin
     = CoinHistory.LiveSeries (Some out)
     /\ strictly_ascending (times out)
     /\ forall ts, In ts (times out)
                   <-> In ts (times (CoinHistory.take cg ++ CoinHistory.take bin)))
  /\ CoinHistory.fetcher now symbol days interval false Rejected Rejected
     = CoinHistory.LiveSeries (Some [])
  /\ (forall h,
        CoinHistory.fetcher now symbol days interval false (Fulfilled h) Rejected
        = CoinHistory.LiveSeries (mergeHistories [h])
        /\ CoinHistory.fetcher now symbol days interval false Rejected (Fulfilled h)
           = CoinHistory.LiveSeries (mergeHistories [h])).
Proof.
  intros now symbol days interval cg bin. unfold CoinHistory.fetcher.
  split; [|split].
  - destruct (mergeHistories_structure [CoinHistory.take cg; CoinHistory.take bin])
      as (out & Ho & S & T & _).
    exists out. rewrite Ho. split; [reflexivity|]. split; [exact S|].
    intro ts. rewrite T. simpl. now rewrite app_nil_r.
  - reflexivity.
  - intro h. cbn [CoinHistory.take].
    split; f_equal; apply mergeHistories_same_concat; simpl;
      now rewrite ?app_nil_r.
Qed.

(* ================================================================= *)
(** * Further properties of normalizeSymbol *)

Section NormalizeMore.

Local Open Scope N_scope.

Lemma MAP_values_not_empty : forall s v,
  own_property MAP s = Some v ->
  is_empty (toUpperCase v) = false
  /\ forallb (fun c => negb (between 97 122 c)) (toUpperCase v) = true
  /\ JsString.eqb (trim (toUpperCase v)) (toUpperCase v) = true.
Proof.
  assert (F : forallb (fun kv =>
                (negb (is_empty (toUpperCase (snd kv)))
                 && forallb (fun c => negb (between 97 122 c)) (toUpperCase (snd kv))
                 && JsString.eqb (trim (toUpperCase (snd kv))) (toUpperCase (snd kv)))%bool)
                MAP = true) by (vm_compute; reflexivity).
  rewrite forallb_forall in F.
  assert (I : forall m s v, own_property m s = Some v -> exists k, In (k, v) m).
  { induction m as [|[k w] m IH]; intros s v H; [discriminate|].
    simpl in H. destruct (JsString.eqb s k).
    - injection H as ->. exists k. now left.
    - destruct (IH _ _ H) as [k' Hk']. exists k'. now right. }
  intros s v H. destruct (I _ _ _ H) as [k Hk]. specialize (F _ Hk).
  simpl in F. rewrite !andb_true_iff, negb_true_iff in F. tauto.
Qed.

Lemma basic_latin_toUpperCase : forall s,
  basic_latin s -> basic_latin (toUpperCase s).
Proof.
  intros s H. induction H as [|c s Hc _ IH]; [constructor|].
  simpl. constructor; [|exact IH]. unfold toUpperCase_unit.
  destruct (between 97 122 c) eqn:E.
  - apply between_true in E. lia.
  - destruct (N.eqb_spec c long_s); [reflexivity|exact Hc].
Qed.

Lemma MAP_values_ascii : forall s v,
  own_property MAP s = Some v -> basic_latin (toUpperCase v).
Proof.
  assert (F : forallb (fun kv =>
                forallb (fun c => N.ltb c 128) (toUpperCase (snd kv)))
                MAP = true) by (vm_compute; reflexivity).
  rewrite forallb_forall in F.
  assert (I : forall m s v, own_property m s = Some v -> exists k, In (k, v) m).
  { induction m as [|[k w] m IH]; intros s v H; [discriminate|].
    simpl in H. destruct (JsString.eqb s k).
    - injection H as ->. exists k. now left.
    - destruct (IH _ _ H) as [k' Hk']. exists k'. now right. }
  intros s v H. destruct (I _ _ _ H) as [k Hk]. specialize (F _ Hk).
  simpl in F. rewrite forallb_forall in F. apply Forall_forall.
  intros c Hc. now apply N.ltb_lt, F.
Qed.

Lemma toUpperCase_no_lower : forall s,
  forallb (fun c => negb (between 97 122 c)) (toUpperCase s) = true.
Proof.
  intro s. apply forallb_forall. intros c Hc. unfold toUpperCase in Hc.
  apply in_map_iff in Hc. destruct Hc as (d & <- & _).
  apply negb_true_iff. unfold toUpperCase_unit.
  destruct (between 97 122 d) eqn:E.
  - apply between_true in E. apply between_false. lia.
  - destruct (N.eqb_spec d long_s); [reflexivity|exact E].
Qed.

Lemma toLowerCase_no_upper : forall s,
  forallb (fun c => negb (between 65 90 c)) (toLowerCase s) = true.
Proof.
  intro s. apply forallb_forall. intros c Hc. unfold toLowerCase in Hc.
  apply in_map_iff in Hc. destruct Hc as (d & <- & _).
  apply negb_true_iff. unfold toLowerCase_unit.
  destruct (between 65 90 d) eqn:E; [|exact E].
  apply between_true in E. apply between_false. lia.
Qed.

Lemma map_eq_nil_inv : forall (f : code_unit -> code_unit) s,
  List.map f s = [] -> s = [].
Proof. intros f [|c s] H; [reflexivity|discriminate]. Qed.

Lemma ticker_not_empty : forall s, ticker_re s = true -> s <> [].
Proof. intros [|c s] H; [discriminate|discriminate]. Qed.

Lemma normalize_trimmed_cases : forall s,
  (address_re s = true /\ normalize_trimmed s = Return s)
  \/ (address_re s = false /\ normalize_trimmed s = Return (toUpperCase s)
      /\ own_property MAP s = None)
  \/ (address_re s = false
      /\ exists v, own_property MAP s = Some v
                   /\ normalize_trimmed s = Return (toUpperCase v))
  \/ (address_re s = false /\ own_property MAP s = None
      /\ includes Object_prototype_keys s = true
      /\ normalize_trimmed s = TypeError).
Proof.
  intro s. unfold normalize_trimmed, MAP_get.
  destruct (address_re s) eqn:A; [now left|]. right.
  destruct (own_property MAP s) as [v|] eqn:O.
  - right. left. split; [reflexivity|]. exists v. split; [reflexivity|].
    destruct (MAP_values_not_empty _ _ O) as (Ne & _).
    assert (T : truthy (PString v) = true).
    { simpl. destruct v; [discriminate Ne|reflexivity]. }
    rewrite T. now rewrite andb_false_r.
  - destruct (includes Object_prototype_keys s) eqn:P.
    + simpl. rewrite andb_false_r. right. right. now repeat split.
    + left. simpl. rewrite andb_true_r.
      destruct (ticker_re s); now repeat split.
Qed.

End NormalizeMore.

(** X8: [normalizeSymbol] returns the empty string exactly on the
    inputs that are empty once trimmed: every other input gives a
    non-empty symbol (or the [TypeError]). *)
Theorem normalizeSymbol_empty_iff_blank : forall input,
  normalizeSymbol input = Return [] <-> trim input = [].
Proof.
  intro input. unfold normalizeSymbol. split.
  - destruct (is_empty input) eqn:E.
    { destruct input; [reflexivity|discriminate]. }
    intro H.
    destruct (normalize_trimmed_cases (toLowerCase (trim input)))
      as [[A R]|[(A & R & _)|[(A & v & O & R)|(_ & _ & _ & R)]]];
      rewrite R in H; try discriminate.
    + injection H as H. rewrite H in A. discriminate.
    + injection H as H. apply map_eq_nil_inv in H.
      now apply map_eq_nil_inv in H.
    + injection H as H. destruct (MAP_values_not_empty _ _ O) as (Ne & _).
      rewrite H in Ne. discriminate.
  - intro T. destruct (is_empty input); [reflexivity|]. now rewrite T.
Qed.

(** X9: [normalizeSymbol] ignores surrounding white space and, on
    ASCII input, letter case: the trimmed, the lower-cased and the
    upper-cased input are normalised as the input is. *)
Theorem normalizeSymbol_case_and_space : forall s,
  normalizeSymbol (trim s) = normalizeSymbol s
  /\ (basic_latin s ->
      normalizeSymbol (toLowerCase s) = normalizeSymbol s
      /\ normalizeSymbol (toUpperCase s) = normalizeSymbol s).
Proof.
  intro s. split; [|intro H; split].
  - unfold normalizeSymbol. rewrite trim_idem.
    destruct (is_empty (trim s)) eqn:E.
    + assert (T : trim s = []) by (destruct (trim s); [reflexivity|discriminate]).
      rewrite T. destruct (is_empty s); reflexivity.
    + destruct s as [|c s]; [discriminate|reflexivity].
  - unfold normalizeSymbol. unfold toLowerCase at 1. rewrite is_empty_map.
    unfold toLowerCase at 2. rewrite trim_map by apply space_toLowerCase.
    fold (toLowerCase (trim s)). now rewrite toLowerCase_idem.
  - unfold normalizeSymbol. unfold toUpperCase at 1.
    rewrite is_empty_map. unfold toUpperCase.
    rewrite trim_map by apply space_toUpperCase.
    fold (toUpperCase (trim s)).
    now rewrite lower_upper by now apply basic_latin_trim.
Qed.

(** X10: on an ASCII input, a symbol [normalizeSymbol] returns is
    ASCII, has no white space at either end, and is either a lower-case
    address (the trimmed, lower-cased input) or free of the lower-case
    letters a to z. *)
Theorem normalizeSymbol_shape : forall input r,
  basic_latin input ->
  normalizeSymbol input = Return r ->
  basic_latin r
  /\ trim r = r
  /\ ((address_re r = true /\ r = toLowerCase (trim input))
      \/ forallb (fun c => negb (between 97 122 c)) r = true).
Proof.
  intros input r B H.
  assert (Bs : basic_latin (toLowerCase (trim input)))
    by now apply basic_latin_toLowerCase, basic_latin_trim.
  unfold normalizeSymbol in H.
  destruct (is_empty input) eqn:E.
  { injection H as <-. split; [constructor|]. split; [reflexivity|now right]. }
  destruct (normalize_trimmed_cases (toLowerCase (trim input)))
    as [[A R]|[(A & R & _)|[(A & v & O & R)|(_ & _ & _ & R)]]];
    rewrite R in H; try discriminate; injection H as <-.
  - split; [exact Bs|].
    split; [apply trim_no_space, address_no_space, A|]. left. now split.
  - split; [now apply basic_latin_toUpperCase|].
    split; [|right; apply toUpperCase_no_lower].
    unfold toUpperCase. rewrite trim_map by apply space_toUpperCase.
    f_equal. unfold toLowerCase. rewrite trim_map by apply space_toLowerCase.
    now rewrite trim_idem.
  - destruct (MAP_values_not_empty _ _ O) as (_ & L & T).
    split; [exact (MAP_values_ascii _ _ O)|].
    split; [now apply string_eqb_eq|now right].
Qed.

Lemma normalizeSymbol_shape_witness :
  basic_latin (lit "DOGE")
  /\ trim (lit "DOGE") = lit "DOGE"
  /\ ((address_re (lit "DOGE") = true
       /\ lit "DOGE" = toLowerCase (trim (lit " dogecoin ")))
      \/ forallb (fun c => negb (between 97 122 c)) (lit "DOGE") = true).
Proof.
  apply (normalizeSymbol_shape (lit " dogecoin ") (lit "DOGE")).
  - unfold basic_latin. repeat constructor.
  - reflexivity.
Defined.

(** X11: on an ASCII input, [normalizeSymbol] throws exactly when the
    trimmed, lower-cased input is [constructor] or [__proto__], the two
    names [MAP] inherits that are their own lower-case form. *)
Theorem normalizeSymbol_throws_iff : forall input,
  basic_latin input ->
  normalizeSymbol input = TypeError
  <-> (toLowerCase (trim input) = lit "constructor"
       \/ toLowerCase (trim input) = lit "__proto__").
Proof.
  intros input _. unfold normalizeSymbol. split.
  - destruct (is_empty input); [discriminate|]. intro H.
    destruct (normalize_trimmed_cases (toLowerCase (trim input)))
      as [[A R]|[(A & R & _)|[(A & v & O & R)|(_ & _ & P & _)]]];
      try (rewrite R in H; discriminate).
    apply includes_in in P.
    pose proof (toLowerCase_no_upper (trim input)) as U.
    remember (toLowerCase (trim input)) as s. clear - P U.
    unfold Object_prototype_keys in P. simpl in P.
    destruct P as [P|[P|[P|[P|[P|[P|[P|[P|[P|[P|[P|[P|[]]]]]]]]]]]]];
      subst s; try (now left); try (now right);
      vm_compute in U; discriminate.
  - intros [H|H].
    + destruct input as [|c input]; [discriminate H|].
      simpl is_empty. cbv iota. now rewrite H.
    + destruct input as [|c input]; [discriminate H|].
      simpl is_empty. cbv iota. now rewrite H.
Qed.

Lemma normalizeSymbol_throws_iff_witness :
  normalizeSymbol (lit " Constructor ") = TypeError
  <-> (toLowerCase (trim (lit " Constructor ")) = lit "constructor"
       \/ toLowerCase (trim (lit " Constructor ")) = lit "__proto__").
Proof.
  apply (normalizeSymbol_throws_iff (lit " Constructor ")).
  unfold basic_latin. repeat constructor.
Defined.

(* ================================================================= *)
(** * The adapters of lib/history.ts *)

Import HistoryAdapters.

Section AdapterFacts.

Local Open Scope N_scope.

Lemma upper_alnum_fixed : forall c,
  is_upper_alnum c = true -> toUpperCase_unit c = c.
Proof.
  intros c H. unfold is_upper_alnum in H.
  rewrite orb_true_iff, !between_true in H. unfold toUpperCase_unit.
  replace (between 97 122 c) with false
    by (symmetry; apply between_false; lia).
  destruct (N.eqb_spec c long_s) as [E|_]; [|reflexivity].
  unfold long_s in E. lia.
Qed.

Lemma guess_of_upper_alnum : forall r,
  forallb is_upper_alnum r = true -> guessBinanceSymbol r = r ++ lit "USDT".
Proof.
  intros r H. unfold guessBinanceSymbol. f_equal.
  rewrite forallb_forall in H.
  assert (U : toUpperCase r = r).
  { unfold toUpperCase. rewrite <- (map_id r) at 2. apply map_ext_in.
    intros c Hc. apply upper_alnum_fixed. now apply H. }
  rewrite U. apply filter_all. apply Forall_forall. exact H.
Qed.

Lemma letters_upper_alnum : forall s,
  forallb is_letter s = true -> forallb is_upper_alnum (toUpperCase s) = true.
Proof.
  intros s H. rewrite forallb_forall in *. intros c Hc.
  unfold toUpperCase in Hc. apply in_map_iff in Hc.
  destruct Hc as (d & <- & Hd). specialize (H d Hd).
  unfold is_letter in H. rewrite orb_true_iff, !between_true in H.
  unfold toUpperCase_unit, is_upper_alnum.
  destruct (between 97 122 d) eqn:E.
  - apply between_true in E. apply orb_true_iff. left.
    apply between_true. lia.
  - apply between_false in E.
    destruct (N.eqb_spec d long_s) as [Ed|_]; [unfold long_s in Ed; lia|].
    apply orb_true_iff. left. apply between_true. lia.
Qed.

Lemma ticker_not_address : forall s, ticker_re s = true -> address_re s = false.
Proof.
  intros [|z [|x digits]] H; try reflexivity.
  unfold ticker_re in H. rewrite !andb_true_iff in H.
  destruct H as [_ H]. simpl in H. apply andb_true_iff in H.
  destruct H as [Hz _]. unfold is_letter in Hz.
  rewrite orb_true_iff, !between_true in Hz. simpl.
  destruct (N.eqb_spec z 48) as [E|_]; [lia|reflexivity].
Qed.

Lemma MAP_values_upper_alnum : forall s v,
  own_property MAP s = Some v ->
  forallb is_upper_alnum (toUpperCase v) = true.
Proof.
  assert (F : forallb (fun kv => forallb is_upper_alnum (toUpperCase (snd kv)))
                MAP = true) by (vm_compute; reflexivity).
  rewrite forallb_forall in F.
  assert (I : forall m s v, own_property m s = Some v -> exists k, In (k, v) m).
  { induction m as [|[k w] m IH]; intros s v H; [discriminate|].
    simpl in H. destruct (JsString.eqb s k).
    - injection H as ->. exists k. now left.
    - destruct (IH _ _ H) as [k' Hk']. exists k'. now right. }
  intros s v H. destruct (I _ _ _ H) as [k Hk]. exact (F _ Hk).
Qed.

Lemma area_candles_flat : forall ps, Forall flat (List.map area_candle ps).
Proof.
  induction ps as [|p ps IH]; simpl; constructor; [|exact IH].
  repeat split.
Qed.

Lemma fetchCandlesCoingecko_flat_aux : forall symbol search chart l,
  fetchCandlesCoingecko symbol search chart = Fulfilled (Some l) ->
  l <> [] /\ Forall flat l.
Proof.
  intros symbol search chart l H. unfold fetchCandlesCoingecko in H.
  destruct (resolveCoingeckoId symbol search) as [[id|]|]; try discriminate.
  destruct chart as [[o p]|]; [|discriminate]. simpl in H.
  destruct o; [|discriminate]. simpl in H.
  destruct p as [[|pt prices]|]; try discriminate.
  injection H as <-. split; [discriminate|].
  apply (area_candles_flat (pt :: prices)).
Qed.

End AdapterFacts.

(** X12: for every symbol, the market [guessBinanceSymbol] names ends
    in USDT and consists of the characters A to Z and 0 to 9 only; for
    an ASCII symbol what precedes USDT is no longer than the symbol,
    and it is the upper-cased symbol itself when that has only ASCII
    letters and digits. *)
Theorem guessBinanceSymbol_shape : forall sym,
  exists base,
    guessBinanceSymbol sym = base ++ lit "USDT"
    /\ forallb is_upper_alnum base = true
    /\ forallb is_upper_alnum (guessBinanceSymbol sym) = true
    /\ (basic_latin sym -> (List.length base <= List.length sym)%nat)
    /\ (forallb (fun c => (is_upper_alnum c || between 97 122 c)%bool) sym = true ->
        base = toUpperCase sym).
Proof.
  intro sym. unfold guessBinanceSymbol.
  assert (F : forallb is_upper_alnum (filter is_upper_alnum (toUpperCase sym))
              = true).
  { apply forallb_forall. intros c Hc. now apply filter_In in Hc. }
  exists (filter is_upper_alnum (toUpperCase sym)).
  split; [reflexivity|]. split; [exact F|]. split; [|split].
  - rewrite forallb_app. apply andb_true_iff. split; [exact F|reflexivity].
  - intros _.
    pose proof (filter_length_le _ is_upper_alnum (toUpperCase sym)) as L.
    unfold toUpperCase in L at 2. now rewrite length_map in L.
  - intro H. apply filter_all. apply Forall_forall.
    intros c Hc. unfold toUpperCase in Hc. apply in_map_iff in Hc.
    destruct Hc as (d & <- & Hd). rewrite forallb_forall in H.
    specialize (H d Hd). apply orb_true_iff in H. destruct H as [H|H].
    + now rewrite upper_alnum_fixed.
    + unfold toUpperCase_unit. rewrite H. apply between_true in H.
      unfold is_upper_alnum. apply orb_true_iff. left.
      apply between_true. lia.
Qed.

(** X13: for an input shaped like a ticker or a name (two to eight
    ASCII letters once trimmed), the market asked of Binance for the
    normalised symbol is that symbol followed by USDT. *)
Theorem normalized_ticker_market : forall input r,
  ticker_re (toLowerCase (trim input)) = true ->
  normalizeSymbol input = Return r ->
  guessBinanceSymbol r = r ++ lit "USDT".
Proof.
  intros input r T H. unfold normalizeSymbol in H.
  destruct (is_empty input) eqn:E.
  { destruct input; [discriminate T|discriminate E]. }
  pose proof (ticker_not_address _ T) as NA.
  destruct (normalize_trimmed_cases (toLowerCase (trim input)))
    as [[A R]|[(A & R & _)|[(A & v & O & R)|(_ & _ & _ & R)]]];
    rewrite R in H; try discriminate; try congruence; injection H as <-.
  - apply guess_of_upper_alnum, letters_upper_alnum.
    unfold ticker_re in T. rewrite !andb_true_iff in T. tauto.
  - apply guess_of_upper_alnum. exact (MAP_values_upper_alnum _ _ O).
Qed.

Lemma normalized_ticker_market_witness :
  guessBinanceSymbol (lit "BTC") = lit "BTC" ++ lit "USDT".
Proof.
  apply (normalized_ticker_market (lit " Bitcoin") (lit "BTC")); reflexivity.
Defined.

(** X14: the interval sent to Binance is the given one when it is one of
    1m, 5m, 30m, 1h, 1d, and 1h for every other string, except for the
    names inherited from [Object.prototype], where the lookup finds a
    function or an object in place of an interval. *)
Theorem binanceInterval_default : forall interval,
  (In interval binance_intervals -> binanceInterval interval = PString interval)
  /\ (~ In interval binance_intervals ->
      ~ In interval Object_prototype_keys ->
      binanceInterval interval = PString (lit "1h"))
  /\ (In interval Object_prototype_keys -> binanceInterval interval = PInherited).
Proof.
  intro interval. unfold binanceInterval.
  assert (O : forall v, own_property BINANCE_INTERVAL_MAP interval = Some v ->
                v = interval /\ In interval binance_intervals).
  { intros v H. unfold BINANCE_INTERVAL_MAP in H. simpl in H.
    repeat match type of H with
           | (if JsString.eqb ?a ?b then _ else _) = _ =>
               destruct (JsString.eqb a b) eqn:E;
               [apply string_eqb_eq in E; injection H as <-; subst interval;
                split; [reflexivity|simpl; tauto]|clear E]
           end.
    discriminate. }
  assert (N : own_property BINANCE_INTERVAL_MAP interval = None ->
              ~ In interval binance_intervals).
  { intros H I. unfold binance_intervals in I. simpl in I.
    destruct I as [I|[I|[I|[I|[I|[]]]]]]; subst interval; discriminate H. }
  split; [|split].
  - intro I. destruct (own_property BINANCE_INTERVAL_MAP interval) as [v|] eqn:E.
    + destruct (O v eq_refl) as [-> _]. reflexivity.
    + exfalso. now apply N.
  - intros NI NP.
    destruct (own_property BINANCE_INTERVAL_MAP interval) as [v|] eqn:E.
    + exfalso. apply NI. now destruct (O v eq_refl).
    + destruct (includes Object_prototype_keys interval) eqn:P; [|reflexivity].
      apply includes_in in P. contradiction.
  - intro I. destruct (own_property BINANCE_INTERVAL_MAP interval) as [v|] eqn:E.
    + exfalso. destruct (O v eq_refl) as [_ B]. clear - I B.
      unfold binance_intervals in B. simpl in B.
      destruct B as [B|[B|[B|[B|[B|[]]]]]]; subst interval;
        vm_compute in I; intuition discriminate.
    + apply includes_in in I. now rewrite I.
Qed.

(** X15: [fetchCandlesCoingecko] never answers with an empty array (no
    data is [null]); the candles it answers with are the price points
    of the chart in their order, each at the whole second of its
    millisecond stamp and flat: open, high, low and close are the one
    price, the volume is 0. *)
Theorem fetchCandlesCoingecko_flat : forall symbol search chart l,
  fetchCandlesCoingecko symbol search chart = Fulfilled (Some l) ->
  l <> []
  /\ Forall flat l
  /\ exists prices,
       chart = Fulfilled (mkResponse true (Some prices))
       /\ l = List.map area_candle prices
       /\ List.map time l = List.map (fun p => Z.div (fst p) 1000) prices
       /\ List.map close l = List.map snd prices.
Proof.
  intros symbol search chart l H. unfold fetchCandlesCoingecko in H.
  destruct (resolveCoingeckoId symbol search) as [[id|]|]; try discriminate.
  destruct chart as [[o p]|]; [|discriminate]. simpl in H.
  destruct o; [|discriminate]. simpl in H.
  destruct p as [[|pt prices]|]; try discriminate.
  injection H as <-. split; [discriminate|]. split.
  - apply (area_candles_flat (pt :: prices)).
  - exists (pt :: prices). split; [reflexivity|]. split; [reflexivity|].
    change (area_candle pt :: List.map area_candle prices)
      with (List.map area_candle (pt :: prices)).
    rewrite !map_map. split; reflexivity.
Qed.

Lemma fetchCandlesCoingecko_flat_witness :
  let l := [mkOHLC 1700000000 (5 # 2)%Q (5 # 2)%Q (5 # 2)%Q (5 # 2)%Q (Some 0%Q)] in
  l <> []
  /\ Forall flat l
  /\ exists prices,
       Fulfilled (mkResponse true (Some [(1700000000999%Z, (5 # 2)%Q)]))
       = Fulfilled (mkResponse true (Some prices))
       /\ l = List.map area_candle prices
       /\ List.map time l = List.map (fun p => Z.div (fst p) 1000) prices
       /\ List.map close l = List.map snd prices.
Proof.
  apply (fetchCandlesCoingecko_flat (lit "doge")
           (Fulfilled (mkResponse true
              (Some [mkCoin (Some (lit "dogecoin")) (Some (lit "DOGE"))])))
           (Fulfilled (mkResponse true (Some [(1700000000999%Z, (5 # 2)%Q)])))).
  reflexivity.
Defined.

(** X16: with [fetchCandlesCoingecko] as its CoinGecko adapter,
    [getCandles] returns either the candles Binance gave (at least
    one), or flat candles of the CoinGecko chart, or nothing. *)
Theorem getCandles_sources : forall bin search chart symbol interval days,
  exists l,
    snd (getCandles (network bin search chart) symbol interval days) = Fulfilled l
    /\ ((bin = Fulfilled (Some l) /\ l <> [])
        \/ (l <> [] /\ Forall flat l
            /\ fetchCandlesCoingecko symbol search chart = Fulfilled (Some l))
        \/ l = []).
Proof.
  intros bin search chart symbol interval days.
  unfold getCandles, bind, catch_null, call, ret, network. simpl.
  destruct bin as [[[|c cs]|]|]; simpl;
    try (eexists; split; [reflexivity|]; left; split; [reflexivity|discriminate]);
    destruct (fetchCandlesCoingecko symbol search chart) as [[l|]|] eqn:F; simpl;
    eexists; (split; [reflexivity|]);
    try (right; right; reflexivity);
    right; left;
    destruct (fetchCandlesCoingecko_flat_aux symbol search chart l F) as [A B];
    now repeat split.
Qed.

(* ================================================================= *)
(** * Further properties of the aggregation *)

Section AggregateMore.

Lemma tooLarge_compat : forall sym m m',
  Qeq m m' -> tooLarge sym m = tooLarge sym m'.
Proof.
  intros sym m m' E. unfold tooLarge. f_equal. f_equal.
  apply Qleb_comp; [exact E|reflexivity].
Qed.

Lemma in_first_seen : forall x l, In x (first_seen l) <-> In x l.
Proof.
  intros x l. unfold first_seen.
  rewrite <- in_rev, nodup_In, <- in_rev. tauto.
Qed.

Lemma first_seen_snoc : forall l x,
  first_seen (l ++ [x])
  = if in_dec (list_eq_dec N.eq_dec) x l then first_seen l
    else first_seen l ++ [x].
Proof.
  intros l x. unfold first_seen. rewrite rev_app_distr. simpl.
  destruct (in_dec (list_eq_dec N.eq_dec) x (rev l)) as [I|I];
    destruct (in_dec (list_eq_dec N.eq_dec) x l) as [J|J];
    try reflexivity.
  - exfalso. apply J. now apply in_rev.
  - exfalso. apply I. now apply in_rev in J.
Qed.

Lemma fold_left_snoc : forall (A B : Type) (f : A -> B -> A) l x a,
  fold_left f (l ++ [x]) a = f (fold_left f l a) x.
Proof. intros. now rewrite fold_left_app. Qed.

Lemma step_okeys : forall o pt,
  okeys (step o pt)
  = if is_empty (clean_symbol (snd pt)) then okeys o
    else match lookup o (clean_symbol (snd pt)) with
         | Some _ => okeys o
         | None => okeys o ++ [clean_symbol (snd pt)]
         end.
Proof.
  intros o [p t]. unfold step, add_token. simpl.
  destruct (is_empty (clean_symbol t)); [reflexivity|].
  rewrite update_keys. destruct (lookup o (clean_symbol t)); [reflexivity|].
  unfold okeys. rewrite map_app. reflexivity.
Qed.

Lemma fold_step_okeys : forall pts,
  okeys (fold_left step pts []) = first_seen (syms pts).
Proof.
  intro pts. induction pts as [|pt pts IH] using rev_ind; [reflexivity|].
  rewrite fold_left_snoc, step_okeys. unfold syms in *.
  rewrite map_app, filter_app. simpl.
  destruct (is_empty (clean_symbol (snd pt))) eqn:E; simpl.
  - now rewrite app_nil_r.
  - rewrite first_seen_snoc.
    destruct (lookup (fold_left step pts []) (clean_symbol (snd pt))) eqn:L.
    + destruct (in_dec _ _ _) as [I|I]; [exact IH|].
      exfalso. apply I. apply in_first_seen. rewrite <- IH.
      destruct (in_dec (list_eq_dec N.eq_dec) (clean_symbol (snd pt))
                  (okeys (fold_left step pts []))) as [J|J]; [exact J|].
      apply lookup_none in J. congruence.
    + destruct (in_dec _ _ _) as [I|I]; [|now rewrite IH].
      exfalso. apply in_first_seen in I. rewrite <- IH in I.
      apply lookup_none in L. contradiction.
Qed.

Lemma string_entries_keys : forall o,
  (forall k a, In (k, a) o -> acc_symbol a = k) ->
  List.map acc_symbol (string_entries o)
  = filter (fun k => negb (is_index k)) (okeys o).
Proof.
  induction o as [|[k a] o IH]; intro H; [reflexivity|].
  simpl. unfold is_index at 1.
  assert (IH' : List.map acc_symbol (string_entries o)
                = filter (fun k => negb (is_index k)) (okeys o)).
  { apply IH. intros k' a' I. apply H. now right. }
  destruct (array_index k); simpl; [exact IH'|].
  rewrite IH'. f_equal. apply H. now left.
Qed.

Lemma index_entries_keys : forall o,
  (forall k a, In (k, a) o -> acc_symbol a = k) ->
  List.map (fun e => acc_symbol (snd e)) (index_entries o)
  = filter is_index (okeys o)
  /\ forall e, In e (index_entries o) -> fst e = decimal (acc_symbol (snd e)).
Proof.
  induction o as [|[k a] o IH]; intro H; [split; [reflexivity|intros e []]|].
  destruct IH as [IH1 IH2]; [intros k' a' I; apply H; now right|].
  assert (Ea : acc_symbol a = k) by (apply H; now left).
  simpl. unfold is_index at 1. destruct (array_index k) as [i|] eqn:A; simpl.
  - split; [now rewrite IH1, Ea|]. intros e [<-|I]; [|now apply IH2].
    simpl. rewrite Ea. unfold array_index in A. destruct k; [discriminate|].
    destruct (_ && _ && _)%bool; [now injection A as <-|discriminate].
  - split; assumption.
Qed.

Lemma index_le_total : forall x y : N * Acc,
  index_le x y = false -> index_le y x = true.
Proof.
  unfold index_le. intros x y H. apply N.leb_le. apply N.leb_gt in H. lia.
Qed.

Lemma index_le_trans : forall x y z : N * Acc,
  index_le x y = true -> index_le y z = true -> index_le x z = true.
Proof. unfold index_le. intros x y z. rewrite !N.leb_le. lia. Qed.

End AggregateMore.

(** X17: the price of a row depends only on which quotes its symbol got,
    not on their order or on the protocols they came from: two
    aggregations in which a symbol has the same quotes give it equal
    prices (or suppress both). *)
Theorem aggregate_price_order_free : forall s s' r r',
  In r (rows s) -> In r' (rows s') -> row_symbol r = row_symbol r' ->
  Permutation (quotes s (row_symbol r)) (quotes s' (row_symbol r')) ->
  same_price (price r) (price r').
Proof.
  intros s s' r r' I I' E P.
  destruct (row_quotes s r I) as (a & -> & Hs & _ & Hv & Hn & _).
  destruct (row_quotes s' r' I') as (a' & -> & Hs' & _ & Hv' & Hn' & _).
  destruct (row_price a Hn) as (m & _ & Hm & Hp).
  destruct (row_price a' Hn') as (m' & _ & Hm' & Hp').
  rewrite Hv in Hm. rewrite Hv' in Hm'.
  pose proof (upper_median_unique _ _ _ _ Hm Hm' P) as Q.
  rewrite Hp, Hp', Hs, Hs', E, (tooLarge_compat _ _ _ Q).
  unfold same_price. destruct (tooLarge _ m'); [constructor|exact Q].
Qed.

Lemma aggregate_price_order_free_witness :
  same_price (Some 7%Q) (Some 7%Q).
Proof.
  apply (aggregate_price_order_free two_quotes swapped_quotes
           (mkRow (lit "UNI") (Some 7%Q) (mkBy (Some 5%Q) (Some 7%Q) None None))
           (mkRow (lit "UNI") (Some 7%Q) (mkBy None (Some 7%Q) (Some 5%Q) None))).
  - left. reflexivity.
  - left. reflexivity.
  - reflexivity.
  - apply perm_swap.
Defined.

(** X18: the rows come in the order [Object.values] lists the symbols:
    first the symbols that read as array indices (canonical decimals
    below 2^32 - 1), by ascending value, then every other symbol where
    it first occurred among the tokens, protocol after protocol. *)
Theorem rows_order : forall s,
  let seen := first_seen (symbols s) in
  exists idx,
    List.map row_symbol (rows s)
    = idx ++ filter (fun k => negb (is_index k)) seen
    /\ Permutation idx (filter is_index seen)
    /\ StronglySorted (fun a b => (decimal a <= decimal b)%N) idx
    /\ ((forall k, In k seen -> is_index k = false) ->
        List.map row_symbol (rows s) = seen).
Proof.
  intros s seen.
  destruct (bySymbol_sound s) as (_ & E & _).
  assert (A : forall k a, In (k, a) (bySymbol s) -> acc_symbol a = k).
  { intros k a I. now destruct (E k a I) as (_ & H & _). }
  assert (K : okeys (bySymbol s) = seen).
  { rewrite bySymbol_fold. apply fold_step_okeys. }
  destruct (index_entries_keys _ A) as [I1 I2].
  set (sorted := JsArray.sort index_le (index_entries (bySymbol s))).
  assert (R : List.map row_symbol (rows s)
              = List.map (fun e => acc_symbol (snd e)) sorted
                ++ filter (fun k => negb (is_index k)) seen).
  { unfold rows, Object_values. rewrite !map_app, !map_map. f_equal.
    now rewrite <- K, <- (string_entries_keys _ A). }
  exists (List.map (fun e => acc_symbol (snd e)) sorted).
  split; [exact R|]. split; [|split].
  - rewrite <- K, <- I1. apply Permutation_map. apply sort_perm.
  - pose proof (sort_sorted index_le index_le_total index_le_trans
                  (index_entries (bySymbol s))) as S.
    fold sorted in S.
    assert (F : forall e, In e sorted -> fst e = decimal (acc_symbol (snd e))).
    { intros e I. apply I2. now apply (proj1 (sort_in index_le e _)). }
    clear - S F. induction S as [|x l S IH Hx]; simpl; constructor.
    + apply IH. intros e I. apply F. now right.
    + apply Forall_forall. intros k Hk. apply in_map_iff in Hk.
      destruct Hk as (y & <- & Hy). rewrite Forall_forall in Hx.
      specialize (Hx y Hy). unfold index_le in Hx. apply N.leb_le in Hx.
      rewrite <- (F x), <- (F y); [exact Hx|now right|now left].
  - intro N0. rewrite R.
    assert (Z0 : filter is_index seen = []).
    { apply filter_none. apply Forall_forall. exact N0. }
    assert (Z1 : List.map (fun e => acc_symbol (snd e)) sorted = []).
    { apply Permutation_nil. rewrite <- Z0, <- K, <- I1.
      apply Permutation_map, Permutation_sym, sort_perm. }
    rewrite Z1. simpl. apply filter_all. apply Forall_forall.
    intros k Hk. now rewrite (N0 k Hk).
Qed.

Section ColumnFacts.

Lemma protocol_eqb_eq : forall p q, protocol_eqb p q = true <-> p = q.
Proof. intros [] []; simpl; split; intro H; try reflexivity; discriminate. Qed.

Lemma last_of_snoc : forall l v, last_of (l ++ [v]) = Some v.
Proof.
  intros l v. unfold last_of. rewrite length_app. simpl.
  replace (List.length l + 1 - 1)%nat with (List.length l) by lia.
  rewrite nth_error_app2 by lia. now rewrite Nat.sub_diag.
Qed.

Lemma get_set_same : forall b p v, get_protocol (set_protocol b p v) p = Some v.
Proof. intros b [] v; reflexivity. Qed.

Lemma get_set_other : forall b p q v,
  p <> q -> get_protocol (set_protocol b p v) q = get_protocol b q.
Proof. intros b [] [] v H; try reflexivity; contradiction. Qed.

Lemma observed_app_full : forall k l1 l2,
  observed k (l1 ++ l2) = observed k l1 ++ observed k l2.
Proof. intros. unfold observed. now rewrite filter_app, map_app. Qed.

(** The entries of [bySymbol] after one more token. *)
Lemma step_entries : forall o q t k a,
  NoDup (okeys o) -> In (k, a) (step o (q, t)) ->
  (In (k, a) o /\ (clean_symbol t = [] \/ clean_symbol t <> k))
  \/ (clean_symbol t = k /\ k <> []
      /\ exists a0,
           a = mkAcc (acc_symbol a0) (vals a0 ++ [priceUSD t])
                     (set_protocol (byProtocol a0) q (priceUSD t))
           /\ (In (k, a0) o
               \/ (a0 = mkAcc k [] (mkBy None None None None)
                   /\ ~ In k (okeys o)))).
Proof.
  intros o q t k a ND I. unfold step, add_token in I. simpl in I.
  destruct (is_empty (clean_symbol t)) eqn:Em.
  - left. split; [exact I|]. left.
    destruct (clean_symbol t); [reflexivity|discriminate].
  - set (sym := clean_symbol t) in *.
    assert (Hsym : sym <> []) by (intros Z0; rewrite Z0 in Em; discriminate).
    destruct (lookup o sym) as [x|] eqn:L.
    + destruct (update_in _ _ _ _ _ ND I) as [[N I']|[-> (a0 & I' & ->)]].
      * left. split; [exact I'|]. right. congruence.
      * right. split; [reflexivity|]. split; [exact Hsym|].
        exists a0. split; [reflexivity|now left].
    + pose proof (proj1 (lookup_none o sym) L) as F.
      assert (ND1 : NoDup (okeys (o ++ [(sym, mkAcc sym [] (mkBy None None None None))]))).
      { unfold okeys. rewrite map_app. simpl.
        apply Permutation_NoDup with (l := sym :: List.map fst o).
        - apply Permutation_cons_append.
        - now constructor. }
      destruct (update_in _ _ _ _ _ ND1 I) as [[N I']|[-> (a0 & I' & ->)]].
      * apply in_app_iff in I'. destruct I' as [I'|[I'|[]]].
        -- left. split; [exact I'|]. right. congruence.
        -- injection I' as <- _. contradiction.
      * right. split; [reflexivity|]. split; [exact Hsym|].
        exists a0. split; [reflexivity|].
        apply in_app_iff in I'. destruct I' as [I'|[I'|[]]]; [now left|].
        injection I' as <-. right. now split.
Qed.

Lemma step_columns : forall o pts pt,
  sound o pts -> columns_hold o pts ->
  columns_hold (step o pt) (pts ++ [pt]).
Proof.
  intros o pts [q t] (ND & E & C) H k a I p.
  rewrite filter_app, map_app, observed_app_full.
  destruct (step_entries _ _ _ _ _ ND I) as [[Io Hk]|(Ek & Hne & a0 & -> & Ha0)].
  - destruct (E k a Io) as (Kne & _).
    assert (Nk : clean_symbol t <> k)
      by (destruct Hk as [Z0|N]; [congruence|exact N]).
    rewrite (H k a Io p). simpl.
    destruct (protocol_eqb q p); unfold observed at 3; simpl;
      [|now rewrite app_nil_r].
    replace (JsString.eqb (clean_symbol t) k) with false
      by (symmetry; now apply string_eqb_neq).
    now rewrite app_nil_r.
  - simpl. destruct (protocol_eqb q p) eqn:Q; unfold observed at 2; simpl.
    + apply protocol_eqb_eq in Q. subst p.
      rewrite Ek, string_eqb_refl. simpl.
      now rewrite get_set_same, last_of_snoc.
    + rewrite app_nil_r.
      rewrite get_set_other
        by (intro X; apply protocol_eqb_eq in X; congruence).
      destruct Ha0 as [Io|[-> Fresh]]; [now apply H|].
      simpl. rewrite observed_none; [now destruct p|].
      intros u Iu Eu. apply Fresh. rewrite <- Eu. apply C.
      * apply in_map_iff in Iu. destruct Iu as (pu & <- & Ipu).
        apply filter_In in Ipu. apply in_map. tauto.
      * now rewrite Eu.
Qed.

Lemma fold_step_columns : forall pts2 o pts1,
  sound o pts1 -> columns_hold o pts1 ->
  columns_hold (fold_left step pts2 o) (pts1 ++ pts2).
Proof.
  induction pts2 as [|pt pts2 IH]; intros o pts1 S H; simpl.
  - now rewrite app_nil_r.
  - replace (pts1 ++ pt :: pts2) with ((pts1 ++ [pt]) ++ pts2)
      by (now rewrite <- app_assoc).
    apply IH; [now apply step_sound|now apply step_columns].
Qed.

Lemma tagged_of_protocol : forall s p,
  List.map snd (filter (fun pt => protocol_eqb (fst pt) p) (tagged s))
  = tokens_of (snapshot_of s p).
Proof.
  assert (Y : forall q l,
            List.map snd (filter (fun pt : protocol * TokenPrice =>
                                    protocol_eqb (fst pt) q)
                            (List.map (Datatypes.pair q) l)) = l).
  { intros q l. induction l as [|t l IH]; [reflexivity|].
    simpl. replace (protocol_eqb q q) with true by (now destruct q).
    simpl. now rewrite IH. }
  assert (N0 : forall q r l, q <> r ->
            filter (fun pt : protocol * TokenPrice => protocol_eqb (fst pt) r)
                   (List.map (Datatypes.pair q) l) = []).
  { intros q r l H. induction l as [|t l IH]; [reflexivity|].
    simpl. replace (protocol_eqb q r) with false; [exact IH|].
    destruct q, r; try reflexivity; contradiction. }
  intros s p. unfold tagged. simpl. rewrite app_nil_r, !filter_app.
  assert (D : forall q r (l : list TokenPrice), protocol_eqb q r = false ->
            filter (fun pt : protocol * TokenPrice => protocol_eqb (fst pt) r)
                   (List.map (Datatypes.pair q) l) = []).
  { intros q r l H. apply N0. intro X. apply protocol_eqb_eq in X. congruence. }
  destruct p; simpl;
    rewrite ?(D uni), ?(D sushi), ?(D quick), ?(D cake) by reflexivity;
    rewrite ?app_nil_r; simpl; apply Y.
Qed.

End ColumnFacts.

(** X19: the column of a protocol in a row holds the last price that
    protocol quoted for the row's symbol (a later token of the same
    symbol overwrites an earlier one), and is empty when it quoted
    none; the median, for its part, counts every quote. *)
Theorem row_columns_last_quote : forall s r p,
  In r (rows s) ->
  get_protocol (row_byProtocol r) p
  = last_of (observed (row_symbol r) (tokens_of (snapshot_of s p))).
Proof.
  intros s r p I. apply rows_in in I. destruct I as (k & a & I & ->).
  destruct (bySymbol_sound s) as (_ & E & _).
  destruct (E k a I) as (_ & Hs & _).
  assert (H : columns_hold (bySymbol s) (tagged s)).
  { rewrite bySymbol_fold. apply (fold_step_columns (tagged s) [] []).
    - repeat split; simpl; try constructor; contradiction.
    - intros k' a' []. }
  simpl. rewrite Hs, <- tagged_of_protocol. now apply H.
Qed.

Lemma row_columns_last_quote_witness :
  Some 9%Q = last_of (observed (lit "UNI") (tokens_of (snapshot_of repeated_quotes uni))).
Proof.
  apply (row_columns_last_quote repeated_quotes
           (mkRow (lit "UNI") (Some 9%Q) (mkBy (Some 9%Q) None None None)) uni).
  left. reflexivity.
Defined.

(* ================================================================= *)
(** * The dashboard components *)

Import Markets.

Section MarketsFacts.

Lemma starts_with_refl : forall s, starts_with s s = true.
Proof.
  induction s as [|c s IH]; [reflexivity|].
  simpl. now rewrite N.eqb_refl, IH.
Qed.

Lemma str_includes_refl : forall s, str_includes s s = true.
Proof. intros [|c s]; simpl; [reflexivity|]. now rewrite N.eqb_refl, starts_with_refl. Qed.

Lemma numbers_in : forall l x, In x (numbers l) <-> In (Some x) l.
Proof.
  induction l as [|[y|] l IH]; intro x; simpl.
  - tauto.
  - rewrite IH. split; intros [H|H]; auto; left; congruence.
  - rewrite IH. split; [auto|]. intros [H|H]; [discriminate|exact H].
Qed.

Lemma sorted_ends : forall l : list Q,
  ascending l -> l <> [] ->
  exists lo hi,
    nth_error l 0 = Some lo /\ nth_error l (List.length l - 1) = Some hi
    /\ least lo l /\ greatest hi l.
Proof.
  intros l S Hne. destruct l as [|x l]; [contradiction|].
  destruct (nth_error (x :: l) (List.length (x :: l) - 1)) as [hi|] eqn:Eh.
  2:{ apply nth_error_None in Eh. simpl in Eh. lia. }
  exists x, hi. split; [reflexivity|]. split; [reflexivity|]. split.
  - split; [now left|]. intros y [<-|Iy]; [apply Qle_refl|].
    inversion S as [|? ? _ F]; subst. rewrite Forall_forall in F. now apply F.
  - split; [exact (nth_error_In _ _ Eh)|].
    destruct (nth_error_split _ _ Eh) as (l1 & l2 & El & Len).
    assert (L2 : l2 = []).
    { apply (f_equal (@List.length Q)) in El. rewrite length_app in El.
      simpl in El, Len. destruct l2; [reflexivity|]. simpl in El. lia. }
    subst l2. rewrite El in S |- *.
    destruct (sorted_around _ _ _ S) as [A _]. rewrite Forall_forall in A.
    intros y Iy. apply in_app_iff in Iy.
    destruct Iy as [Iy|[<-|[]]]; [now apply A|apply Qle_refl].
Qed.

End MarketsFacts.

(** X20: the cards always show numbers: with no data or no priced row
    they show 0 four times; otherwise the count of priced rows, their
    least and greatest price and, between the two, the element at index
    [floor(n / 2)] of the ascending prices. *)
Theorem stats_of_rows : forall data,
  exists med hi lo,
    stats data = mkStats (count (stats data)) (Some med) (Some hi) (Some lo)
    /\ Qle lo med /\ Qle med hi
    /\ match data with
       | None => stats data = no_stats
       | Some d =>
           count (stats data) = List.length (priced (fst d))
           /\ (priced (fst d) = [] -> stats data = no_stats)
           /\ (priced (fst d) <> [] ->
               least lo (priced (fst d)) /\ greatest hi (priced (fst d))
               /\ upper_median med (priced (fst d)))
       end.
Proof.
  intros [d|]; [|exists 0%Q, 0%Q, 0%Q; repeat split; apply Qle_refl].
  unfold stats. fold (priced (fst d)).
  destruct (priced (fst d)) as [|x l] eqn:P.
  { exists 0%Q, 0%Q, 0%Q. simpl.
    split; [reflexivity|]. split; [apply Qle_refl|]. split; [apply Qle_refl|].
    split; [reflexivity|]. split; [reflexivity|]. intro C. contradiction. }
  cbn [List.length Nat.eqb]. cbv zeta.
  set (sorted := JsArray.sort JsArray.num_le (x :: l)).
  assert (Ne : sorted <> []).
  { intro E. apply (f_equal (@List.length Q)) in E. unfold sorted in E.
    rewrite sort_length in E. discriminate. }
  pose proof (num_sort_ascending (x :: l)) as S. fold sorted in S.
  destruct (sorted_ends sorted S Ne) as (lo & hi & E0 & E1 & Hlo & Hhi).
  destruct (median_index_some sorted Ne) as [med Em].
  assert (Im : In med sorted) by exact (nth_error_In _ _ Em).
  assert (PS : Permutation sorted (x :: l)) by apply sort_perm.
  exists med, hi, lo. rewrite Em, E1, E0. cbn [count].
  split; [reflexivity|]. split; [now apply Hlo|]. split; [now apply Hhi|].
  split; [reflexivity|]. split; [discriminate|]. intros _. split; [|split].
  - destruct Hlo as [I L]. split; [now apply (Permutation_in _ PS)|].
    intros y Iy. apply L. now apply (Permutation_in _ (Permutation_sym PS)).
  - destruct Hhi as [I U]. split; [now apply (Permutation_in _ PS)|].
    intros y Iy. apply U. now apply (Permutation_in _ (Permutation_sym PS)).
  - apply nth_error_sort_upper_median. exact Em.
Qed.

(** X21: the search box: a blank query keeps every row; any other keeps,
    in their order, exactly the rows whose symbol contains the trimmed,
    upper-cased query; and the ASCII symbol of a token, typed as the
    snapshot spells it, always finds the row of that token. *)
Theorem filtered_search : forall s query,
  let data := Some (aggregate s) in
  (trim query = [] -> filtered data query = rows s)
  /\ (forall r, In r (filtered data query) -> In r (rows s))
  /\ (trim query <> [] ->
      filtered data query
      = filter (fun r => str_includes (row_symbol r) (toUpperCase (trim query)))
               (rows s))
  /\ (forall p t, In t (tokens_of (snapshot_of s p)) ->
      basic_latin (symbol t) -> clean_symbol t <> [] ->
      exists r, In r (filtered data (symbol t))
                /\ row_symbol r = clean_symbol t).
Proof.
  intros s query data. unfold data, filtered, aggregate. cbn [fst].
  assert (Q0 : is_empty (toUpperCase (trim query)) = is_empty (trim query))
    by apply is_empty_map.
  split; [|split; [|split]].
  - intro T. now rewrite Q0, T.
  - intros r I. destruct (is_empty (toUpperCase (trim query))); [exact I|].
    now apply filter_In in I.
  - intro T. rewrite Q0. destruct (trim query); [contradiction|reflexivity].
  - intros p t I _ Hne.
    assert (C : toUpperCase (trim (symbol t)) = clean_symbol t).
    { unfold clean_symbol, toUpperCase.
      now rewrite trim_map by apply space_toUpperCase. }
    rewrite C.
    destruct (bySymbol_sound s) as (_ & E & K).
    assert (Ik : In (clean_symbol t) (okeys (bySymbol s))).
    { apply K; [|exact Hne]. apply in_map_iff. exists (p, t).
      split; [reflexivity|now apply tagged_in]. }
    unfold okeys in Ik. apply in_map_iff in Ik.
    destruct Ik as ([k a] & Ek & Ia). simpl in Ek. subst k.
    assert (Es : acc_symbol a = clean_symbol t)
      by (now destruct (E _ _ Ia) as (_ & H & _)).
    exists (row_of a). split; [|exact Es].
    assert (Ir : In (row_of a) (rows s))
      by (apply rows_in; now exists (clean_symbol t), a).
    destruct (is_empty (clean_symbol t)); [exact Ir|].
    apply filter_In. split; [exact Ir|].
    cbn [row_symbol row_of]. rewrite Es. apply str_includes_refl.
Qed.

Section TableFacts.

Variable localeCompare : jsstring -> jsstring -> Z.

Lemma stays_before_total : forall dir x y,
  stays_before localeCompare ByPriceKey dir x y = false ->
  stays_before localeCompare ByPriceKey dir y x = true.
Proof.
  intros dir x y. unfold stays_before.
  destruct (price x) as [a|], (price y) as [b|], dir;
    try discriminate; try reflexivity; apply num_le_total.
Qed.

Lemma stays_before_trans : forall dir x y z,
  stays_before localeCompare ByPriceKey dir x y = true ->
  stays_before localeCompare ByPriceKey dir y z = true ->
  stays_before localeCompare ByPriceKey dir x z = true.
Proof.
  intros dir x y z. unfold stays_before.
  destruct (price x) as [a|], (price y) as [b|], (price z) as [c|], dir;
    try discriminate; try reflexivity; intros H1 H2.
  - exact (num_le_trans _ _ _ H1 H2).
  - exact (num_le_trans _ _ _ H2 H1).
Qed.

End TableFacts.

(** X22: sorting the table by price keeps every row once; upwards the
    rows without a price come first and the priced ones follow by
    ascending price, downwards the priced rows come by descending price
    and the rows without a price last. *)
Theorem sorted_by_price : forall localeCompare rows,
  let up := sorted localeCompare rows ByPriceKey Ascending in
  let down := sorted localeCompare rows ByPriceKey Descending in
  Permutation up rows
  /\ StronglySorted (fun a b => price_below (price a) (price b)) up
  /\ Permutation down rows
  /\ StronglySorted (fun a b => price_below (price b) (price a)) down.
Proof.
  intros localeCompare rows up down. unfold up, down, sorted.
  split; [apply sort_perm|]. split; [|split; [apply sort_perm|]].
  - pose proof (sort_sorted _ (stays_before_total localeCompare Ascending)
                  (stays_before_trans localeCompare Ascending) rows) as S.
    induction S as [|x l S IH Hx]; constructor; [exact IH|].
    rewrite Forall_forall in *. intros y Hy. specialize (Hx y Hy).
    unfold stays_before in Hx. unfold price_below.
    destruct (price x), (price y); try discriminate; try exact I.
    now apply Qle_bool_iff.
  - pose proof (sort_sorted _ (stays_before_total localeCompare Descending)
                  (stays_before_trans localeCompare Descending) rows) as S.
    induction S as [|x l S IH Hx]; constructor; [exact IH|].
    rewrite Forall_forall in *. intros y Hy. specialize (Hx y Hy).
    unfold stays_before in Hx. unfold price_below.
    destruct (price x), (price y); try discriminate; try exact I.
    now apply Qle_bool_iff.
Qed.

(* ================================================================= *)
(** * Further properties of genMock *)

Section MockMore.

Lemma walk_prices_prefix : forall n k k' now now' step step' seed price,
  (n <= k)%nat -> (n <= k')%nat ->
  firstn n (List.map prices (walk now step k seed price))
  = firstn n (List.map prices (walk now' step' k' seed price)).
Proof.
  induction n as [|n IH]; intros k k' now now' step step' seed price H H';
    [reflexivity|].
  destruct k as [|k]; [lia|]. destruct k' as [|k']; [lia|].
  cbn [walk]. unfold rand. cbn [List.map firstn prices open high low close].
  f_equal. apply IH; lia.
Qed.

Lemma char_codes_plain : forall s,
  no_surrogate s -> char_codes s = List.map Z.of_N s.
Proof.
  intros s H. induction H as [|c s Hc Hs IH]; [reflexivity|].
  simpl. rewrite Hc. simpl. destruct s as [|d s]; [reflexivity|].
  now rewrite IH.
Qed.

Lemma fold_add_sum : forall l a,
  fold_left Z.add l a = (a + fold_left Z.add l 0)%Z.
Proof.
  induction l as [|x l IH]; intro a; simpl; [lia|].
  rewrite IH, (IH x). lia.
Qed.

Lemma fold_add_perm : forall l l' a,
  Permutation l l' -> fold_left Z.add l a = fold_left Z.add l' a.
Proof.
  intros l l' a P. revert a.
  induction P as [|x l l' P IH|x y l|l l' l'' P1 IH1 P2 IH2]; intro a; simpl.
  - reflexivity.
  - apply IH.
  - f_equal. lia.
  - now rewrite IH1.
Qed.

Lemma binary_round_aux_nonneg : forall m e l,
  nonneg_sf (binary_round_aux prec emax false m e l) = true.
Proof.
  intros m e l. unfold binary_round_aux.
  destruct (shr_fexp prec emax m e l) as [mrs' e'].
  destruct (shr_fexp prec emax _ e' loc_Exact) as [mrs'' e''].
  destruct (shr_m mrs''); [reflexivity| |reflexivity].
  destruct (Z.leb _ _); reflexivity.
Qed.

Lemma of_uint63_nonneg : forall i, nonneg_sf (Prim2SF (of_uint63 i)) = true.
Proof.
  intro i. rewrite FloatAxioms.of_uint63_spec.
  pose proof (Uint63.to_Z_bounded i) as B.
  unfold binary_normalize.
  destruct (Uint63Axioms.to_Z i) as [|p|p] eqn:E; [reflexivity| |].
  - unfold binary_round. destruct (shl_align _ _ _) as [mz ez].
    apply binary_round_aux_nonneg.
  - exfalso. change (Uint63Axioms.to_Z i) with (Uint63.to_Z i) in E. lia.
Qed.

Lemma div_nonneg : forall x m e,
  nonneg_sf x = true ->
  nonneg_sf (SF64div x (S754_finite false m e)) = true.
Proof.
  intros x m e H. unfold SF64div, SFdiv.
  destruct x as [s|s| |s mx ex]; try reflexivity;
    try (destruct s; [discriminate H|reflexivity]).
  destruct s; [discriminate H|]. cbn [xorb].
  destruct (SFdiv_core_binary _ _ _ _ _ _) as [[mz ez] lz].
  apply binary_round_aux_nonneg.
Qed.

Lemma ten_thousand : Prim2SF 10000%float = S754_finite false 5497558138880000 (-39).
Proof. vm_compute. reflexivity. Qed.

Lemma floor_sf : Prim2SF 0.0001%float = S754_finite false 7378697629483821 (-66).
Proof. vm_compute. reflexivity. Qed.

Lemma not_above_negated : forall r,
  nonneg_sf (Prim2SF r) = true -> PrimFloat.ltb 0.0001 (- r) = false.
Proof.
  intros r H. rewrite FloatAxioms.ltb_spec, FloatAxioms.opp_spec, floor_sf.
  destruct (Prim2SF r) as [s|s| |s m e]; try reflexivity;
    destruct s; try discriminate H; reflexivity.
Qed.

Lemma digits2_pos_bound : forall m, (Zpos m < 2 ^ Zpos (digits2_pos m))%Z.
Proof.
  induction m as [m IH|m IH|]; cbn [digits2_pos].
  - rewrite Pos2Z.inj_succ, Z.pow_succ_r by lia. lia.
  - rewrite Pos2Z.inj_succ, Z.pow_succ_r by lia. lia.
  - reflexivity.
Qed.

Lemma mantissa_bound : forall x s m e,
  Prim2SF x = S754_finite s m e -> (Zpos m < 2 ^ 53)%Z.
Proof.
  intros x s m e H. pose proof (Prim2SF_valid x) as V. rewrite H in V.
  cbn [SpecFloat.valid_binary] in V. unfold bounded in V.
  apply andb_true_iff in V. destruct V as [C _].
  unfold canonical_mantissa, fexp in C. apply Z.eqb_eq in C.
  pose proof (digits2_pos_bound m) as D.
  assert (L : (Zpos (digits2_pos m) <= 53)%Z) by (unfold prec in C; lia).
  eapply Z.lt_le_trans; [exact D|]. apply Z.pow_le_mono_r; lia.
Qed.

Lemma toFixed4_below_floor : forall c,
  PrimFloat.ltb 0.0001 c = false ->
  PrimFloat.ltb 0.0001 (toFixed4 c) = false.
Proof.
  intros c H. unfold toFixed4.
  destruct (Prim2SF c) as [s|s| |s m e] eqn:E; try exact H.
  - vm_compute. reflexivity.
  - destruct s.
    + apply not_above_negated. rewrite FloatAxioms.div_spec, ten_thousand.
      apply div_nonneg. apply of_uint63_nonneg.
    + pose proof (mantissa_bound _ _ _ _ E) as B.
      rewrite FloatAxioms.ltb_spec, floor_sf, E in H. unfold SFltb, SFcompare in H.
      assert (N : exists p, e = Zneg p /\ (66 <= Zpos p)%Z
                  /\ (20000 * Zpos m < 3 * 2 ^ Zpos p)%Z).
      { destruct (Z.compare_spec (-66) e) as [Q|Q|Q]; try discriminate H.
        - exists 66%positive. split; [now symmetry|]. split; [lia|].
          subst e.
          change (Pos.compare_cont Eq 7378697629483821 m)
            with (Pos.compare 7378697629483821 m) in H.
          destruct (Pos.compare_spec 7378697629483821 m) as [P|P|P];
            try discriminate H.
          + subst m. reflexivity.
          + clear P. change (2 ^ 66)%Z with 73786976294838206464%Z.
            change (2 ^ 53)%Z with 9007199254740992%Z in B. lia.
        - destruct e as [|p|p]; try lia. exists p. split; [reflexivity|].
          split; [lia|].
          assert (P : (2 ^ 67 <= 2 ^ Zpos p)%Z) by (apply Z.pow_le_mono_r; lia).
          change (2 ^ 67)%Z with 147573952589676412928%Z in P.
          change (2 ^ 53)%Z with 9007199254740992%Z in B. lia. }
      destruct N as (p & -> & _ & N).
      set (den := (2 ^ Zpos p)%Z) in *.
      assert (Pd : (0 < den)%Z) by (apply Z.pow_pos_nonneg; lia).
      assert (R : (0 <= (2 * (Zpos m * 10000) + den) / (2 * den) < 2)%Z).
      { split; [apply Z.div_pos; lia|]. apply Z.div_lt_upper_bound; lia. }
      set (n := ((2 * (Zpos m * 10000) + den) / (2 * den))%Z) in *.
      assert (C : n = 0%Z \/ n = 1%Z) by lia.
      destruct C as [-> | ->]; vm_compute; reflexivity.
Qed.

Lemma walk_continuity : forall now step k seed price j a b,
  nth_error (walk now step k seed price) j = Some a ->
  nth_error (walk now step k seed price) (S j) = Some b ->
  (PrimFloat.ltb 0.0001 (close a) = true -> open b = close a)
  /\ (open b = close a \/ open b = 0.0001%float).
Proof.
  intros now step k. induction k as [|k IH]; intros seed price j a b Ha Hb.
  - destruct j; discriminate.
  - cbn [walk] in Ha, Hb. unfold rand in Ha, Hb. destruct j as [|j].
    + cbn [nth_error] in Ha, Hb. injection Ha as <-.
      destruct k as [|k]; [discriminate|].
      cbn [walk] in Hb. unfold rand in Hb. cbn [nth_error] in Hb.
      injection Hb as <-. cbn [open close].
      match goal with
      | |- context [floor_price ?c] => set (x := c)
      end.
      unfold floor_price.
      destruct (PrimFloat.ltb 0.0001 x) eqn:E; [split; [reflexivity|now left]|].
      destruct (PrimFloat.eqb x x); [|split; [reflexivity|now left]].
      split; [|right; vm_compute; reflexivity].
      intro H. rewrite (toFixed4_below_floor _ E) in H. discriminate.
    + cbn [nth_error] in Ha, Hb. exact (IH _ _ _ _ _ Ha Hb).
Qed.

End MockMore.

(** X23: the prices of the mock series do not depend on the clock, the
    number of days or the interval: two series for one symbol agree,
    candle by candle, on open, high, low and close as far as the shorter
    one goes. *)
Theorem genMock_prices_prefix : forall symbol now now' days days' interval interval',
  let a := genMock now symbol days interval in
  let b := genMock now' symbol days' interval' in
  let n := Nat.min (List.length a) (List.length b) in
  firstn n (List.map prices a) = firstn n (List.map prices b).
Proof.
  intros symbol now now' days days' interval interval' a b n.
  unfold n, a, b, genMock, rand. rewrite !walk_length.
  apply walk_prices_prefix; lia.
Qed.

(** X24: the seed is the sum of the character codes, so symbols that
    are rearrangements of one another (without surrogate pairs) get the
    same series. *)
Theorem genMock_anagram : forall s1 s2 now days interval,
  Permutation s1 s2 -> no_surrogate s1 -> no_surrogate s2 ->
  genMock now s1 days interval = genMock now s2 days interval.
Proof.
  intros s1 s2 now days interval P H1 H2.
  assert (E : initial_seed s1 = initial_seed s2).
  { unfold initial_seed. rewrite !char_codes_plain by assumption.
    apply fold_add_perm. now apply Permutation_map. }
  unfold genMock. now rewrite E.
Qed.

Lemma genMock_anagram_witness :
  genMock 1700000000 (lit "BTC") 1 (lit "1h")
  = genMock 1700000000 (lit "TCB") 1 (lit "1h").
Proof.
  apply (genMock_anagram (lit "BTC") (lit "TCB")).
  - apply perm_trans with (lit "TBC"); [apply perm_swap|].
    apply perm_skip. apply perm_swap.
  - repeat constructor.
  - repeat constructor.
Defined.

(** X25: every candle of the mock series opens at the close of the
    candle before it whenever that close is above 0.0001, the floor of
    the walk; when it is not, the candle opens at that close or at
    0.0001. *)
Theorem genMock_continuity : forall now symbol days interval j a b,
  nth_error (genMock now symbol days interval) j = Some a ->
  nth_error (genMock now symbol days interval) (S j) = Some b ->
  (PrimFloat.ltb 0.0001 (close a) = true -> open b = close a)
  /\ (open b = close a \/ open b = 0.0001%float).
Proof.
  intros now symbol days interval j a b. unfold genMock, rand.
  apply walk_continuity.
Qed.

Lemma genMock_continuity_witness :
  (PrimFloat.ltb 0.0001 99.0136 = true -> 99.0136%float = 99.0136%float)
  /\ (99.0136%float = 99.0136%float \/ 99.0136%float = 0.0001%float).
Proof.
  apply (genMock_continuity 1700000000 (lit "BTC") 1 (lit "1h") 0
           (mkOHLC 1699913600 99.2946%float 99.6664%float 98.9228%float
                   99.0136%float None)
           (mkOHLC 1699917200 99.0136%float 99.0837%float 98.9435%float
                   98.9548%float None));
    vm_compute; reflexivity.
Defined.

(* ================================================================= *)
(** * The cached snapshot routes *)

Import GraphRoute.

Example route_key_uni :
  route_key (lit "uni") 3600 300 = lit "uni:3600:300".
Proof. reflexivity. Qed.

(** X26: once a request has been answered with a snapshot, the cache
    holds an entry under the key of the request, and every request
    with the same parameters that tests the clock less than 60 seconds
    after the entry was stored gets the same answer from the cache,
    without the adapter being called and without the cache changing. *)
Theorem route_serves_fresh_entry :
  forall (D : Type) prefix (cache : option (entry D)) secondsAgo first
         now_test now_store (d : D),
  let first_call :=
    GET prefix cache secondsAgo first now_test now_store (Ok d) in
  exists e,
    snd (fst first_call) = Some e
    /\ key e = route_key prefix secondsAgo first
    /\ fst (fst first_call) = (200%Z, Data (data e))
    /\ forall later later_store adapter,
         (later - at_ e < 60000)%Z ->
         GET prefix (Some e) secondsAgo first later later_store adapter
         = ((200%Z, Data (data e)), Some e, false).
Proof.
  intros D prefix cache secondsAgo first now_test now_store d first_call.
  assert (R : forall (e : entry D) later later_store adapter,
            key e = route_key prefix secondsAgo first ->
            (later - at_ e < 60000)%Z ->
            GET prefix (Some e) secondsAgo first later later_store adapter
            = ((200%Z, Data (data e)), Some e, false)).
  { intros e later later_store adapter K L. unfold GET.
    rewrite K, string_eqb_refl.
    replace (Z.ltb (later - at_ e) 60000) with true
      by (symmetry; now apply Z.ltb_lt).
    reflexivity. }
  unfold first_call, GET.
  destruct cache as [e|].
  - destruct (JsString.eqb (key e) (route_key prefix secondsAgo first)
              && Z.ltb (now_test - at_ e) 60000)%bool eqn:H.
    + apply andb_true_iff in H. destruct H as [K _].
      apply string_eqb_eq in K.
      exists e. repeat split; try assumption. intros. now apply R.
    + eexists. simpl. repeat split. intros. now apply R.
  - eexists. simpl. repeat split. intros. now apply R.
Qed.


(* ================================================================= *)
(** * The snapshot adapters *)

Import SnapshotAdapters.

Section SnapshotFacts.

Variable num : Type.
Variable Number : jsstring -> num.
Variable times : num -> num -> num.
Variable positive : num -> bool.
Variable zero : num.

Lemma anchor_bounds : forall current secondsAgo,
  (0 <= secondsAgo)%Z ->
  (anchor current secondsAgo <= current)%Z
  /\ ((secondsAgo < 12)%Z -> anchor current secondsAgo = current)
  /\ ((12 <= secondsAgo)%Z -> (anchor current secondsAgo < current)%Z).
Proof.
  intros current secondsAgo H. unfold anchor, AVG_BLOCK_TIME.
  destruct (Z.eqb_spec secondsAgo 0) as [->|N]; [lia|].
  pose proof (Z.div_pos secondsAgo 12 H ltac:(lia)) as P.
  split; [lia|]. split; intro L.
  - rewrite Z.div_small by lia. lia.
  - assert (1 <= secondsAgo / 12)%Z
      by (apply Z.div_le_lower_bound; lia).
    lia.
Qed.

Lemma kept_tokens : forall (l : list (jsstring * num)),
  Forall (fun t => fst t <> [] /\ positive (snd t) = true)
         (filter (keep positive) l).
Proof.
  intro l. apply Forall_forall. intros t I. apply filter_In in I.
  destruct I as [_ K]. unfold keep in K. apply andb_true_iff in K.
  destruct K as [S P]. split; [|exact P].
  intro E. destruct t as [s p]. simpl in *. subst s. discriminate.
Qed.

Lemma poolsData_length : forall ps : list pool,
  List.length (poolsData Number ps) = List.length ps.
Proof. intro ps. unfold poolsData. apply length_map. Qed.

End SnapshotFacts.

(** X28: [fetchUniswapV3Snapshot] (and [fetchPancakeV3Snapshot], which
    has its shape) answers exactly when the block, the base price, the
    tokens and the pools are all answered; its snapshot is anchored at
    the current block for less than 12 seconds ago and at an earlier
    block from 12 seconds on, lists only tokens with a symbol and a
    price above 0, and has one entry per pool. *)
Theorem fetchUniswapV3Snapshot_answer :
  forall (num : Type) (Number : jsstring -> num) (times : num -> num -> num)
         (positive : num -> bool) (zero : num)
         secondsAgo first getCurrentBlock basePrice topTokens topPools,
  (0 <= secondsAgo)%Z ->
  match fetchUniswapV3Snapshot Number times positive zero secondsAgo first
          getCurrentBlock basePrice topTokens topPools with
  | Fulfilled snap =>
      exists current eth ts ps,
        getCurrentBlock = Fulfilled current
        /\ basePrice (blockNumber_ snap) = Fulfilled eth
        /\ topTokens (blockNumber_ snap) first = Fulfilled ts
        /\ topPools (blockNumber_ snap) first = Fulfilled ps
        /\ (blockNumber_ snap <= current)%Z
        /\ ((secondsAgo < 12)%Z -> blockNumber_ snap = current)
        /\ ((12 <= secondsAgo)%Z -> (blockNumber_ snap < current)%Z)
        /\ Forall (fun t => fst t <> [] /\ positive (snd t) = true) (tokens_ snap)
        /\ (List.length (tokens_ snap) <= List.length ts)%nat
        /\ List.length (pools_ snap) = List.length ps
  | Rejected =>
      getCurrentBlock = Rejected
      \/ exists current,
           getCurrentBlock = Fulfilled current
           /\ let bn := anchor current secondsAgo in
              basePrice bn = Rejected \/ topTokens bn first = Rejected
              \/ topPools bn first = Rejected
  end.
Proof.
  intros num Number times positive zero secondsAgo first
         getCurrentBlock basePrice topTokens topPools H.
  unfold fetchUniswapV3Snapshot.
  destruct getCurrentBlock as [current|]; [|now left].
  destruct (anchor_bounds current secondsAgo H) as (B1 & B2 & B3).
  destruct (basePrice (anchor current secondsAgo)) as [eth|] eqn:E1;
    [|right; exists current; split; [reflexivity|]; simpl; rewrite E1; now left].
  destruct (topTokens (anchor current secondsAgo) first) as [ts|] eqn:E2;
    [|right; exists current; split; [reflexivity|]; simpl; rewrite E2;
      right; now left].
  destruct (topPools (anchor current secondsAgo) first) as [ps|] eqn:E3;
    [|right; exists current; split; [reflexivity|]; simpl; rewrite E3;
      right; now right].
  simpl. exists current, eth, ts, ps.
  repeat split; try assumption.
  - apply Forall_forall. intros t I.
    pose proof (kept_tokens num positive
                  (List.map (fun t => (token_symbol t,
                                       times (number_of Number zero (derived t)) eth))
                            ts)) as K.
    rewrite Forall_forall in K. now apply K.
  - pose proof (filter_length_le _ (keep positive)
                  (List.map (fun t => (token_symbol t,
                                       times (number_of Number zero (derived t)) eth))
                            ts)) as L.
    now rewrite length_map in L.
  - apply poolsData_length.
Qed.

Lemma fetchUniswapV3Snapshot_answer_witness :
  exists current eth ts ps,
    Fulfilled 19000000%Z = Fulfilled current
    /\ Fulfilled 3000%Z = Fulfilled eth
    /\ Fulfilled [mkRawToken (lit "WETH") (Some (lit "1"));
                  mkRawToken (lit "") (Some (lit "2"))] = Fulfilled ts
    /\ Fulfilled [mkRawPool (lit "WETH") (lit "USDC") (lit "201234")]
       = Fulfilled ps
    /\ (18999700 <= current)%Z
    /\ ((3600 < 12)%Z -> 18999700%Z = current)
    /\ ((12 <= 3600)%Z -> (18999700 < current)%Z)
    /\ Forall (fun t => fst t <> [] /\ Z.ltb 0 (snd t) = true)
              [(lit "WETH", 3000%Z)]
    /\ (1 <= List.length ts)%nat
    /\ 1%nat = List.length ps.
Proof.
  apply (fetchUniswapV3Snapshot_answer Z
           (fun s => Z.of_nat (List.length s)) Z.mul (Z.ltb 0) 0%Z
           3600%Z 300%Z (Fulfilled 19000000%Z)
           (fun _ => Fulfilled 3000%Z)
           (fun _ _ => Fulfilled [mkRawToken (lit "WETH") (Some (lit "1"));
                                  mkRawToken (lit "") (Some (lit "2"))])
           (fun _ _ => Fulfilled [mkRawPool (lit "WETH") (lit "USDC")
                                            (lit "201234")])).
  lia.
Defined.

(** X29: [fetchQuickSwapV3Snapshot] is rejected exactly when the
    block, the base price or the pools are, or when both token
    requests are; when the [derivedMatic] request is answered the
    [derivedUSD] request plays no part; and every token it lists has a
    symbol and a price above 0. *)
Theorem fetchQuickSwapV3Snapshot_fallback :
  forall (num : Type) (Number : jsstring -> num) (times : num -> num -> num)
         (positive : num -> bool) (zero : num)
         secondsAgo first getCurrentBlock basePriceUSD topPools tokM tokU,
  let run := fetchQuickSwapV3Snapshot Number times positive zero secondsAgo first
               getCurrentBlock basePriceUSD topPools tokM in
  (run tokU = Rejected <->
     getCurrentBlock = Rejected
     \/ exists current,
          getCurrentBlock = Fulfilled current
          /\ let bn := anchor current secondsAgo in
             basePriceUSD bn = Rejected \/ topPools bn first = Rejected
             \/ (tokM bn first = Rejected /\ tokU bn first = Rejected))
  /\ (forall current ts tokU',
        getCurrentBlock = Fulfilled current ->
        tokM (anchor current secondsAgo) first = Fulfilled ts ->
        run tokU' = run tokU)
  /\ (forall snap, run tokU = Fulfilled snap ->
        Forall (fun t => fst t <> [] /\ positive (snd t) = true) (tokens_ snap)).
Proof.
  intros num Number times positive zero secondsAgo first
         getCurrentBlock basePriceUSD topPools tokM tokU run.
  unfold run, fetchQuickSwapV3Snapshot.
  split; [|split].
  - destruct getCurrentBlock as [current|];
      [|split; [now left|reflexivity]].
    destruct (basePriceUSD (anchor current secondsAgo)) as [m|] eqn:E1;
      destruct (topPools (anchor current secondsAgo) first) as [ps|] eqn:E2;
      destruct (tokM (anchor current secondsAgo) first) as [ts|] eqn:E3;
      destruct (tokU (anchor current secondsAgo) first) as [us|] eqn:E4;
      simpl; split; intro H; try reflexivity; try discriminate H;
      try (right; exists current; split; [reflexivity|]; simpl;
           rewrite ?E1, ?E2, ?E3, ?E4; tauto);
      destruct H as [H|(c & Ec & H)]; try discriminate H;
      injection Ec as <-; simpl in H; rewrite ?E1, ?E2, ?E3, ?E4 in H;
      destruct H as [H|[H|[H1 H2]]]; discriminate.
  - intros current ts tokU' -> E. now rewrite E.
  - intros snap H.
    destruct getCurrentBlock as [current|]; [|discriminate].
    destruct (all2 _ _) as [[m ps]|]; [|discriminate].
    destruct (tokM (anchor current secondsAgo) first) as [ts|].
    + injection H as <-. apply kept_tokens.
    + destruct (tokU (anchor current secondsAgo) first) as [us|]; [|discriminate].
      injection H as <-. apply kept_tokens.
Qed.
